(** * The meeting-directory loader [src/helpers/data.ts]

    A shallow embedding of [load] and of its helpers [arrayToTagsArray],
    [stringToTrimmedArray], [validateEmail] and [warn], together with the
    properties of the transformation pipeline.

    A string is the sequence of its UTF-16 code units, as in the language:
    [length], [split], [trim], [replace], [endsWith], [includes], the
    classes of a regular expression without the [u] flag and the order of
    [Array.prototype.sort] all act on code units, and are written out here
    for every code unit.  The string literals of the source are given by
    [lit], which reads the UTF-8 text of a literal into code units.

    What the module imports from outside this file (the configuration tables,
    the URL parser, the date library, the percent-decoder, the case tables of
    the engine, the browser globals) is gathered in the two interfaces
    [Config] and [Host], and every property is proved for all of their
    implementations. *)

From Stdlib Require Import Ascii String NArith.
From stdpp Require Import gmap strings list sorting pretty.

(** ** Strings *)

(** A string: the list of its code units.  A code unit is a number below
    [0x10000]; nothing below depends on that bound. *)
Abbreviation jstring := (list N) (only parsing).

(** The code units of a text given by its UTF-8 bytes: one unit for a
    sequence of one, two or three bytes, a surrogate pair for one of four. *)
Fixpoint utf16 (s : string) : jstring :=
  match s with
  | EmptyString => []
  | String a r =>
      let x := N_of_ascii a in
      if (x <? 0x80)%N then x :: utf16 r
      else
        match r with
        | String b r1 =>
            let y := (N_of_ascii b mod 64)%N in
            if (x <? 0xE0)%N then (x mod 32 * 64 + y)%N :: utf16 r1
            else
              match r1 with
              | String c r2 =>
                  let z := (N_of_ascii c mod 64)%N in
                  if (x <? 0xF0)%N
                  then (x mod 16 * 4096 + y * 64 + z)%N :: utf16 r2
                  else
                    match r2 with
                    | String d r3 =>
                        let w := (N_of_ascii d mod 64)%N in
                        let v := (x mod 8 * 262144 + y * 4096 + z * 64 + w
                                  - 0x10000)%N in
                        (0xD800 + v / 1024)%N :: (0xDC00 + v mod 1024)%N
                        :: utf16 r3
                    | EmptyString => [x]
                    end
              | EmptyString => [x]
              end
        | EmptyString => [x]
        end
  end.

(** A string literal of the source, [lit "abc"], and the code unit of an
    ASCII character, [ch "a"]: both stand for their code units, which are
    computed where the literal is written. *)
Notation "'lit' s" :=
  (ltac:(let v := eval vm_compute in (utf16 s%string) in exact v))
  (at level 10, s at level 9, only parsing).
Notation "'ch' c" :=
  (ltac:(let v := eval vm_compute in (N_of_ascii c%char) in exact v))
  (at level 10, c at level 9, only parsing).

(** ** JavaScript string built-ins *)

Module Js.

(** The [WhiteSpace] and [LineTerminator] code points, as used by
    [String.prototype.trim] and by the class [\s]: TAB, LF, VT, FF, CR,
    the byte order mark, the line and paragraph separators and the space
    separators of Unicode (its category [Zs], as from version 6.3). *)
Definition is_white_space (c : N) : bool :=
  (((0x0009 <=? c) && (c <=? 0x000D))
   || (c =? 0x0020) || (c =? 0x00A0) || (c =? 0x1680)
   || ((0x2000 <=? c) && (c <=? 0x200A))
   || (c =? 0x2028) || (c =? 0x2029) || (c =? 0x202F) || (c =? 0x205F)
   || (c =? 0x3000) || (c =? 0xFEFF))%N.

(** The [LineTerminator] code points, which the dot of a regular
    expression excludes. *)
Definition is_line_terminator (c : N) : bool :=
  ((c =? 0x000A) || (c =? 0x000D) || (c =? 0x2028) || (c =? 0x2029))%N.

Definition is_digit (c : N) : bool := ((48 <=? c) && (c <=? 57))%N.

Definition is_alpha (c : N) : bool :=
  (((65 <=? c) && (c <=? 90)) || ((97 <=? c) && (c <=? 122)))%N.

Fixpoint trimStart (s : jstring) : jstring :=
  match s with
  | [] => []
  | c :: s' => if is_white_space c then trimStart s' else s
  end.

Fixpoint trimEnd (s : jstring) : jstring :=
  match s with
  | [] => []
  | c :: s' =>
      match trimEnd s' with
      | [] => if is_white_space c then [] else [c]
      | t => c :: t
      end
  end.

(** [s.trim()] *)
Definition trim (s : jstring) : jstring := trimEnd (trimStart s).

(** [s.split(sep)] for a separator of one code unit.  The empty string
    splits into one empty piece. *)
Fixpoint split (sep : N) (s : jstring) : list jstring :=
  match s with
  | [] => [[]]
  | c :: s' =>
      if (c =? sep)%N then [] :: split sep s'
      else match split sep s' with
           | t :: ts => (c :: t) :: ts
           | [] => [[c]]
           end
  end.

(** [a.join(sep)] *)
Fixpoint join (sep : jstring) (a : list jstring) : jstring :=
  match a with
  | [] => []
  | x :: a' =>
      match a' with
      | [] => x
      | _ :: _ => x ++ sep ++ join sep a'
      end
  end.

(** A string is truthy when it is not empty. *)
Definition truthy (s : jstring) : bool :=
  match s with [] => false | _ :: _ => true end.

(** [a.includes(x)] on an array of strings *)
Definition includes (a : list jstring) (x : jstring) : bool :=
  existsb (λ y, bool_decide (x = y)) a.

(** [s.startsWith(p)], as [replace] tests it at every position *)
Fixpoint startsWith (s p : jstring) : bool :=
  match p, s with
  | [], _ => true
  | x :: p', y :: s' => (x =? y)%N && startsWith s' p'
  | _ :: _, [] => false
  end.

(** [s.endsWith(suffix)] *)
Definition endsWith (s suffix : jstring) : bool :=
  (length suffix <=? length s)%nat
  && bool_decide (drop (length s - length suffix) s = suffix).

(** [s.substr(1)] *)
Definition substr1 (s : jstring) : jstring := drop 1 s.

(** [s.replace(pat, rep)] for a string pattern and a replacement without
    dollar signs: only the first occurrence is replaced. *)
Fixpoint replace (pat rep s : jstring) : jstring :=
  if startsWith s pat then rep ++ drop (length pat) s
  else match s with
       | [] => []
       | c :: s' => c :: replace pat rep s'
       end.

(** [s.replace(/\D/g, '')] *)
Fixpoint strip_non_digits (s : jstring) : jstring :=
  match s with
  | [] => []
  | c :: s' =>
      if is_digit c then c :: strip_non_digits s' else strip_non_digits s'
  end.

(** The order of two strings under [<=]: code unit by code unit, a proper
    prefix coming first. *)
Fixpoint leb (a b : jstring) : bool :=
  match a, b with
  | [], _ => true
  | _ :: _, [] => false
  | x :: a', y :: b' => (x <? y)%N || ((x =? y)%N && leb a' b')
  end.

Definition le (a b : jstring) : Prop := leb a b = true.

Global Instance le_dec : RelDecision le.
Proof. intros a b. unfold le. apply _. Defined.

(** [a.sort()] on an array of strings: ascending by code units. *)
Definition sort (a : list jstring) : list jstring := merge_sort le a.

End Js.


(** ** Regular expressions

    [validateEmail] tests its argument against one anchored pattern, so the
    test is membership in the pattern's language; it is decided here with
    derivatives.  The pattern has no flag: it is matched code unit by code
    unit. *)

Module Regex.

Inductive t : Type :=
| Fail
| Eps
| Class (p : N → bool)
| Seq (r1 r2 : t)
| Alt (r1 r2 : t)
| Star (r : t).

Fixpoint nullable (r : t) : bool :=
  match r with
  | Fail | Class _ => false
  | Eps | Star _ => true
  | Seq r1 r2 => nullable r1 && nullable r2
  | Alt r1 r2 => nullable r1 || nullable r2
  end.

Definition seq (r1 r2 : t) : t :=
  match r1 with Fail => Fail | Eps => r2 | _ => Seq r1 r2 end.

Definition alt (r1 r2 : t) : t :=
  match r1, r2 with Fail, _ => r2 | _, Fail => r1 | _, _ => Alt r1 r2 end.

Fixpoint deriv (c : N) (r : t) : t :=
  match r with
  | Fail | Eps => Fail
  | Class p => if p c then Eps else Fail
  | Seq r1 r2 =>
      if nullable r1 then alt (seq (deriv c r1) r2) (deriv c r2)
      else seq (deriv c r1) r2
  | Alt r1 r2 => alt (deriv c r1) (deriv c r2)
  | Star r1 => seq (deriv c r1) (Star r1)
  end.

(** [/^r$/.test(s)] *)
Fixpoint test (r : t) (s : jstring) : bool :=
  match s with
  | [] => nullable r
  | c :: s' => test (deriv c r) s'
  end.

Definition chr (c : N) : t := Class (N.eqb c).
Definition plus (r : t) : t := Seq r (Star r).
Definition opt (r : t) : t := Alt Eps r.
(** [r{1,3}] and [r{2,}] *)
Definition rep_1_3 (r : t) : t := Seq r (opt (Seq r (opt r))).
Definition rep_2_ (r : t) : t := Seq r (Seq r (Star r)).

End Regex.

(** ** Exceptions and the console *)

Inductive JsError : Type := TypeError | URIError.

(** A computation may write lines to the console and either throws or
    returns. *)
Definition M (A : Type) : Type := list jstring → list jstring * (JsError + A).

Global Instance M_ret : MRet M := λ A a out, (out, inr a).
Global Instance M_bind : MBind M := λ A B k m out,
  match m out with
  | (out', inl e) => (out', inl e)
  | (out', inr a) => k a out'
  end.
Global Instance M_fmap : FMap M := λ A B f m out,
  match m out with
  | (out', inl e) => (out', inl e)
  | (out', inr a) => (out', inr (f a))
  end.

Definition throw {A : Type} (e : JsError) : M A := λ out, (out, inl e).

(** [console.warn(msg)] *)
Definition console_warn (msg : jstring) : M unit := λ out, (out ++ [msg], inr ()).

(** [a.forEach] over a callback that updates a local variable [s]. *)
Fixpoint forEach {A S : Type} (f : S → A → M S) (a : list A) (s : S) : M S :=
  match a with
  | [] => mret s
  | x :: a' => s' ← f s x; forEach f a' s'
  end.

(** [a.map(f)] for a callback that may throw. *)
Fixpoint mapThrow {A B : Type} (f : A → M B) (a : list A) : M (list B) :=
  match a with
  | [] => mret []
  | x :: a' => y ← f x; ys ← mapThrow f a'; mret (y :: ys)
  end.

(** ** Data model *)

(** One entry of [data.feed.entry].  Each field holds the text under [$t];
    [None] stands for a named field that is absent from the entry, so that
    reading its [$t] raises a [TypeError]. *)
Record Row : Type := {
  gsx_name : option jstring;
  gsx_notes : option jstring;
  updated : option jstring;
  gsx_url : option jstring;
  gsx_phone : option jstring;
  gsx_accesscode : option jstring;
  gsx_email : option jstring;
  gsx_formats : option jstring;
  gsx_types : option jstring;
  gsx_timezone : option jstring;
  gsx_times : option jstring;
}.

(** [entry[f]['$t']] *)
Definition field (f : option jstring) : M jstring :=
  match f with
  | Some s => mret s
  | None => throw TypeError
  end.

(** What [./config] exports.  [videoServices] lists the table's entries in
    the order of [Object.keys]. *)
Class Config : Type := {
  days : list jstring;
  meetingsPerPage : Z;
  videoServices : list (jstring * list jstring);
}.

(** What the engine, the browser and the date library provide: the type
    [Moment] of the date library's objects with its parser and validity
    test, the time zone guess, the URL parser, the percent-decoder and
    [String.prototype.toLowerCase], whose result is given by the case
    tables of the engine's version of Unicode.  [URL_hostname s] is the
    [hostname] of [new URL(s)], or [None] when the constructor throws;
    [decodeURIComponent] is [None] on a [URIError]. *)
Class MomentType : Type := Moment : Type.

Class Host `{MomentType} : Type := {
  moment_tz : jstring → jstring → jstring → Moment;
  isValid : Moment → bool;
  moment_tz_guess : jstring;
  URL_hostname : jstring → option jstring;
  decodeURIComponent : jstring → option jstring;
  toLowerCase : jstring → jstring;
}.

Module Icon.
Inductive t : Type := link | video | phone | email.
Global Instance eq_dec : EqDecision t.
Proof. solve_decision. Defined.
End Icon.

(** The effect of a button's [onClick]: [window.open(url, target)]. *)
Inductive Handler : Type :=
| window_open (url : jstring) (target : option jstring).

Module Button.
Record t : Type := {
  icon : Icon.t;
  onClick : Handler;
  text : jstring;
  title : jstring;
}.
End Button.

Module Meeting.
Record t `{MomentType} : Type := {
  name : jstring;
  buttons : list Button.t;
  notes : list jstring;
  updated : jstring;
  search : jstring;
  tags : list jstring;
  time : option Moment;
}.

Section update.
Context `{MomentType}.
Definition push_button (m : t) (b : Button.t) : t :=
  {| name := name m; buttons := buttons m ++ [b]; notes := notes m;
     updated := updated m; search := search m; tags := tags m;
     time := time m |}.
Definition set_tags (m : t) (v : list jstring) : t :=
  {| name := name m; buttons := buttons m; notes := notes m;
     updated := updated m; search := search m; tags := v;
     time := time m |}.
Definition set_search (m : t) (v : jstring) : t :=
  {| name := name m; buttons := buttons m; notes := notes m;
     updated := updated m; search := v; tags := tags m;
     time := time m |}.
(** [{ ...m, time }] *)
Definition with_time (m : t) (v : Moment) : t :=
  {| name := name m; buttons := buttons m; notes := notes m;
     updated := updated m; search := search m; tags := tags m;
     time := Some v |}.
End update.
End Meeting.

Module Tag.
Record t : Type := { tag : jstring; checked : bool }.
End Tag.

Module State.
Record t `{MomentType} : Type := {
  filters : gmap jstring (list Tag.t);
  limit : Z;
  loading : bool;
  meetings : list Meeting.t;
  search : list jstring;
  timezone : jstring;
}.
End State.

(** ** The helpers of [data.ts] *)

(** [warn(value, type, line)] *)
Definition warn (value type : jstring) (line : nat) : M unit :=
  console_warn (lit "Row " ++ utf16 (pretty (line + 2)) ++ lit ": “" ++ value
                ++ lit "” is not a valid " ++ type ++ lit ".").

(** [stringToTrimmedArray(str, sep)]; callers relying on the default pass
    the comma. *)
Definition stringToTrimmedArray (str : jstring) (sep : N) : list jstring :=
  List.filter Js.truthy (Js.trim <$> Js.split sep str).

(** [arrayToTagsArray(array, values)] *)
Definition arrayToTagsArray (array values : list jstring) : list Tag.t :=
  (λ tag, {| Tag.tag := tag; Tag.checked := Js.includes values tag |}) <$> array.

Module EmailPattern.
Import Regex.

Definition dquote : N := ch "034".

(** The negated class of the local part: all but white space, the
    double quote and the twelve punctuation characters listed here. *)
Definition atom_char (c : N) : bool :=
  negb (Js.is_white_space c
        || existsb (N.eqb c)
             (dquote :: lit "<>()[]\.,;:@")).

(** [.] matches all but the line terminators. *)
Definition any_char (c : N) : bool :=
  negb (Js.is_line_terminator c).

(** [[a-zA-Z\-0-9]] *)
Definition label_char (c : N) : bool :=
  Js.is_alpha c || Js.is_digit c || N.eqb c (ch "-").

Definition local_part : Regex.t :=
  Alt (Seq (plus (Class atom_char))
           (Star (Seq (chr (ch ".")) (plus (Class atom_char)))))
      (Seq (chr dquote) (Seq (plus (Class any_char)) (chr dquote))).

Definition octet : Regex.t := rep_1_3 (Class Js.is_digit).

Definition domain : Regex.t :=
  Alt (Seq (chr (ch "["))
        (Seq octet (Seq (chr (ch ".")) (Seq octet (Seq (chr (ch "."))
          (Seq octet (Seq (chr (ch ".")) (Seq octet (chr (ch "]"))))))))))
      (Seq (plus (Seq (plus (Class label_char)) (chr (ch "."))))
           (rep_2_ (Class Js.is_alpha))).

Definition pattern : Regex.t := Seq local_part (Seq (chr (ch "@")) domain).
End EmailPattern.

(** [validateEmail(email)] *)
Definition validateEmail (email : jstring) : bool :=
  Regex.test EmailPattern.pattern email.


(** ** [load] *)

(** The three arrays that [load] fills while it walks the entries. *)
Record Locals `{MomentType} : Type := {
  meetings : list Meeting.t;
  formats : list jstring;
  types : list jstring;
}.

Section load.
Context `{Config} `{Host}.

(** [Object.keys(videoServices)] and [videoServices[service]] *)
Definition service_names : list jstring := videoServices.*1.
Definition service_domains (service : jstring) : list jstring :=
  match List.find (λ e, bool_decide (e.1 = service)) videoServices with
  | Some e => e.2
  | None => []
  end.

(** The services one of whose domains the host name ends with. *)
Definition matching_services (host : jstring) : list jstring :=
  List.filter
    (λ service,
       (0 <? length (List.filter (λ domain, Js.endsWith host domain)
                                 (service_domains service)))%nat)
    service_names.

(** Lines 36-66: the link or video button. *)
Definition handle_url (i : nat) (entry : Row) (meeting : Meeting.t)
  : M Meeting.t :=
  originalUrl ← Js.trim <$> field (gsx_url entry);
  if Js.truthy originalUrl then
    match URL_hostname originalUrl with
    | Some host =>
        let service := matching_services host in
        let '(icon, label) :=
          match service with
          | first :: _ => (Icon.video, first)
          | [] => (Icon.link, Js.replace (lit "www.") [] host)
          end in
        mret (Meeting.push_button meeting
                {| Button.icon := icon;
                   Button.onClick :=
                     window_open originalUrl (Some (lit "_blank"));
                   Button.text := label;
                   Button.title := lit "Visita " ++ originalUrl |})
    | None => warn originalUrl (lit "URL") i;; mret meeting
    end
  else mret meeting.

(** Lines 68-88: the phone button. *)
Definition handle_phone (i : nat) (entry : Row) (meeting : Meeting.t)
  : M Meeting.t :=
  originalPhone ← Js.trim <$> field (gsx_phone entry);
  if Js.truthy originalPhone then
    let phone := Js.strip_non_digits originalPhone in
    if (8 <? length phone)%nat then
      accessCode ← Js.trim <$> field (gsx_accesscode entry);
      let phone :=
        if (0 <? length accessCode)%nat
        then phone ++ lit ",," ++ accessCode else phone in
      mret (Meeting.push_button meeting
              {| Button.icon := Icon.phone;
                 Button.onClick := window_open (lit "tel:" ++ phone) None;
                 Button.text := lit "Telefono";
                 Button.title := lit "Chiama " ++ phone |})
    else warn originalPhone (lit "phone number") i;; mret meeting
  else mret meeting.

(** Lines 90-105: the email button. *)
Definition handle_email (i : nat) (entry : Row) (meeting : Meeting.t)
  : M Meeting.t :=
  email ← Js.trim <$> field (gsx_email entry);
  if Js.truthy email then
    if validateEmail email then
      mret (Meeting.push_button meeting
              {| Button.icon := Icon.email;
                 Button.onClick := window_open (lit "mailto:" ++ email) None;
                 Button.text := lit "Email";
                 Button.title := lit "Email " ++ email |})
    else warn email (lit "email address") i;; mret meeting
  else mret meeting.

(** Lines 112-117 and 127-132: push the tokens that the vocabulary does
    not include yet. *)
Definition push_new (vocabulary : list jstring) (token : jstring)
  : list jstring :=
  if Js.includes vocabulary token then vocabulary else vocabulary ++ [token].

(** Lines 140-142: [.split(' ').filter(e => e).join(' ')] *)
Definition collapse_spaces (s : jstring) : jstring :=
  Js.join (lit " ") (List.filter Js.truthy (Js.split (ch " ") s)).

(** Lines 137-142: the search index of a name. *)
Definition search_index (name : jstring) : jstring :=
  collapse_spaces (toLowerCase name).

(** Lines 155-165: one clone of the meeting per valid time. *)
Definition push_time (i : nat) (meeting : Meeting.t) (timezone : jstring)
    (meetings : list Meeting.t) (timestring : jstring)
  : M (list Meeting.t) :=
  let time := moment_tz timestring (lit "dddd h:mm a") timezone in
  if isValid time then mret (meetings ++ [Meeting.with_time meeting time])
  else warn timestring (lit "time") i;; mret meetings.

(** Lines 27-169: the body of the loop over the entries. *)
Definition load_entry (i : nat) (entry : Row) (vars : Locals) : M Locals :=
  name ← Js.trim <$> field (gsx_name entry);
  notes ←
    (λ t, stringToTrimmedArray t (ch "010")) <$> field (gsx_notes entry);
  updated ← field (updated entry);
  let meeting :=
    {| Meeting.name := name; Meeting.buttons := []; Meeting.notes := notes;
       Meeting.updated := updated; Meeting.search := [];
       Meeting.tags := []; Meeting.time := None |} in
  meeting ← handle_url i entry meeting;
  meeting ← handle_phone i entry meeting;
  meeting ← handle_email i entry meeting;
  meeting_formats ←
    (λ t, stringToTrimmedArray t (ch ",")) <$> field (gsx_formats entry);
  let formats := fold_left push_new meeting_formats (formats vars) in
  let meeting :=
    Meeting.set_tags meeting (Meeting.tags meeting ++ meeting_formats) in
  meeting_types ←
    (λ t, stringToTrimmedArray t (ch ",")) <$> field (gsx_types entry);
  let types := fold_left push_new meeting_types (types vars) in
  let meeting :=
    Meeting.set_tags meeting (Meeting.tags meeting ++ meeting_types) in
  let meeting :=
    Meeting.set_search meeting (search_index (Meeting.name meeting)) in
  timezone ← Js.trim <$> field (gsx_timezone entry);
  times ←
    (λ t, stringToTrimmedArray t (ch "010")) <$> field (gsx_times entry);
  meetings ←
    (if (0 <? length times)%nat
     then forEach (push_time i meeting timezone) times (meetings vars)
     else mret (meetings vars ++ [meeting]));
  mret {| meetings := meetings; formats := formats; types := types |}.

(** Lines 26-170: the loop, from index [i] on. *)
Fixpoint load_entries (i : nat) (entries : list Row) (vars : Locals)
  : M Locals :=
  match entries with
  | [] => mret vars
  | entry :: rest =>
      vars' ← load_entry i entry vars; load_entries (S i) rest vars'
  end.

Definition decode (s : jstring) : M jstring :=
  match decodeURIComponent s with
  | Some v => mret v
  | None => throw URIError
  end.

(** Lines 182-185: one [key=value] pair of the query string. *)
Definition read_pair (query : gmap jstring (list jstring)) (pair : jstring)
  : M (gmap jstring (list jstring)) :=
  match Js.split (ch "=") pair with
  | key :: value :: _ =>
      values ← mapThrow decode (Js.split (ch ",") value);
      mret (<[key := values]> query)
  | _ => throw TypeError
  end.

(** Lines 176-186: the query object.  Only the properties [days],
    [formats] and [types] of it are read afterwards. *)
Definition read_query (location_search : jstring)
  : M (gmap jstring (list jstring)) :=
  if (1 <? length location_search)%nat
  then forEach read_pair (Js.split (ch "&") (Js.substr1 location_search)) ∅
  else mret ∅.

(** [query[k] || []] *)
Definition preselection (query : gmap jstring (list jstring)) (k : jstring)
  : list jstring :=
  default [] (query !! k).

(** [load(data)], with [window.location.search] as a second argument. *)
Definition load (data : list Row) (location_search : jstring) : M State.t :=
  vars ← load_entries 0 data {| meetings := []; formats := []; types := [] |};
  let formats := Js.sort (formats vars) in
  let types := Js.sort (types vars) in
  query ← read_query location_search;
  mret {| State.filters :=
            <[lit "days" :=
                arrayToTagsArray days (preselection query (lit "days"))]>
            (<[lit "formats" :=
                 arrayToTagsArray formats (preselection query (lit "formats"))]>
            (<[lit "types" :=
                 arrayToTagsArray types (preselection query (lit "types"))]>
               ∅));
          State.limit := meetingsPerPage;
          State.loading := false;
          State.meetings := meetings vars;
          State.search := [];
          State.timezone := moment_tz_guess |}.

End load.

(** ** A configuration and a host to run the loader on

    Small executable stand-ins for the configuration module, the URL
    constructor, the date library and the percent-decoder.  They serve to
    evaluate [load] on concrete feeds; the general properties below are
    proved for every configuration and every host. *)

Module Sample.

Definition weekdays : list jstring :=
  [lit "domenica"; lit "lunedì"; lit "martedì"; lit "mercoledì";
   lit "giovedì"; lit "venerdì"; lit "sabato"].

Definition config : Config := {|
  days := weekdays;
  meetingsPerPage := 10;
  videoServices :=
    [(lit "Skype", [lit "skype.com"]);
     (lit "Zoom", [lit "zoom.us"; lit "zoom.com"]);
     (lit "Jitsi", [lit "meet.jit.si"])];
|}.

(** A parsed weekday and time of day in a zone. *)
Record moment : Type := {
  valid : bool;
  weekday : nat;
  minutes : nat;
  zone : jstring;
}.

(** The case table of the samples: the letters A to Z. *)
Definition lower_unit (c : N) : N :=
  if ((65 <=? c) && (c <=? 90))%N then (c + 32)%N else c.

Definition lower (s : jstring) : jstring := lower_unit <$> s.

Definition digit_value (c : N) : option nat :=
  if Js.is_digit c then Some (N.to_nat c - 48) else None.

Fixpoint number_from (acc : nat) (s : jstring) : option nat :=
  match s with
  | [] => Some acc
  | c :: s' =>
      match digit_value c with
      | Some d => number_from (10 * acc + d) s'
      | None => None
      end
  end.

Definition number (s : jstring) : option nat :=
  if Js.truthy s then number_from 0 s else None.

Fixpoint index_of (x : jstring) (l : list jstring) : option nat :=
  match l with
  | [] => None
  | y :: l' => if bool_decide (x = y) then Some 0 else S <$> index_of x l'
  end.

(** Reads a weekday, a time [h:mm] and [am] or [pm], separated by single
    spaces. *)
Definition parse_time (input : jstring) : option (nat * nat) :=
  match Js.split (ch " ") input with
  | [d; hm; ap] =>
      match index_of (lower d) weekdays, Js.split (ch ":") hm with
      | Some wd, [h; mm] =>
          match number h, number mm,
                index_of (lower ap) [lit "am"; lit "pm"] with
          | Some h', Some m', Some half =>
              if ((1 <=? h') && (h' <=? 12) && (m' <? 60))%nat
              then Some (wd, (h' mod 12 + 12 * half) * 60 + m') else None
          | _, _, _ => None
          end
      | _, _ => None
      end
  | _ => None
  end.

Definition parse_moment (input format tz : jstring) : moment :=
  match parse_time input with
  | Some (wd, m) => {| valid := true; weekday := wd; minutes := m; zone := tz |}
  | None => {| valid := false; weekday := 0; minutes := 0; zone := tz |}
  end.

(** The text between [scheme://] and the next delimiter, in lower case;
    58 is the colon, 47 the slash. *)
Fixpoint after_scheme (s : jstring) : option jstring :=
  match s with
  | 58%N :: 47%N :: 47%N :: rest => Some rest
  | c :: s' => if Js.is_alpha c then after_scheme s' else None
  | [] => None
  end.

Fixpoint authority (s : jstring) : jstring :=
  match s with
  | [] => []
  | c :: s' =>
      if existsb (N.eqb c) (lit "/?#:") then [] else c :: authority s'
  end.

Definition hostname (s : jstring) : option jstring :=
  match s with
  | c :: _ =>
      if Js.is_alpha c then
        match after_scheme s with
        | Some rest =>
            let h := lower (authority rest) in
            if Js.truthy h then Some h else None
        | None => None
        end
      else None
  | [] => None
  end.

Definition hex_value (c : N) : option N :=
  if Js.is_digit c then Some (c - 48)%N
  else if ((97 <=? c) && (c <=? 102))%N then Some (c - 87)%N
  else if ((65 <=? c) && (c <=? 70))%N then Some (c - 55)%N
  else None.

(** Percent-decoding of ASCII escapes; 37 is the percent sign. *)
Fixpoint percent_decode (s : jstring) : option jstring :=
  match s with
  | [] => Some []
  | 37%N :: a :: b :: rest =>
      match hex_value a, hex_value b with
      | Some x, Some y =>
          if (16 * x + y <? 128)%N
          then cons (16 * x + y)%N <$> percent_decode rest
          else None
      | _, _ => None
      end
  | 37%N :: _ => None
  | c :: rest => cons c <$> percent_decode rest
  end.

Definition moment_type : MomentType := moment.

Definition host : @Host moment_type := {|
  moment_tz := parse_moment;
  isValid := valid;
  moment_tz_guess := lit "Europe/Rome";
  URL_hostname := hostname;
  decodeURIComponent := percent_decode;
  toLowerCase := lower;
|}.

Definition row
    (name url phone accesscode email formats types timezone times : jstring)
  : Row := {|
  gsx_name := Some name;
  gsx_notes := Some [];
  updated := Some (lit "2020-04-01T10:00:00.000Z");
  gsx_url := Some url;
  gsx_phone := Some phone;
  gsx_accesscode := Some accesscode;
  gsx_email := Some email;
  gsx_formats := Some formats;
  gsx_types := Some types;
  gsx_timezone := Some timezone;
  gsx_times := Some times;
|}.

Definition newline : jstring := [ch "010"].
Definition tab : jstring := [ch "009"].

(** A row without times. *)
Definition ongoing : Row :=
  row (lit "Gruppo Aurora") [] [] [] []
    (lit "aperta") (lit "online") (lit "Europe/Rome") [].

(** A row whose only time expression does not parse. *)
Definition unparsed : Row :=
  row (lit "Gruppo Aurora") [] [] [] []
    (lit "aperta") (lit "online") (lit "Europe/Rome") (lit "ogni tanto").

(** A row with two distinct times, and one listing the same time twice. *)
Definition weekly : Row :=
  row (lit "Gruppo Aurora") [] [] [] []
    (lit "aperta") (lit "online") (lit "Europe/Rome")
    (lit "lunedì 7:00 pm" ++ newline ++ lit "giovedì 9:30 am").

Definition repeated : Row :=
  row (lit "Gruppo Aurora") [] [] [] []
    (lit "aperta") (lit "online") (lit "Europe/Rome")
    (lit "lunedì 7:00 pm" ++ newline ++ lit "lunedì 7:00 pm").

(** A row with the token [online] both as a format and as a type. *)
Definition twice_tagged : Row :=
  row (lit "Gruppo Aurora") [] [] [] []
    (lit "online, aperta") (lit "online") (lit "Europe/Rome") [].

(** A row whose name holds a tab between two words. *)
Definition tabbed : Row :=
  row (lit "Gruppo" ++ tab ++ lit "Aurora") [] [] []
    [] (lit "aperta") (lit "online") (lit "Europe/Rome") [].

(** A row with a ten-digit phone number and an access code, and one with
    a seven-digit phone number. *)
Definition with_phone : Row :=
  row (lit "Gruppo Aurora") [] (lit "555-123-4567") (lit "9876") []
    (lit "aperta") (lit "online") (lit "Europe/Rome") [].

Definition short_phone : Row :=
  row (lit "Gruppo Aurora") [] (lit "555-1234") [] []
    (lit "aperta") (lit "online") (lit "Europe/Rome") [].

(** Rows with a link: to a site, to a site with [www.] inside its host
    name, and to a video service. *)
Definition with_link : Row :=
  row (lit "Gruppo Aurora") (lit "https://www.example.org/riunione") []
    [] [] (lit "aperta") (lit "online") (lit "Europe/Rome") [].

Definition interior_www : Row :=
  row (lit "Gruppo Aurora") (lit "https://meet.www.example.org/x") []
    [] [] (lit "aperta") (lit "online") (lit "Europe/Rome") [].

Definition with_video : Row :=
  row (lit "Gruppo Aurora") (lit "https://us02web.zoom.us/j/123") []
    [] [] (lit "aperta") (lit "online") (lit "Europe/Rome") [].

(** A row whose phone value holds a line break between its digits. *)
Definition broken_phone : Row :=
  row (lit "Gruppo Aurora") [] (lit "555" ++ newline ++ lit "1234") []
    [] (lit "aperta") (lit "online") (lit "Europe/Rome") [].

(** A row without its notes field. *)
Definition without_notes : Row := {|
  gsx_name := Some (lit "Gruppo Aurora");
  gsx_notes := None;
  updated := Some (lit "2020-04-01T10:00:00.000Z");
  gsx_url := Some [];
  gsx_phone := Some [];
  gsx_accesscode := Some [];
  gsx_email := Some [];
  gsx_formats := Some (lit "aperta");
  gsx_types := Some (lit "online");
  gsx_timezone := Some (lit "Europe/Rome");
  gsx_times := Some [];
|}.

(** Two rows whose formats are [foo], [baz] and [bar], [foo]. *)
Definition foo_baz : Row :=
  row (lit "Gruppo Aurora") [] [] [] []
    (lit "foo, baz") (lit "online") (lit "Europe/Rome") [].

Definition bar_foo : Row :=
  row (lit "Gruppo Alba") [] [] [] []
    (lit "bar, foo") (lit "studio, online") (lit "Europe/Rome") [].

(** A row with an email address, and one with a text that is none. *)
Definition with_email : Row :=
  row (lit "Gruppo Aurora") [] [] [] (lit "info@example.org")
    (lit "aperta") (lit "online") (lit "Europe/Rome") [].

Definition bad_email : Row :=
  row (lit "Gruppo Aurora") [] [] [] (lit "info at example")
    (lit "aperta") (lit "online") (lit "Europe/Rome") [].

(** A row whose URL value is no URL. *)
Definition bad_link : Row :=
  row (lit "Gruppo Aurora") (lit "chiedere al gruppo") [] [] []
    (lit "aperta") (lit "online") (lit "Europe/Rome") [].

(** A row with notes on three lines, the second one empty, and white
    space around its [updated] text. *)
Definition with_notes : Row := {|
  gsx_name := Some (lit "Gruppo Aurora");
  gsx_notes :=
    Some (lit " Ingresso dal cortile " ++ newline ++ newline
          ++ lit "Citofono 3");
  updated := Some (lit " 2020-04-01 ");
  gsx_url := Some [];
  gsx_phone := Some [];
  gsx_accesscode := Some [];
  gsx_email := Some [];
  gsx_formats := Some (lit "aperta");
  gsx_types := Some (lit "online");
  gsx_timezone := Some (lit "Europe/Rome");
  gsx_times := Some [];
|}.

(** A row with a link, a phone number and an email address. *)
Definition with_contacts : Row :=
  row (lit "Gruppo Aurora") (lit "https://us02web.zoom.us/j/123")
    (lit "555-123-4567") (lit "9876") (lit "info@example.org")
    (lit "aperta") (lit "online") (lit "Europe/Rome") [].

(** The no-break space and the byte order mark, which are white space. *)
Definition nbsp : jstring := [0x00A0%N].
Definition bom : jstring := [0xFEFF%N].

(** A row whose contact and times cells hold white space only, with a
    no-break space after a format and after the time zone. *)
Definition blank_cells : Row :=
  row (lit "Gruppo Aurora") nbsp nbsp nbsp bom
    (lit "foo" ++ nbsp ++ lit ", foo") (lit "online")
    (lit "Europe/Rome" ++ nbsp) nbsp.

(** A row whose phone and email values are not valid, the first after a
    no-break space, the second with one inside, and with a no-break space
    after its time zone. *)
Definition padded_cells : Row :=
  row (lit "Gruppo Aurora") [] (nbsp ++ lit "555-1234") []
    (lit "a" ++ nbsp ++ lit "b@c.de") (lit "aperta") (lit "online")
    (lit "Europe/Rome" ++ nbsp) (lit "lunedì 7:00 pm").

(** [load] under the sample configuration and host, from an empty
    console. *)
Definition run (data : list Row) (location_search : jstring)
  : list jstring * (JsError + @State.t moment_type) :=
  @load config moment_type host data location_search [].

End Sample.

(** ** The search index as the specification words it

    The specification describes the search index as the name in lower case,
    split on white space, without its empty tokens, joined by single
    spaces.  [search_index_spec] follows these words, to be compared with
    [search_index]. *)

Fixpoint split_white_space (s : jstring) : list jstring :=
  match s with
  | [] => [[]]
  | c :: s' =>
      if Js.is_white_space c then [] :: split_white_space s'
      else match split_white_space s' with
           | t :: ts => (c :: t) :: ts
           | [] => [[c]]
           end
  end.

(** The label that the specification gives a link button: the host name
    without a leading [www.], an interior one being kept. *)
Definition strip_leading_www (host : jstring) : jstring :=
  if Js.startsWith host (lit "www.") then drop 4 host else host.

(** The specification's wording of a warning, with straight double quotes
    around the value. *)
Definition warning_spec (n : nat) (value kind : jstring) : jstring :=
  lit "Row " ++ utf16 (pretty n) ++ lit ": " ++ (EmailPattern.dquote :: value)
  ++ (EmailPattern.dquote :: (lit " is not a valid " ++ kind ++ lit ".")).

(** The text that [warn] writes. *)
Definition warning (line : nat) (value kind : jstring) : jstring :=
  lit "Row " ++ utf16 (pretty (line + 2)) ++ lit ": “" ++ value
  ++ lit "” is not a valid " ++ kind ++ lit ".".

(** Scans a string: [true] when no space follows a space, the string does
    not end with a space and, if [after_space] holds, does not start with
    one. *)
Fixpoint single_spaced (after_space : bool) (s : jstring) : bool :=
  match s with
  | [] => negb after_space
  | c :: s' =>
      if N.eqb c (ch " ") then negb after_space && single_spaced true s'
      else single_spaced false s'
  end.

(** The string after its leading digits. *)
Fixpoint skip_digits (s : jstring) : jstring :=
  match s with
  | [] => []
  | c :: s' => if Js.is_digit c then skip_digits s' else s
  end.

Fixpoint all_chars (P : N → bool) (s : jstring) : bool :=
  match s with
  | [] => true
  | c :: s' => P c && all_chars P s'
  end.

(** ** Notions used in the statements *)

(** A vocabulary: no tag twice, the tags in ascending order of their
    code units, and a tag checked exactly when it is selected. *)
Definition vocabulary (tags : list Tag.t) (selected : list jstring) : Prop :=
  NoDup (Tag.tag <$> tags)
  ∧ StronglySorted Js.le (Tag.tag <$> tags)
  ∧ ∀ t, t ∈ tags → (Tag.checked t = true ↔ Tag.tag t ∈ selected).

(** [s] is [a], then [pat], then [b], and [pat] does not occur in [s] any
    earlier. *)
Definition first_occurrence (pat a b s : jstring) : Prop :=
  s = a ++ pat ++ b
  ∧ ∀ a' b', s = a' ++ pat ++ b' → length a ≤ length a'.

(** The button that dials [target]. *)
Definition phone_button (target : jstring) : Button.t :=
  {| Button.icon := Icon.phone;
     Button.onClick := window_open (lit "tel:" ++ target) None;
     Button.text := lit "Telefono";
     Button.title := lit "Chiama " ++ target |}.

(** The button that opens [url] under the label [label]. *)
Definition url_button (icon : Icon.t) (label url : jstring) : Button.t :=
  {| Button.icon := icon;
     Button.onClick := window_open url (Some (lit "_blank"));
     Button.text := label;
     Button.title := lit "Visita " ++ url |}.

(** *** What a computation writes

    [writes P c]: whatever [c] returns, it only appends lines to the
    console, and each appended line satisfies [P]. *)

Definition writes {A : Type} (P : jstring → Prop) (c : M A) : Prop :=
  ∀ out out' r, c out = (out', r) → ∃ w, out' = out ++ w ∧ Forall P w.

(** *** Computations with related results

    [sim R c1 c2]: from any two consoles, [c1] and [c2] throw the same
    error or return values related by [R]. *)

Definition result_rel {A B : Type} (R : A → B → Prop)
    (r1 : JsError + A) (r2 : JsError + B) : Prop :=
  match r1, r2 with
  | inl e1, inl e2 => e1 = e2
  | inr a, inr b => R a b
  | _, _ => False
  end.

Definition sim {A B : Type} (R : A → B → Prop) (c1 : M A) (c2 : M B) : Prop :=
  ∀ o1 o2, result_rel R (c1 o1).2 (c2 o2).2.

Section notions.
Context `{Host}.

Definition search_index_spec (name : jstring) : jstring :=
  Js.join (lit " ")
    (List.filter Js.truthy (split_white_space (toLowerCase name))).

(** What the lower-casing of Unicode does around spaces: the empty string
    stays empty, a text in lower case stays as it is, and the words of a
    text, which the space character separates, are lowered one by one (no
    mapping yields or removes a space, and no context of a mapping reaches
    across one). *)
Definition lowers_words : Prop :=
  toLowerCase [] = []
  ∧ (∀ s, toLowerCase (toLowerCase s) = toLowerCase s)
  ∧ (∀ s, Js.split (ch " ") (toLowerCase s)
          = toLowerCase <$> Js.split (ch " ") s).

(** A handler leaves the meeting as it is or pushes one button. *)
Definition one_more (icons : list Icon.t) (m m' : Meeting.t) : Prop :=
  m' = m ∨ ∃ b, m' = Meeting.push_button m b ∧ Button.icon b ∈ icons.

(** The valid moments among the time expressions of a row, in order. *)
Definition moments (timezone : jstring) (times : list jstring) : list Moment :=
  List.filter isValid
    ((λ t, moment_tz t (lit "dddd h:mm a") timezone) <$> times).

Definition invalid_times (timezone : jstring) (times : list jstring)
  : list jstring :=
  List.filter
    (λ t, negb (isValid (moment_tz t (lit "dddd h:mm a") timezone))) times.

(** The records that the loop body pushes for a meeting: one clone per
    valid time, or the meeting itself when the row lists no time. *)
Definition row_records (m : Meeting.t) (timezone : jstring)
    (times : list jstring) : list Meeting.t :=
  if (0 <? length times)%nat then Meeting.with_time m <$> moments timezone times
  else [m].

(** The meeting object as the loop body creates it. *)
Definition new_meeting (name notes updated : jstring) : Meeting.t :=
  {| Meeting.name := Js.trim name; Meeting.buttons := [];
     Meeting.notes := stringToTrimmedArray notes (ch "010");
     Meeting.updated := updated; Meeting.search := [];
     Meeting.tags := []; Meeting.time := None |}.

Definition no_locals : Locals :=
  {| meetings := []; formats := []; types := [] |}.

(** The host name ends with one of the domains of the service. *)
Definition serves `{Config} (service host : jstring) : Prop :=
  ∃ domain p, domain ∈ service_domains service ∧ host = p ++ domain.

(** The phone handler reads the access code of an entry only when more
    than 8 digits remain of its phone value. *)
Definition dials (phone : jstring) : bool :=
  Js.truthy (Js.trim phone)
  && (8 <? length (Js.strip_non_digits (Js.trim phone)))%nat.

(** Every field that the loop body reads of the entry is present. *)
Definition readable (entry : Row) : bool :=
  bool_decide (is_Some (gsx_name entry))
  && bool_decide (is_Some (gsx_notes entry))
  && bool_decide (is_Some (updated entry))
  && bool_decide (is_Some (gsx_url entry))
  && match gsx_phone entry with
     | Some phone =>
         negb (dials phone) || bool_decide (is_Some (gsx_accesscode entry))
     | None => false
     end
  && bool_decide (is_Some (gsx_email entry))
  && bool_decide (is_Some (gsx_formats entry))
  && bool_decide (is_Some (gsx_types entry))
  && bool_decide (is_Some (gsx_timezone entry))
  && bool_decide (is_Some (gsx_times entry)).

(** The pair holds an equals sign, and every item of the value after it
    decodes. *)
Definition pair_parses (pair : jstring) : bool :=
  match Js.split (ch "=") pair with
  | _ :: value :: _ =>
      forallb (λ item, bool_decide (is_Some (decodeURIComponent item)))
        (Js.split (ch ",") value)
  | _ => false
  end.

(** Every pair of the query string parses. *)
Definition query_parses (location_search : jstring) : bool :=
  if (1 <? length location_search)%nat
  then forallb pair_parses (Js.split (ch "&") (Js.substr1 location_search))
  else true.

(** [value] is a field of the entry that the loop body reports as not
    valid, under the name [kind]. *)
Definition malformed (entry : Row) (value kind : jstring) : Prop :=
  (kind = lit "URL"
   ∧ ∃ u, gsx_url entry = Some u ∧ value = Js.trim u
          ∧ Js.truthy value = true ∧ URL_hostname value = None)
  ∨ (kind = lit "phone number"
     ∧ ∃ p, gsx_phone entry = Some p ∧ value = Js.trim p
            ∧ Js.truthy value = true
            ∧ length (Js.strip_non_digits value) ≤ 8)
  ∨ (kind = lit "email address"
     ∧ ∃ e, gsx_email entry = Some e ∧ value = Js.trim e
            ∧ Js.truthy value = true ∧ validateEmail value = false)
  ∨ (kind = lit "time"
     ∧ ∃ tz t, gsx_timezone entry = Some tz ∧ gsx_times entry = Some t
               ∧ value ∈ stringToTrimmedArray t (ch "010")
               ∧ isValid (moment_tz value (lit "dddd h:mm a") (Js.trim tz))
                 = false).

(** A line that reports a field of the entry at index [i]. *)
Definition reports (i : nat) (entry : Row) (line : jstring) : Prop :=
  ∃ value kind, malformed entry value kind ∧ line = warning i value kind.

(** The buttons of a meeting that carry one of the given icons. *)
Definition buttons_with (icons : list Icon.t) (m : Meeting.t) : list Button.t :=
  List.filter (λ b, bool_decide (Button.icon b ∈ icons)) (Meeting.buttons m).

(** From the arrays [v1] and [v2], the arrays [a] and [b] are reached by
    pushing the same records. *)
Definition same_push (v1 v2 : Locals) (a b : Locals) : Prop :=
  ∃ ms, meetings a = meetings v1 ++ ms ∧ meetings b = meetings v2 ++ ms.

(** Two records that agree on every field but [time]. *)
Definition same_but_time (m r : Meeting.t) : Prop :=
  Meeting.name r = Meeting.name m
  ∧ Meeting.buttons r = Meeting.buttons m
  ∧ Meeting.notes r = Meeting.notes m
  ∧ Meeting.updated r = Meeting.updated m
  ∧ Meeting.search r = Meeting.search m
  ∧ Meeting.tags r = Meeting.tags m.

(** The records of a feed split around one of its rows: [recs] are the
    records of the row [entry], between those of the rows before it and
    those of the rows after it. *)
Definition records_of_row `{Config} (pre : list Row) (entry : Row)
    (post : list Row) (location_search : jstring) (out : list jstring)
    (st : State.t) (recs : list Meeting.t) : Prop :=
  ∃ o1 st1 o2 st2,
    load pre location_search out = (o1, inr st1)
    ∧ load post location_search out = (o2, inr st2)
    ∧ State.meetings st = State.meetings st1 ++ recs ++ State.meetings st2.
End notions.

(** ** Notions used in the further properties *)

(** No white space at either end. *)
Definition trimmed (t : jstring) : Prop :=
  (∀ c r, t = (c :: r) → Js.is_white_space c = false)
  ∧ (∀ r c, t = r ++ [c] → Js.is_white_space c = false).

(** The language of a regular expression. *)
Inductive regex_matches : Regex.t → jstring → Prop :=
| matches_eps : regex_matches Regex.Eps []
| matches_class p c :
    p c = true → regex_matches (Regex.Class p) [c]
| matches_seq r1 r2 s1 s2 :
    regex_matches r1 s1 → regex_matches r2 s2 →
    regex_matches (Regex.Seq r1 r2) (s1 ++ s2)
| matches_alt_l r1 r2 s :
    regex_matches r1 s → regex_matches (Regex.Alt r1 r2) s
| matches_alt_r r1 r2 s :
    regex_matches r2 s → regex_matches (Regex.Alt r1 r2) s
| matches_star_nil r : regex_matches (Regex.Star r) []
| matches_star_cons r s1 s2 :
    regex_matches r s1 → regex_matches (Regex.Star r) s2 →
    regex_matches (Regex.Star r) (s1 ++ s2).

(** The characters that the classes of a regular expression accept. *)
Fixpoint regex_chars (r : Regex.t) (c : N) : bool :=
  match r with
  | Regex.Fail | Regex.Eps => false
  | Regex.Class p => p c
  | Regex.Seq r1 r2 | Regex.Alt r1 r2 => regex_chars r1 c || regex_chars r2 c
  | Regex.Star r1 => regex_chars r1 c
  end.

(** The button that writes to [address]. *)
Definition email_button (address : jstring) : Button.t :=
  {| Button.icon := Icon.email;
     Button.onClick := window_open (lit "mailto:" ++ address) None;
     Button.text := lit "Email";
     Button.title := lit "Email " ++ address |}.

(** A code unit of the ASCII range. *)
Definition is_ascii (c : N) : bool := (c <? 128)%N.

(** The labels of a domain, each followed by a dot. *)
Definition dotted (labels : list jstring) : jstring :=
  fold_right (λ label rest, label ++ lit "." ++ rest) [] labels.

(** The further atoms of a local part, each after a dot. *)
Definition after_dots (atoms : list jstring) : jstring :=
  fold_right (λ atom rest, lit "." ++ atom ++ rest) [] atoms.

(** The tags of a category, checked anew against [values]. *)
Definition recheck (values : list jstring) (tags : list Tag.t) : list Tag.t :=
  (λ t, {| Tag.tag := Tag.tag t;
           Tag.checked := Js.includes values (Tag.tag t) |}) <$> tags.

Section further_notions.
Context `{Host}.

(** The error that reading a pair throws, if it throws. *)
Definition pair_error (pair : jstring) : option JsError :=
  match Js.split (ch "=") pair with
  | _ :: value :: _ =>
      if forallb (λ item, bool_decide (is_Some (decodeURIComponent item)))
           (Js.split (ch ",") value)
      then None else Some URIError
  | _ => Some TypeError
  end.

(** The error of the first pair that throws. *)
Fixpoint first_error (pairs : list jstring) : option JsError :=
  match pairs with
  | [] => None
  | p :: rest =>
      match pair_error p with
      | Some e => Some e
      | None => first_error rest
      end
  end.

Definition query_error (location_search : jstring) : option JsError :=
  if (1 <? length location_search)%nat
  then first_error (Js.split (ch "&") (Js.substr1 location_search))
  else None.

(** The items of a value, decoded. *)
Definition decoded (value : jstring) : list jstring :=
  (λ item, default [] (decodeURIComponent item)) <$> Js.split (ch ",") value.

(** The warnings that the loop body writes for the entry at index [i], in
    the order of the checks: URL, phone number, email address, times. *)
Definition row_warnings (i : nat) (entry : Row) : list jstring :=
  match gsx_url entry with
  | Some u =>
      if Js.truthy (Js.trim u)
         && bool_decide (URL_hostname (Js.trim u) = None)
      then [warning i (Js.trim u) (lit "URL")] else []
  | None => []
  end
  ++ match gsx_phone entry with
     | Some p =>
         if Js.truthy (Js.trim p)
            && (length (Js.strip_non_digits (Js.trim p)) <=? 8)%nat
         then [warning i (Js.trim p) (lit "phone number")] else []
     | None => []
     end
  ++ match gsx_email entry with
     | Some e =>
         if Js.truthy (Js.trim e) && negb (validateEmail (Js.trim e))
         then [warning i (Js.trim e) (lit "email address")] else []
     | None => []
     end
  ++ match gsx_timezone entry, gsx_times entry with
     | Some tz, Some t =>
         (λ x, warning i x (lit "time"))
           <$> invalid_times (Js.trim tz) (stringToTrimmedArray t (ch "010"))
     | _, _ => []
     end.

(** The number of records that the loop body pushes for an entry. *)
Definition record_count (entry : Row) : nat :=
  match gsx_timezone entry, gsx_times entry with
  | Some tz, Some t =>
      match stringToTrimmedArray t (ch "010") with
      | [] => 1
      | times => length (moments (Js.trim tz) times)
      end
  | _, _ => 0
  end.
End further_notions.

(** * Properties *)

(** ** Evaluation on small inputs *)

(** The byte order mark and the no-break space are white space. *)
Example trim_ex :
  Js.trim (0xFEFF%N :: lit "  a b  " ++ [0x00A0%N]) = lit "a b".
Proof. vm_compute. reflexivity. Qed.

Example split_ex : Js.split (ch ",") (lit "a,,b") = [lit "a"; []; lit "b"].
Proof. vm_compute. reflexivity. Qed.

Example replace_ex :
  Js.replace (lit "www.") [] (lit "www.a.www.b") = lit "a.www.b".
Proof. vm_compute. reflexivity. Qed.

Example sort_ex :
  Js.sort [lit "foo"; lit "bar"; lit "baz"] = [lit "bar"; lit "baz"; lit "foo"].
Proof. vm_compute. reflexivity. Qed.

(** The surrogates of a character outside the Basic Multilingual Plane
    come before the code units from [0xE000] on. *)
Example sort_code_units : Js.sort [lit "Ａ"; lit "😀"] = [lit "😀"; lit "Ａ"].
Proof. vm_compute. reflexivity. Qed.

Example ends_ex : Js.endsWith (lit "us.zoom.us") (lit "zoom.us") = true.
Proof. vm_compute. reflexivity. Qed.

Example validateEmail_ok : validateEmail (lit "a@b.com") = true.
Proof. vm_compute. reflexivity. Qed.

Example validateEmail_ko : validateEmail (lit "not-an-email") = false.
Proof. vm_compute. reflexivity. Qed.

(** A no-break space is white space for the class [\s] as well. *)
Example validateEmail_no_break_space :
  validateEmail (lit "a" ++ [0x00A0%N] ++ lit "b@c.de") = false.
Proof. vm_compute. reflexivity. Qed.

(** ** Strings *)

Section strings.

Lemma truthy_spec (s : jstring) : Js.truthy s = true ↔ s ≠ [].
Proof. destruct s; simpl; split; congruence. Qed.

Lemma all_chars_append P (a b : jstring) :
  all_chars P (a ++ b) = all_chars P a && all_chars P b.
Proof.
  induction a as [|c a IH]; simpl; [done|].
  by rewrite IH, andb_assoc.
Qed.

Lemma all_chars_Forall P (s : jstring) :
  all_chars P s = true ↔ Forall (λ c, P c = true) s.
Proof.
  induction s as [|c s IH]; simpl; [by split|].
  rewrite andb_true_iff, Forall_cons, IH. done.
Qed.

Lemma split_not_nil c s : Js.split c s ≠ [].
Proof.
  induction s as [|x s IH]; simpl; [done|].
  destruct (N.eqb x c); [done|]. by destruct (Js.split c s).
Qed.

(** The pieces of a split hold characters of the string only, and never
    the separator. *)
Lemma split_all_chars P c s :
  all_chars P s = true → Forall (λ t, all_chars P t = true) (Js.split c s).
Proof.
  induction s as [|x s IH]; simpl; intros Hs.
  - by repeat constructor.
  - apply andb_true_iff in Hs as [Hx Hs]. specialize (IH Hs).
    destruct (N.eqb x c).
    + by constructor.
    + destruct (Js.split c s) as [|t ts]; simpl.
      * repeat constructor. simpl. by rewrite Hx.
      * inversion IH; subst. constructor; [|done]. simpl.
        by rewrite Hx.
Qed.

Lemma split_no_sep c s :
  Forall (λ t, all_chars (λ x, negb (N.eqb x c)) t = true) (Js.split c s).
Proof.
  induction s as [|x s IH]; simpl.
  - by repeat constructor.
  - destruct (N.eqb x c) eqn:Hx.
    + by constructor.
    + destruct (Js.split c s) as [|t ts]; simpl.
      * repeat constructor. simpl. by rewrite Hx.
      * inversion IH; subst. constructor; [|done]. simpl.
        by rewrite Hx.
Qed.

Lemma join_cons sep (t u : jstring) (l : list jstring) :
  Js.join sep (t :: u :: l) = t ++ sep ++ Js.join sep (u :: l).
Proof. done. Qed.

Lemma all_chars_concat P sep (l : list jstring) :
  all_chars P sep = true →
  Forall (λ t, all_chars P t = true) l →
  all_chars P (Js.join sep l) = true.
Proof.
  intros Hsep. induction 1 as [|t l Ht Hl IH]; [done|].
  destruct l as [|u l]; [done|].
  rewrite join_cons, !all_chars_append, Ht, Hsep. simpl. exact IH.
Qed.

Lemma Forall_filter_bool {A} (P : A → Prop) (f : A → bool) (l : list A) :
  Forall P l → Forall P (List.filter f l).
Proof.
  induction 1 as [|x l Hx Hl IH]; simpl; [constructor|].
  destruct (f x); [by constructor | done].
Qed.

Lemma Forall_filter_true {A} (f : A → bool) (l : list A) :
  Forall (λ x, f x = true) (List.filter f l).
Proof.
  induction l as [|x l IH]; simpl; [constructor|].
  destruct (f x) eqn:Hx; [by constructor | done].
Qed.

(** *** Single spacing *)

Lemma single_spaced_token b t rest :
  Js.truthy t = true →
  all_chars (λ x, negb (N.eqb x (ch " "))) t = true →
  single_spaced b (t ++ rest) = single_spaced false rest.
Proof.
  intros Ht. revert b. induction t as [|c t IH]; [done|]. clear Ht.
  simpl. intros b [Hc Hs]%andb_true_iff. apply negb_true_iff in Hc.
  rewrite Hc. destruct t as [|d t]; [done|]. by apply IH.
Qed.

Lemma single_spaced_concat (l : list jstring) :
  l ≠ [] →
  Forall (λ t, Js.truthy t = true) l →
  Forall (λ t, all_chars (λ x, negb (N.eqb x (ch " "))) t = true) l →
  single_spaced true (Js.join (lit " ") l) = true.
Proof.
  intros Hne Ht Hs. induction l as [|t l IH]; [done|]. clear Hne.
  inversion Ht; inversion Hs; subst.
  destruct l as [|u l].
  - simpl. rewrite <- (app_nil_r t). by rewrite single_spaced_token.
  - rewrite join_cons, single_spaced_token by done.
    change (lit " " ++ Js.join (lit " ") (u :: l))
      with (ch " " :: Js.join (lit " ") (u :: l)).
    cbn [single_spaced]. rewrite N.eqb_refl. by apply IH.
Qed.

Lemma single_spaced_double b (u v : jstring) :
  single_spaced b (u ++ lit "  " ++ v) = false.
Proof.
  change (lit "  " ++ v) with (ch " " :: ch " " :: v).
  revert b. induction u as [|c u IH]; intros b; simpl.
  - rewrite ?N.eqb_refl. apply andb_false_r.
  - destruct (N.eqb c (ch " ")); [|done]. by rewrite IH, andb_false_r.
Qed.

Lemma single_spaced_trailing b (u : jstring) :
  single_spaced b (u ++ lit " ") = false.
Proof.
  change (lit " ") with [ch " "].
  revert b. induction u as [|c u IH]; intros b; simpl.
  - rewrite ?N.eqb_refl. apply andb_false_r.
  - destruct (N.eqb c (ch " ")); [|done]. by rewrite IH, andb_false_r.
Qed.

Lemma collapse_spaces_tokens s :
  let tokens := List.filter Js.truthy (Js.split (ch " ") s) in
  Forall (λ t, Js.truthy t = true) tokens
  ∧ Forall (λ t, all_chars (λ x, negb (N.eqb x (ch " "))) t = true) tokens.
Proof.
  split.
  - apply Forall_filter_true.
  - apply Forall_filter_bool, split_no_sep.
Qed.

Lemma collapse_spaces_empty_or_spaced s :
  collapse_spaces s = [] ∨ single_spaced true (collapse_spaces s) = true.
Proof.
  destruct (collapse_spaces_tokens s) as (Ht & Hs).
  unfold collapse_spaces.
  destruct (List.filter Js.truthy _) as [|t l] eqn:E; [by left|].
  right. by apply single_spaced_concat.
Qed.

(** *** Splitting *)

Lemma split_append c (a b : jstring) :
  Js.split c (a ++ c :: b) = Js.split c a ++ Js.split c b.
Proof.
  induction a as [|x a IH]; simpl.
  - by rewrite N.eqb_refl.
  - rewrite IH. destruct (N.eqb x c); [done|].
    pose proof (split_not_nil c a). by destruct (Js.split c a).
Qed.

Lemma split_without_separator c (s : jstring) :
  all_chars (λ x, negb (N.eqb x c)) s = true → Js.split c s = [s].
Proof.
  induction s as [|x s IH]; simpl; [done|].
  intros [Hx Hs]%andb_true_iff. apply negb_true_iff in Hx.
  by rewrite Hx, IH.
Qed.

(** *** Decimal numerals *)

(** A literal of ASCII characters is read byte by byte. *)
Lemma utf16_ascii (s : string) :
  Forall (λ a, (N_of_ascii a < 128)%N) (list_ascii_of_string s) →
  utf16 s = N_of_ascii <$> list_ascii_of_string s.
Proof.
  induction s as [|a s IH]; [done|].
  cbn [list_ascii_of_string]. intros [Ha Hs]%Forall_cons.
  apply N.ltb_lt in Ha. unfold utf16 at 1. fold utf16. cbv zeta. rewrite Ha.
  cbn [fmap list_fmap]. f_equal. by apply IH.
Qed.

Lemma pretty_N_go_digits x s :
  Forall (λ a, Js.is_digit (N_of_ascii a) = true) (list_ascii_of_string s) →
  Forall (λ a, Js.is_digit (N_of_ascii a) = true)
    (list_ascii_of_string (pretty_N_go x s)).
Proof.
  revert s. induction (N.lt_wf_0 x) as [x _ IH]; intros s Hs.
  destruct (decide (x = 0)%N) as [->|Hx]; [by rewrite pretty_N_go_0|].
  rewrite pretty_N_go_step by lia. apply IH; [apply N.div_lt; lia|].
  cbn [list_ascii_of_string]. constructor; [|done].
  unfold pretty_N_char. by repeat case_match.
Qed.

Lemma pretty_nat_digits (n : nat) :
  all_chars Js.is_digit (utf16 (pretty n)) = true.
Proof.
  assert (Hd : Forall (λ a, Js.is_digit (N_of_ascii a) = true)
                 (list_ascii_of_string (pretty n))).
  { unfold pretty, pretty_nat, pretty, pretty_N.
    case_decide; [by repeat constructor|].
    apply pretty_N_go_digits. constructor. }
  rewrite utf16_ascii.
  - apply all_chars_Forall, Forall_fmap. exact Hd.
  - eapply Forall_impl; [exact Hd|]. intros a Ha. unfold Js.is_digit in Ha.
    apply andb_true_iff in Ha as [_ Ha%N.leb_le]. lia.
Qed.

Lemma skip_digits_append (d r : jstring) :
  all_chars Js.is_digit d = true → skip_digits (d ++ r) = skip_digits r.
Proof.
  induction d as [|c d IH]; simpl; [done|].
  intros [-> Hd]%andb_true_iff. by apply IH.
Qed.

(** *** Suffixes and first occurrences *)

(** [endsWith] is the suffix test. *)
Lemma endsWith_spec (s suffix : jstring) :
  Js.endsWith s suffix = true ↔ ∃ p, s = p ++ suffix.
Proof.
  unfold Js.endsWith.
  rewrite andb_true_iff, Nat.leb_le, bool_decide_eq_true. split.
  - intros [Hle E]. exists (take (length s - length suffix) s).
    rewrite <- E at 2. by rewrite take_drop.
  - intros [p ->]. rewrite length_app. split; [lia|].
    replace (length p + length suffix - length suffix) with (length p) by lia.
    by rewrite drop_app_length.
Qed.

Lemma startsWith_spec (s pat : jstring) :
  Js.startsWith s pat = true ↔ ∃ r, s = pat ++ r.
Proof.
  revert s. induction pat as [|x pat IH]; intros s.
  - destruct s; simpl; split; eauto.
  - destruct s as [|y s]; simpl.
    + split; [done | by intros [r ?]].
    + rewrite andb_true_iff, N.eqb_eq, IH. split.
      * intros [-> [r ->]]. eauto.
      * intros [r [= -> ->]]. eauto.
Qed.

Lemma startsWith_append (pat b : jstring) : Js.startsWith (pat ++ b) pat = true.
Proof. apply startsWith_spec. eauto. Qed.

Lemma startsWith_split (pat s : jstring) :
  Js.startsWith s pat = true → s = pat ++ drop (length pat) s.
Proof.
  intros [r ->]%startsWith_spec. by rewrite drop_app_length.
Qed.

Lemma replace_unfold (pat rep s : jstring) :
  Js.replace pat rep s =
    if Js.startsWith s pat then rep ++ drop (length pat) s
    else match s with
         | [] => []
         | c :: s' => c :: Js.replace pat rep s'
         end.
Proof. by destruct s. Qed.

(** Replacing by the empty string removes the first occurrence of the
    pattern, wherever it is, and nothing else. *)
Lemma replace_first_occurrence (pat a b s : jstring) :
  s = a ++ pat ++ b →
  (∀ a' b', s = a' ++ pat ++ b' → length a ≤ length a') →
  Js.replace pat [] s = a ++ b.
Proof.
  revert s. induction a as [|c a IH]; intros s -> Hmin; rewrite replace_unfold.
  - simpl. by rewrite startsWith_append, drop_app_length.
  - destruct (Js.startsWith _ pat) eqn:E.
    + apply startsWith_split in E. specialize (Hmin [] _ E).
      simpl in Hmin. lia.
    + simpl. f_equal. apply IH; [done|]. intros a' b' E'.
      specialize (Hmin (c :: a') b'). simpl in Hmin.
      rewrite E' in Hmin. specialize (Hmin eq_refl). lia.
Qed.

Lemma replace_absent (pat s : jstring) :
  (∀ a b, s ≠ a ++ pat ++ b) → Js.replace pat [] s = s.
Proof.
  induction s as [|c s IH]; intros Habs; rewrite replace_unfold.
  - destruct (Js.startsWith _ pat) eqn:E; [|done].
    apply startsWith_split in E. by destruct (Habs [] _ E).
  - destruct (Js.startsWith _ pat) eqn:E.
    + apply startsWith_split in E. by destruct (Habs [] _ E).
    + f_equal. apply IH. intros a b ->. by apply (Habs (c :: a) b).
Qed.

(** The spaces of a string with its spaces collapsed are single and
    interior. *)
Lemma collapse_spaces_shape s :
  (∀ a b, collapse_spaces s ≠ a ++ lit "  " ++ b)
  ∧ (∀ a, collapse_spaces s ≠ lit " " ++ a)
  ∧ (∀ a, collapse_spaces s ≠ a ++ lit " ").
Proof.
  split_and!.
  - intros a b E. destruct (collapse_spaces_empty_or_spaced s) as [E'|E'].
    + rewrite E' in E. by destruct a.
    + by rewrite E, single_spaced_double in E'.
  - intros a E. destruct (collapse_spaces_empty_or_spaced s) as [E'|E'].
    + by rewrite E' in E.
    + rewrite E in E'. by vm_compute in E'.
  - intros a E. destruct (collapse_spaces_empty_or_spaced s) as [E'|E'].
    + rewrite E' in E. by destruct a.
    + by rewrite E, single_spaced_trailing in E'.
Qed.

(** Joining the pieces of a split gives the string back. *)
Lemma join_split c s : Js.join [c] (Js.split c s) = s.
Proof.
  induction s as [|x s IH]; simpl; [done|].
  pose proof (split_not_nil c s) as Hne.
  destruct (N.eqb x c) eqn:E.
  - apply N.eqb_eq in E as ->.
    destruct (Js.split c s) as [|t ts]; [done|]. simpl in *. by rewrite IH.
  - destruct (Js.split c s) as [|t [|u us]]; [done|..]; simpl in *;
      by rewrite IH.
Qed.

(** Splitting a join of pieces without separator gives the pieces back. *)
Lemma split_join c (l : list jstring) :
  l ≠ [] →
  Forall (λ t, all_chars (λ x, negb (N.eqb x c)) t = true) l →
  Js.split c (Js.join [c] l) = l.
Proof.
  intros Hne Hl. induction Hl as [|t l Ht Hl IH]; [done|].
  clear Hne. destruct l as [|u l].
  - simpl. by apply split_without_separator.
  - rewrite join_cons. change ([c] ++ Js.join [c] (u :: l))
      with (c :: Js.join [c] (u :: l)).
    rewrite split_append, IH by done.
    by rewrite split_without_separator.
Qed.

Lemma filter_truthy_id (l : list jstring) :
  Forall (λ t, Js.truthy t = true) l → List.filter Js.truthy l = l.
Proof.
  induction 1 as [|t l Ht Hl IH]; simpl; [done|]. by rewrite Ht, IH.
Qed.

(** The pieces of a string with its spaces collapsed are its tokens. *)
Lemma split_collapse_spaces s :
  collapse_spaces s = []
  ∨ Js.split (ch " ") (collapse_spaces s)
    = List.filter Js.truthy (Js.split (ch " ") s).
Proof.
  destruct (collapse_spaces_tokens s) as (Ht & Hs). unfold collapse_spaces.
  destruct (List.filter Js.truthy (Js.split (ch " ") s)) as [|t l] eqn:E;
    [by left|].
  right. by apply (split_join (ch " ") (t :: l)).
Qed.

Lemma collapse_spaces_idempotent s :
  collapse_spaces (collapse_spaces s) = collapse_spaces s.
Proof.
  destruct (split_collapse_spaces s) as [E|E]; [by rewrite E|].
  unfold collapse_spaces at 1. rewrite E.
  rewrite filter_truthy_id by apply Forall_filter_true. done.
Qed.

(** Splitting on white space and splitting on the space character agree
    on a string whose only white space is the space character. *)
Lemma split_white_space_spaces (s : jstring) :
  all_chars (λ c, negb (Js.is_white_space c) || N.eqb c (ch " ")) s = true →
  split_white_space s = Js.split (ch " ") s.
Proof.
  induction s as [|c s IH]; simpl; [done|].
  intros [Hc Hs]%andb_true_iff. rewrite IH by done.
  destruct (N.eqb c (ch " ")) eqn:E.
  - apply N.eqb_eq in E as ->. done.
  - rewrite orb_false_r in Hc. apply negb_true_iff in Hc. by rewrite Hc.
Qed.

End strings.

(** ** Running computations *)

Create HintDb js_run discriminated.

#[local] Hint Unfold mbind M_bind fmap M_fmap mret M_ret throw console_warn
  warn field : js_run.

Ltac run := autounfold with js_run in *; simpl in *.

Section running.
Context {A B : Type}.

Lemma bind_run (m : M A) (k : A → M B) out :
  (m ≫= k) out =
    match m out with
    | (out', inl e) => (out', inl e)
    | (out', inr a) => k a out'
    end.
Proof. reflexivity. Qed.

Lemma bind_returns (m : M A) (k : A → M B) out out' b :
  (m ≫= k) out = (out', inr b) →
  ∃ a o, m out = (o, inr a) ∧ k a o = (out', inr b).
Proof.
  rewrite bind_run. destruct (m out) as [o [e|a]]; [done|]. eauto.
Qed.

Lemma fmap_returns (f : A → B) (m : M A) out out' b :
  (f <$> m) out = (out', inr b) →
  ∃ a, m out = (out', inr a) ∧ b = f a.
Proof.
  unfold fmap, M_fmap. destruct (m out) as [o [e|a]]; [done|].
  intros [= <- <-]. eauto.
Qed.

Lemma field_returns (f : option jstring) out out' s :
  field f out = (out', inr s) → f = Some s ∧ out' = out.
Proof. destruct f; run; [|done]. by intros [= <- <-]. Qed.

End running.

Lemma read_field_returns {A : Type} (g : jstring → A) (f : option jstring)
    out out' a :
  (g <$> field f) out = (out', inr a) →
  ∃ s, f = Some s ∧ a = g s ∧ out' = out.
Proof.
  intros (s & Hf & ->)%fmap_returns.
  apply field_returns in Hf as [-> ->]. eauto.
Qed.


Section writes.
Context (P : jstring → Prop).

Lemma writes_ret {A : Type} (a : A) : writes P (mret a).
Proof. intros out out' r [= <- <-]. exists []. by rewrite app_nil_r. Qed.

Lemma writes_throw {A : Type} (e : JsError) : writes P (@throw A e).
Proof. intros out out' r [= <- <-]. exists []. by rewrite app_nil_r. Qed.

Lemma writes_field f : writes P (field f).
Proof. destruct f; [apply writes_ret | apply writes_throw]. Qed.

Lemma writes_warn value kind line :
  P (warning line value kind) → writes P (warn value kind line).
Proof. intros HP out out' r [= <- <-]. exists [warning line value kind]. eauto. Qed.

Lemma writes_bind {A B : Type} (m : M A) (k : A → M B) :
  writes P m → (∀ a, writes P (k a)) → writes P (m ≫= k).
Proof.
  intros Hm Hk out out' r. rewrite bind_run.
  destruct (m out) as [o [e|a]] eqn:E; apply Hm in E as (w & -> & Hw).
  - intros [= <- <-]. eauto.
  - intros (w' & -> & Hw')%Hk. exists (w ++ w').
    split; [by rewrite app_assoc | by apply Forall_app].
Qed.

Lemma writes_fmap {A B : Type} (f : A → B) (m : M A) : writes P m → writes P (f <$> m).
Proof.
  intros Hm out out' r. unfold fmap, M_fmap.
  destruct (m out) as [o [e|a]] eqn:E; apply Hm in E as (w & -> & Hw);
    intros [= <- <-]; eauto.
Qed.

Lemma writes_forEach {A B : Type} (f : B → A → M B) (a : list A) (s : B) :
  (∀ s x, x ∈ a → writes P (f s x)) → writes P (forEach f a s).
Proof.
  revert s. induction a as [|x a IH]; intros s Hf; simpl.
  - apply writes_ret.
  - apply writes_bind; [apply Hf; left|].
    intros s'. apply IH. intros ???. apply Hf. by right.
Qed.

Lemma writes_mapThrow {A B : Type} (f : A → M B) (a : list A) :
  (∀ x, writes P (f x)) → writes P (mapThrow f a).
Proof.
  intros Hf. induction a as [|x a IH]; simpl.
  - apply writes_ret.
  - apply writes_bind; [done|]. intros y.
    apply writes_bind; [done|]. intros ys. apply writes_ret.
Qed.
End writes.

Lemma writes_bind_result {A B : Type} (P : jstring → Prop)
    (m : M A) (k : A → M B) :
  writes P m →
  (∀ a out out', m out = (out', inr a) → writes P (k a)) →
  writes P (m ≫= k).
Proof.
  intros Hm Hk out out' r. rewrite bind_run.
  destruct (m out) as [o [e|a]] eqn:E; pose proof E as E';
    apply Hm in E' as (w & -> & Hw).
  - intros [= <- <-]. eauto.
  - intros (w' & -> & Hw')%(Hk _ _ _ E). exists (w ++ w').
    split; [by rewrite app_assoc | by apply Forall_app].
Qed.

Lemma writes_mono {A : Type} (P Q : jstring → Prop) (c : M A) :
  (∀ x, P x → Q x) → writes P c → writes Q c.
Proof.
  intros HPQ Hc out out' r (w & -> & Hw)%Hc. exists w. split; [done|].
  eapply Forall_impl; eauto.
Qed.


Section sim.
Context {A1 A2 B1 B2 : Type}.

Lemma sim_ret (R : A1 → A2 → Prop) a b : R a b → sim R (mret a) (mret b).
Proof. by intros HR o1 o2. Qed.

Lemma sim_throw (R : A1 → A2 → Prop) e : sim R (throw e) (throw e).
Proof. by intros o1 o2. Qed.

Lemma sim_bind (R : A1 → A2 → Prop) (S : B1 → B2 → Prop) m1 m2 k1 k2 :
  sim R m1 m2 → (∀ a b, R a b → sim S (k1 a) (k2 b)) →
  sim S (m1 ≫= k1) (m2 ≫= k2).
Proof.
  intros Hm Hk o1 o2. rewrite !bind_run. specialize (Hm o1 o2).
  destruct (m1 o1) as [o1' [e1|a]], (m2 o2) as [o2' [e2|b]];
    simpl in *; try done.
  by apply Hk.
Qed.

Lemma sim_fmap (R : A1 → A2 → Prop) (S : B1 → B2 → Prop) m1 m2 f g :
  sim R m1 m2 → (∀ a b, R a b → S (f a) (g b)) →
  sim S (f <$> m1) (g <$> m2).
Proof.
  intros Hm Hf o1 o2. unfold fmap, M_fmap. specialize (Hm o1 o2).
  destruct (m1 o1) as [o1' [e1|a]], (m2 o2) as [o2' [e2|b]];
    simpl in *; try done.
  by apply Hf.
Qed.

Lemma sim_returns (R : A1 → A2 → Prop) c1 c2 o1 o1' a o2 :
  sim R c1 c2 → c1 o1 = (o1', inr a) →
  ∃ o2' b, c2 o2 = (o2', inr b) ∧ R a b.
Proof.
  intros Hs E. specialize (Hs o1 o2). rewrite E in Hs.
  destruct (c2 o2) as [o2' [e|b]]; simpl in *; [done|]. eauto.
Qed.
End sim.

Lemma sim_field f : sim eq (field f) (field f).
Proof. destruct f; [by apply sim_ret | apply sim_throw]. Qed.

Lemma sim_warn v1 k1 i1 v2 k2 i2 : sim eq (warn v1 k1 i1) (warn v2 k2 i2).
Proof. by intros o1 o2. Qed.

Lemma sim_forEach {A S1 S2 : Type} (R : S1 → S2 → Prop)
    (f1 : S1 → A → M S1) (f2 : S2 → A → M S2) (a : list A) s1 s2 :
  (∀ x s1 s2, R s1 s2 → sim R (f1 s1 x) (f2 s2 x)) →
  R s1 s2 → sim R (forEach f1 a s1) (forEach f2 a s2).
Proof.
  intros Hf. revert s1 s2. induction a as [|x a IH]; intros s1 s2 HR; simpl.
  - by apply sim_ret.
  - eapply sim_bind; [by apply Hf|]. intros ???. by apply IH.
Qed.

Lemma sim_mapThrow {A B : Type} (f : A → M B) (a : list A) :
  (∀ x, sim eq (f x) (f x)) → sim eq (mapThrow f a) (mapThrow f a).
Proof.
  intros Hf. induction a as [|x a IH]; simpl.
  - by apply sim_ret.
  - eapply sim_bind; [apply Hf|]. intros y ? <-.
    eapply sim_bind; [apply IH|]. intros ys ? <-. by apply sim_ret.
Qed.

(** ** The loop body *)

Ltac sim_eq :=
  repeat first
    [ apply sim_field
    | apply sim_warn
    | apply sim_throw
    | by apply sim_ret
    | eapply (sim_fmap eq); [|by intros ? ? <-]
    | eapply (sim_bind eq); [|intros ? ? <-]
    | match goal with
      | |- sim _ (if ?c then _ else _) _ => destruct c
      | |- sim _ (match ?c with _ => _ end) _ => destruct c
      end ].

Ltac writes_auto :=
  repeat first
    [ apply writes_field
    | apply writes_ret
    | apply writes_throw
    | apply writes_fmap
    | apply writes_bind; [|intros ?]
    | match goal with
      | |- ∀ _, _ => intros ?
      | |- writes _ (if ?c then _ else _) => destruct c eqn:?
      | |- writes _ (match ?c with _ => _ end) => destruct c eqn:?
      end ].

Section entry.
Context `{Config} `{Host}.

(** Apart from the console line, a handler does not depend on the index
    of the entry. *)
Lemma sim_handle_url i j entry m :
  sim eq (handle_url i entry m) (handle_url j entry m).
Proof. unfold handle_url. sim_eq. Qed.

Lemma sim_handle_phone i j entry m :
  sim eq (handle_phone i entry m) (handle_phone j entry m).
Proof. unfold handle_phone. sim_eq. Qed.

Lemma sim_handle_email i j entry m :
  sim eq (handle_email i entry m) (handle_email j entry m).
Proof. unfold handle_email. sim_eq. Qed.

Lemma handle_url_returns i entry m out out' m' :
  handle_url i entry m out = (out', inr m') →
  one_more [Icon.link; Icon.video] m m'.
Proof.
  unfold handle_url. intros (u & o & (s & _ & -> & ->)%read_field_returns & E)%bind_returns.
  destruct (Js.truthy _); [|injection E as <- <-; by left].
  destruct (URL_hostname _) as [host|]; [|injection E as <- <-; by left].
  destruct (matching_services host); injection E as <- <-; right;
    eexists; (split; [done|]); simpl; set_solver.
Qed.

Lemma handle_phone_returns i entry m out out' m' :
  handle_phone i entry m out = (out', inr m') →
  one_more [Icon.phone] m m'.
Proof.
  unfold handle_phone. intros (u & o & (s & _ & -> & ->)%read_field_returns & E)%bind_returns.
  destruct (Js.truthy _); [|injection E as <- <-; by left].
  destruct (8 <? _)%nat; [|injection E as <- <-; by left].
  apply bind_returns in E as (a & o' & _ & E).
  injection E as <- <-; right; eexists; (split; [done|]); simpl; set_solver.
Qed.

Lemma handle_email_returns i entry m out out' m' :
  handle_email i entry m out = (out', inr m') →
  one_more [Icon.email] m m'.
Proof.
  unfold handle_email. intros (u & o & (s & _ & -> & ->)%read_field_returns & E)%bind_returns.
  destruct (Js.truthy _); [|injection E as <- <-; by left].
  destruct (validateEmail _); injection E as <- <-; [right|by left].
  eexists; (split; [done|]); simpl; set_solver.
Qed.

Lemma push_time_run i m timezone ms t out :
  push_time i m timezone ms t out =
    let time := moment_tz t (lit "dddd h:mm a") timezone in
    if isValid time then (out, inr (ms ++ [Meeting.with_time m time]))
    else (out ++ [warning i t (lit "time")], inr ms).
Proof. unfold push_time. simpl. by destruct (isValid _). Qed.

(** The loop over the times always returns: it pushes one clone per valid
    expression and warns once per invalid one. *)
Lemma forEach_push_time i m timezone times ms out :
  forEach (push_time i m timezone) times ms out =
    (out ++ ((λ t, warning i t (lit "time")) <$> invalid_times timezone times),
     inr (ms ++ (Meeting.with_time m <$> moments timezone times))).
Proof.
  revert ms out. induction times as [|t times IH]; intros ms out.
  - unfold moments, invalid_times. simpl. unfold mret, M_ret.
    by rewrite !app_nil_r.
  - cbn [forEach]. rewrite bind_run, push_time_run.
    unfold moments, invalid_times in *. cbn [fmap list_fmap List.filter].
    cbv zeta. destruct (isValid _) eqn:E; cbn [negb]; rewrite IH.
    + by rewrite <- app_assoc.
    + by rewrite <- app_assoc.
Qed.
End entry.

Lemma sim_mono {A B : Type} (R S : A → B → Prop) (c1 : M A) (c2 : M B) :
  (∀ a b, R a b → S a b) → sim R c1 c2 → sim S c1 c2.
Proof.
  intros HRS Hs o1 o2. specialize (Hs o1 o2).
  destruct (c1 o1).2, (c2 o2).2; simpl in *; auto.
Qed.

Section body.
Context `{Config} `{Host}.

(** Two runs of the loop body on the same entry push the same records,
    whatever the index, the console and the arrays they start from. *)
Lemma sim_load_entry i j entry v1 v2 :
  sim (same_push v1 v2) (load_entry i entry v1) (load_entry j entry v2).
Proof.
  unfold load_entry.
  do 3 (eapply (sim_bind eq); [sim_eq|intros ? ? <-]).
  eapply (sim_bind eq); [apply sim_handle_url|intros ? ? <-].
  eapply (sim_bind eq); [apply sim_handle_phone|intros ? ? <-].
  eapply (sim_bind eq); [apply sim_handle_email|intros ? ? <-].
  do 4 (eapply (sim_bind eq); [sim_eq|intros ? ? <-]).
  eapply (sim_bind (λ a b, ∃ ms, a = meetings v1 ++ ms ∧ b = meetings v2 ++ ms)).
  - intros o1 o2. destruct (0 <? _)%nat.
    + rewrite !forEach_push_time. simpl. eauto.
    + simpl. eauto.
  - intros ms1 ms2 HR. by apply sim_ret.
Qed.

Lemma sim_load_entries i j entries v1 v2 :
  sim (same_push v1 v2) (load_entries i entries v1) (load_entries j entries v2).
Proof.
  revert i j v1 v2. induction entries as [|entry rest IH]; intros i j v1 v2.
  - apply sim_ret. exists []. by rewrite !app_nil_r.
  - cbn [load_entries].
    eapply sim_bind; [apply (sim_load_entry i j)|].
    intros a b (ms & Ha & Hb).
    eapply sim_mono; [|apply (IH (S i) (S j) a b)].
    intros a' b' (ms' & Ha' & Hb'). exists (ms ++ ms').
    rewrite Ha', Hb', Ha, Hb. by rewrite !app_assoc.
Qed.

Lemma load_entries_app i l1 l2 vars out :
  load_entries i (l1 ++ l2) vars out =
    (load_entries i l1 vars ≫= load_entries (i + length l1) l2) out.
Proof.
  revert i vars out. induction l1 as [|entry l1 IH]; intros i vars out.
  - simpl. by rewrite Nat.add_0_r.
  - cbn [app load_entries length]. rewrite !bind_run.
    destruct (load_entry i entry vars out) as [o [e|v]]; [done|].
    rewrite IH, bind_run. by replace (S i + length l1) with (i + S (length l1)) by lia.
Qed.

(** What the loop body has done when it returns. *)
Lemma load_entry_returns i entry vars out out' vars' :
  load_entry i entry vars out = (out', inr vars') →
  ∃ n no u f ty tz t m1 m2 m3 o1 o2 o3 m,
    gsx_name entry = Some n ∧ gsx_notes entry = Some no
    ∧ updated entry = Some u ∧ gsx_formats entry = Some f
    ∧ gsx_types entry = Some ty ∧ gsx_timezone entry = Some tz
    ∧ gsx_times entry = Some t
    ∧ handle_url i entry (new_meeting n no u) out = (o1, inr m1)
    ∧ handle_phone i entry m1 o1 = (o2, inr m2)
    ∧ handle_email i entry m2 o2 = (o3, inr m3)
    ∧ m = Meeting.set_search
            (Meeting.set_tags m3
               (stringToTrimmedArray f (ch ",") ++ stringToTrimmedArray ty (ch ",")))
            (search_index (Js.trim n))
    ∧ meetings vars' =
        meetings vars
        ++ row_records m (Js.trim tz) (stringToTrimmedArray t (ch "010"))
    ∧ formats vars' = fold_left push_new (stringToTrimmedArray f (ch ",")) (formats vars)
    ∧ types vars' = fold_left push_new (stringToTrimmedArray ty (ch ",")) (types vars)
    ∧ out' = o3 ++ ((λ x, warning i x (lit "time"))
                      <$> invalid_times (Js.trim tz) (stringToTrimmedArray t (ch "010"))).
Proof.
  unfold load_entry. intros E.
  apply bind_returns in E as (? & ? & (n & Hn & -> & ->)%read_field_returns & E).
  apply bind_returns in E as (? & ? & (no & Hno & -> & ->)%read_field_returns & E).
  apply bind_returns in E as (u & ? & [Hu ->]%field_returns & E).
  apply bind_returns in E as (m1 & o1 & Hm1 & E).
  apply bind_returns in E as (m2 & o2 & Hm2 & E).
  apply bind_returns in E as (m3 & o3 & Hm3 & E).
  apply bind_returns in E as (? & ? & (f & Hf & -> & ->)%read_field_returns & E).
  apply bind_returns in E as (? & ? & (ty & Hty & -> & ->)%read_field_returns & E).
  apply bind_returns in E as (? & ? & (tz & Htz & -> & ->)%read_field_returns & E).
  apply bind_returns in E as (? & ? & (t & Ht & -> & ->)%read_field_returns & E).
  apply bind_returns in E as (ms & o4 & Hms & E).
  injection E as <- <-.
  assert (Hname : Meeting.name m3 = Js.trim n ∧ Meeting.tags m3 = []).
  { apply handle_url_returns in Hm1. apply handle_phone_returns in Hm2.
    apply handle_email_returns in Hm3.
    destruct Hm1 as [->|(? & -> & _)], Hm2 as [->|(? & -> & _)],
      Hm3 as [->|(? & -> & _)]; done. }
  destruct Hname as [Hname Htags].
  exists n, no, u, f, ty, tz, t, m1, m2, m3, o1, o2, o3. eexists.
  split_and!; try done; simpl.
  all: match type of Hms with
       | context [push_time _ ?m _] =>
           replace m with
             (Meeting.set_search
                (Meeting.set_tags m3
                   (stringToTrimmedArray f (ch ",") ++ stringToTrimmedArray ty (ch ",")))
                (search_index (Js.trim n))) in Hms
             by (destruct m3; simpl in *; by subst)
       end.
  all: unfold row_records; destruct (0 <? _)%nat eqn:E0.
  all: try rewrite forEach_push_time in Hms.
  all: injection Hms as <- <-; try done.
  destruct (stringToTrimmedArray t _); [|done]. by rewrite app_nil_r.
Qed.
End body.

(** ** The whole run *)

Section whole.
Context `{Config} `{Host}.

Lemma sim_read_pair query pair :
  sim eq (read_pair query pair) (read_pair query pair).
Proof.
  unfold read_pair. destruct (Js.split _ pair) as [|key [|value rest]];
    try apply sim_throw.
  eapply (sim_bind eq); [|intros ? ? <-; by apply sim_ret].
  apply sim_mapThrow. intros x. unfold decode.
  destruct (decodeURIComponent x); [by apply sim_ret | apply sim_throw].
Qed.

Lemma sim_read_query location_search :
  sim eq (read_query location_search) (read_query location_search).
Proof.
  unfold read_query. destruct (1 <? _)%nat; [|by apply sim_ret].
  apply sim_forEach; [|done]. intros pair ? query ->. apply sim_read_pair.
Qed.

(** [load] returns exactly when the loop and the reading of the query
    string both return. *)
Lemma load_returns data location_search out out' st :
  load data location_search out = (out', inr st) ↔
  ∃ o vars query,
    load_entries 0 data no_locals out = (o, inr vars)
    ∧ read_query location_search o = (out', inr query)
    ∧ st = {| State.filters :=
                <[lit "days" := arrayToTagsArray days (preselection query (lit "days"))]>
                (<[lit "formats" := arrayToTagsArray (Js.sort (formats vars))
                                  (preselection query (lit "formats"))]>
                (<[lit "types" := arrayToTagsArray (Js.sort (types vars))
                                (preselection query (lit "types"))]> ∅));
              State.limit := meetingsPerPage;
              State.loading := false;
              State.meetings := meetings vars;
              State.search := [];
              State.timezone := moment_tz_guess |}.
Proof.
  unfold load, no_locals. rewrite bind_run. split.
  - destruct (load_entries _ _ _ _) as [o [e|vars]]; [done|].
    rewrite bind_run.
    destruct (read_query _ _) as [o' [e|query]] eqn:Hq; [done|].
    intros [= <- <-]. by exists o, vars, query.
  - intros (o & vars & query & -> & Hq & ->). by rewrite bind_run, Hq.
Qed.

(** The records of a feed are those of the rows before an entry, then
    those that the loop body pushes for the entry, then those of the rows
    after it. *)
Lemma load_row pre entry post location_search out out' st :
  load (pre ++ entry :: post) location_search out = (out', inr st) →
  ∃ o1 st1 o2 st2 o3 vars,
    load pre location_search out = (o1, inr st1)
    ∧ load post location_search out = (o2, inr st2)
    ∧ load_entry (length pre) entry no_locals out = (o3, inr vars)
    ∧ State.meetings st =
        State.meetings st1 ++ meetings vars ++ State.meetings st2.
Proof.
  intros (oa & va & query & Hl & Hq & ->)%load_returns.
  rewrite load_entries_app in Hl.
  apply bind_returns in Hl as (v1 & o1 & Hpre & Hl).
  cbn [load_entries] in Hl.
  apply bind_returns in Hl as (v2 & ob & Hentry & Hpost).
  destruct (sim_returns _ _ _ _ _ _ o1 (sim_read_query location_search) Hq)
    as (o1' & ? & Hq1 & <-).
  destruct (sim_returns _ _ _ _ _ _ out
              (sim_load_entry (0 + length pre) (length pre) entry v1 no_locals)
              Hentry) as (o3 & v & Hv & ms & Hms2 & Hms).
  destruct (sim_returns _ _ _ _ _ _ out
              (sim_load_entries (S (0 + length pre)) 0 post v2 no_locals)
              Hpost) as (o4 & v3 & Hv3 & ms' & Hms3 & Hms').
  destruct (sim_returns _ _ _ _ _ _ o4 (sim_read_query location_search) Hq)
    as (o4' & ? & Hq4 & <-).
  eexists o1', _, o4', _, o3, v. split_and!.
  - apply load_returns. by exists o1, v1, query.
  - apply load_returns. by exists o4, v3, query.
  - done.
  - simpl. rewrite Hms3, Hms2, Hms, Hms'. simpl. by rewrite app_assoc.
Qed.
End whole.

(** ** The records of a row *)

Section records.
Context `{Config} `{Host}.

Lemma row_records_same_but_time m timezone times :
  Forall (same_but_time m) (row_records m timezone times).
Proof.
  unfold row_records. destruct (0 <? _)%nat.
  - apply Forall_fmap, Forall_true. intros x. by repeat split.
  - repeat constructor.
Qed.

(** The records that [load] produces for a row are those of a meeting
    built from the row's fields, expanded over the row's times. *)
Lemma load_row_records pre entry post location_search out out' st :
  load (pre ++ entry :: post) location_search out = (out', inr st) →
  ∃ n f ty tz t m,
    gsx_name entry = Some n ∧ gsx_formats entry = Some f
    ∧ gsx_types entry = Some ty ∧ gsx_timezone entry = Some tz
    ∧ gsx_times entry = Some t
    ∧ Meeting.name m = Js.trim n
    ∧ Meeting.search m = search_index (Js.trim n)
    ∧ Meeting.tags m = stringToTrimmedArray f (ch ",") ++ stringToTrimmedArray ty (ch ",")
    ∧ Meeting.time m = None
    ∧ records_of_row pre entry post location_search out st
        (row_records m (Js.trim tz) (stringToTrimmedArray t (ch "010"))).
Proof.
  intros (o1 & st1 & o2 & st2 & o3 & vars & Hpre & Hpost & Hentry & Hst)%load_row.
  apply load_entry_returns in Hentry
    as (n & no & u & f & ty & tz & t & m1 & m2 & m3 & oa & ob & oc & m & Hn
        & _ & _ & Hf & Hty & Htz & Ht & Hm1 & Hm2 & Hm3 & -> & Hms & _).
  simpl in Hms. rewrite Hms in Hst.
  assert (Meeting.name m3 = Js.trim n ∧ Meeting.time m3 = None) as [Hname Htime].
  { apply handle_url_returns in Hm1. apply handle_phone_returns in Hm2.
    apply handle_email_returns in Hm3.
    destruct Hm1 as [->|(? & -> & _)], Hm2 as [->|(? & -> & _)],
      Hm3 as [->|(? & -> & _)]; done. }
  exists n, f, ty, tz, t,
    (Meeting.set_search
       (Meeting.set_tags m3
          (stringToTrimmedArray f (ch ",") ++ stringToTrimmedArray ty (ch ",")))
       (search_index (Js.trim n))).
  split_and!; try done.
  unfold records_of_row. by exists o1, st1, o2, st2.
Qed.
End records.

(** ** Rows, times and records *)

(** Evaluates a run of the sample loader that is named by an equation. *)
Ltac evaluated E :=
  vm_compute in E;
  first [ discriminate E | injection E as <- <- ].

Section expansion.
Context `{Config} `{Host}.

(** C1, as the code has it.  A row whose times field lists no expression
    yields exactly one record, without a time.  A row that lists
    expressions yields one record per expression that parses, hence none
    when every expression fails to parse. *)
Theorem row_without_times_is_ongoing
    pre entry post location_search out out' st tz t :
  load (pre ++ entry :: post) location_search out = (out', inr st) →
  gsx_timezone entry = Some tz →
  gsx_times entry = Some t →
  ∃ recs,
    records_of_row pre entry post location_search out st recs
    ∧ match stringToTrimmedArray t (ch "010") with
      | [] => ∃ m, recs = [m] ∧ Meeting.time m = None
      | times => length recs = length (moments (Js.trim tz) times)
      end.
Proof.
  intros (n & f & ty & tz' & t' & m & _ & _ & _ & Htz & Ht & _ & _ & _ & Hm & Hrecs)
    %load_row_records Htz' Ht'.
  rewrite Htz in Htz'. rewrite Ht in Ht'.
  injection Htz' as ->. injection Ht' as ->.
  exists (row_records m (Js.trim tz) (stringToTrimmedArray t (ch "010"))).
  split; [done|]. unfold row_records.
  destruct (stringToTrimmedArray t _) eqn:E; simpl.
  - by exists m.
  - by rewrite length_fmap.
Qed.

(** C2, as the code has it.  A row with [K >= 1] valid time expressions
    yields exactly [K] records.  They agree with one another on every
    field but [time], and the [k]-th holds the moment parsed from the
    [k]-th valid expression in the row's trimmed time zone.  Equal
    expressions give equal times. *)
Theorem row_with_times_expands
    pre entry post location_search out out' st tz t :
  load (pre ++ entry :: post) location_search out = (out', inr st) →
  gsx_timezone entry = Some tz →
  gsx_times entry = Some t →
  let valid :=
    List.filter isValid
      ((λ x, moment_tz x (lit "dddd h:mm a") (Js.trim tz))
         <$> stringToTrimmedArray t (ch "010")) in
  1 ≤ length valid →
  ∃ m recs,
    records_of_row pre entry post location_search out st recs
    ∧ length recs = length valid
    ∧ Forall (same_but_time m) recs
    ∧ Meeting.time <$> recs = Some <$> valid.
Proof.
  intros (n & f & ty & tz' & t' & m & _ & _ & _ & Htz & Ht & _ & _ & _ & Hm & Hrecs)
    %load_row_records Htz' Ht' valid Hvalid.
  rewrite Htz in Htz'. rewrite Ht in Ht'.
  injection Htz' as ->. injection Ht' as ->.
  exists m, (row_records m (Js.trim tz) (stringToTrimmedArray t (ch "010"))).
  split_and!; [done| | apply row_records_same_but_time |].
  - unfold row_records. destruct (stringToTrimmedArray t _) eqn:E.
    + simpl in Hvalid. lia.
    + simpl. by rewrite length_fmap.
  - unfold row_records. destruct (stringToTrimmedArray t _) eqn:E.
    + simpl in Hvalid. lia.
    + simpl. by rewrite <- list_fmap_compose.
Qed.

(** C7, as the code has it.  The tags of every record of a row are the
    row's format tokens followed by its type tokens: a token is a tag
    exactly when it is a format or a type token of the row, and it is
    listed once per occurrence. *)
Theorem row_tags_concatenate
    pre entry post location_search out out' st :
  load (pre ++ entry :: post) location_search out = (out', inr st) →
  ∃ f ty recs,
    gsx_formats entry = Some f ∧ gsx_types entry = Some ty
    ∧ records_of_row pre entry post location_search out st recs
    ∧ Forall
        (λ r, Meeting.tags r =
                stringToTrimmedArray f (ch ",") ++ stringToTrimmedArray ty (ch ",")
              ∧ ∀ x, x ∈ Meeting.tags r ↔
                     x ∈ stringToTrimmedArray f (ch ",")
                     ∨ x ∈ stringToTrimmedArray ty (ch ","))
        recs.
Proof.
  intros (n & f & ty & tz & t & m & _ & Hf & Hty & _ & _ & _ & _ & Htags & _ & Hrecs)
    %load_row_records.
  exists f, ty, (row_records m (Js.trim tz) (stringToTrimmedArray t (ch "010"))).
  split_and!; try done.
  eapply Forall_impl; [apply row_records_same_but_time|].
  intros r (_ & _ & _ & _ & _ & Hr). rewrite Hr, Htags.
  split; [done|]. intros x. apply elem_of_app.
Qed.
End expansion.

(** ** Returning and throwing *)

Section outcome.
Context `{Config} `{Host}.

Lemma handle_url_outcome i entry m out :
  match gsx_url entry with
  | Some _ => ∃ out' m', handle_url i entry m out = (out', inr m')
  | None => handle_url i entry m out = (out, inl TypeError)
  end.
Proof.
  unfold handle_url. rewrite bind_run.
  destruct (gsx_url entry) as [u|]; simpl; [|done].
  destruct (Js.truthy _); [|by eexists _, _].
  destruct (URL_hostname _); [|by eexists _, _].
  destruct (matching_services _); by eexists _, _.
Qed.

Lemma handle_phone_outcome i entry m out :
  match gsx_phone entry with
  | Some phone =>
      if negb (dials phone) || bool_decide (is_Some (gsx_accesscode entry))
      then ∃ out' m', handle_phone i entry m out = (out', inr m')
      else handle_phone i entry m out = (out, inl TypeError)
  | None => handle_phone i entry m out = (out, inl TypeError)
  end.
Proof.
  unfold handle_phone, dials. rewrite bind_run.
  destruct (gsx_phone entry) as [p|]; simpl; [|done].
  destruct (Js.truthy _); simpl; [|by eexists _, _].
  destruct (8 <? _)%nat; simpl; [|by eexists _, _].
  rewrite bind_run. destruct (gsx_accesscode entry) as [code|]; simpl; [|done].
  by eexists _, _.
Qed.

Lemma handle_email_outcome i entry m out :
  match gsx_email entry with
  | Some _ => ∃ out' m', handle_email i entry m out = (out', inr m')
  | None => handle_email i entry m out = (out, inl TypeError)
  end.
Proof.
  unfold handle_email. rewrite bind_run.
  destruct (gsx_email entry) as [e|]; simpl; [|done].
  destruct (Js.truthy _); [|by eexists _, _].
  destruct (validateEmail _); by eexists _, _.
Qed.

(** The loop body returns on a readable entry, and throws a [TypeError] on
    any other. *)
Lemma load_entry_outcome i entry vars out :
  if readable entry
  then ∃ out' vars', load_entry i entry vars out = (out', inr vars')
  else ∃ out', load_entry i entry vars out = (out', inl TypeError).
Proof.
  unfold load_entry, readable.
  destruct (gsx_name entry) as [n|]; [|by eexists]. rewrite bind_run. simpl.
  destruct (gsx_notes entry) as [no|]; [|by eexists]. rewrite bind_run. simpl.
  destruct (updated entry) as [u|]; [|by eexists]. rewrite bind_run. simpl.
  rewrite bind_run.
  match goal with |- context [handle_url i entry ?m out] =>
    pose proof (handle_url_outcome i entry m out) as Hu end.
  destruct (gsx_url entry); [|rewrite Hu; by eexists].
  destruct Hu as (o1 & m1 & ->). simpl. rewrite bind_run.
  pose proof (handle_phone_outcome i entry m1 o1) as Hp.
  destruct (gsx_phone entry) as [p|]; [|rewrite Hp; by eexists].
  destruct (negb (dials p) || _); [|rewrite Hp; by eexists].
  destruct Hp as (o2 & m2 & ->). simpl. rewrite bind_run.
  pose proof (handle_email_outcome i entry m2 o2) as He.
  destruct (gsx_email entry); [|rewrite He; by eexists].
  destruct He as (o3 & m3 & ->). simpl.
  destruct (gsx_formats entry) as [f|]; [|by eexists]. rewrite bind_run. simpl.
  destruct (gsx_types entry) as [ty|]; [|by eexists]. rewrite bind_run. simpl.
  destruct (gsx_timezone entry) as [tz|]; [|by eexists]. rewrite bind_run. simpl.
  destruct (gsx_times entry) as [t|]; [|by eexists]. rewrite bind_run. simpl.
  rewrite bind_run. destruct (0 <? _)%nat.
  - rewrite forEach_push_time. by eexists _, _.
  - by eexists _, _.
Qed.

Lemma load_entries_outcome i entries vars out :
  if forallb readable entries
  then ∃ out' vars', load_entries i entries vars out = (out', inr vars')
  else ∃ out', load_entries i entries vars out = (out', inl TypeError).
Proof.
  revert i vars out. induction entries as [|entry rest IH]; intros i vars out.
  - by eexists _, _.
  - cbn [forallb load_entries]. rewrite bind_run.
    pose proof (load_entry_outcome i entry vars out) as He.
    destruct (readable entry); simpl.
    + destruct He as (o & v & ->). apply IH.
    + destruct He as (o & ->). by eexists.
Qed.

Lemma mapThrow_decode_outcome items out :
  mapThrow decode items out =
    (out,
     if forallb (λ item, bool_decide (is_Some (decodeURIComponent item))) items
     then inr ((λ item, default [] (decodeURIComponent item)) <$> items)
     else inl URIError).
Proof.
  induction items as [|item items IH]; simpl; [done|].
  rewrite bind_run. unfold decode at 1.
  destruct (decodeURIComponent item) as [v|]; simpl; [|done].
  rewrite bind_run, IH. by destruct (forallb _ _).
Qed.

(** Reading a pair writes nothing.  It throws a [TypeError] when the pair
    holds no equals sign, a [URIError] when an item does not decode, and
    sets one property of the query object otherwise. *)
Lemma read_pair_outcome query pair out :
  read_pair query pair out =
    (out,
     match Js.split (ch "=") pair with
     | key :: value :: _ =>
         if forallb (λ item, bool_decide (is_Some (decodeURIComponent item)))
              (Js.split (ch ",") value)
         then inr (<[key :=
                      (λ item, default [] (decodeURIComponent item))
                        <$> Js.split (ch ",") value]> query)
         else inl URIError
     | _ => inl TypeError
     end).
Proof.
  unfold read_pair. destruct (Js.split (ch "=") pair) as [|key [|value rest]];
    [done..|].
  rewrite bind_run, mapThrow_decode_outcome. by destruct (forallb _ _).
Qed.

Lemma forEach_read_pair_outcome pairs query out :
  ∃ result,
    forEach read_pair pairs query out = (out, result)
    ∧ (forallb pair_parses pairs = true ↔ ∃ query', result = inr query').
Proof.
  revert query. induction pairs as [|pair pairs IH]; intros query.
  - eexists. split; [done|]. split; eauto.
  - cbn [forEach forallb]. rewrite bind_run, read_pair_outcome.
    unfold pair_parses at 1.
    destruct (Js.split (ch "=") pair) as [|key [|value rest]].
    + eexists. split; [done|]. split; [done|]. by intros [? ?].
    + eexists. split; [done|]. split; [done|]. by intros [? ?].
    + destruct (forallb _ (Js.split (ch ",") value)); simpl.
      * apply IH.
      * eexists. split; [done|]. split; [done|]. by intros [? ?].
Qed.

Lemma read_query_outcome location_search out :
  ∃ result,
    read_query location_search out = (out, result)
    ∧ (query_parses location_search = true ↔ ∃ query, result = inr query).
Proof.
  unfold read_query, query_parses. destruct (1 <? _)%nat.
  - apply forEach_read_pair_outcome.
  - eexists. split; [done|]. split; eauto.
Qed.

(** [load] throws a [TypeError] when a row is not readable.  On a feed of
    readable rows it returns exactly when the query string parses. *)
Lemma load_outcome data location_search out :
  if forallb readable data then
    if query_parses location_search
    then ∃ out' st, load data location_search out = (out', inr st)
    else ∃ out' e, load data location_search out = (out', inl e)
  else ∃ out', load data location_search out = (out', inl TypeError).
Proof.
  unfold load. rewrite bind_run.
  pose proof (load_entries_outcome 0 data no_locals out) as Hl.
  unfold no_locals in Hl. destruct (forallb readable data).
  - destruct Hl as (o & vars & ->). rewrite bind_run.
    destruct (read_query_outcome location_search o) as (result & -> & Hq).
    destruct (query_parses location_search).
    + destruct Hq as [Hq _]. destruct (Hq eq_refl) as [query ->].
      by eexists _, _.
    + destruct result as [e|query]; [by eexists _, _|].
      destruct Hq as [_ Hq]. by discriminate Hq; eexists.
  - destruct Hl as (o & ->). by eexists.
Qed.
End outcome.

(** ** Warnings *)

Section warnings.
Context `{Config} `{Host}.

Lemma writes_handle_url i entry m : writes (reports i entry) (handle_url i entry m).
Proof.
  unfold handle_url. apply writes_bind_result; [writes_auto|].
  intros ? out out' (u & Hu & -> & _)%read_field_returns.
  destruct (Js.truthy _) eqn:Ht; [|writes_auto].
  destruct (URL_hostname _) eqn:Hh; [destruct (matching_services _); writes_auto|].
  apply writes_bind; [|writes_auto]. apply writes_warn.
  exists (Js.trim u), (lit "URL"). split; [|done]. left. eauto 10.
Qed.

Lemma writes_handle_phone i entry m :
  writes (reports i entry) (handle_phone i entry m).
Proof.
  unfold handle_phone. apply writes_bind_result; [writes_auto|].
  intros ? out out' (p & Hp & -> & _)%read_field_returns.
  destruct (Js.truthy _) eqn:Ht; [|writes_auto].
  destruct (8 <? _)%nat eqn:Hd; [writes_auto|].
  apply writes_bind; [|writes_auto]. apply writes_warn.
  exists (Js.trim p), (lit "phone number"). split; [|done]. right; left.
  apply Nat.ltb_ge in Hd. eauto 10.
Qed.

Lemma writes_handle_email i entry m :
  writes (reports i entry) (handle_email i entry m).
Proof.
  unfold handle_email. apply writes_bind_result; [writes_auto|].
  intros ? out out' (e & He & -> & _)%read_field_returns.
  destruct (Js.truthy _) eqn:Ht; [|writes_auto].
  destruct (validateEmail _) eqn:Hv; [writes_auto|].
  apply writes_bind; [|writes_auto]. apply writes_warn.
  exists (Js.trim e), (lit "email address"). split; [|done]. right; right; left.
  eauto 10.
Qed.

Lemma writes_load_entry i entry vars :
  writes (reports i entry) (load_entry i entry vars).
Proof.
  unfold load_entry.
  do 3 (apply writes_bind; [writes_auto|intros ?]).
  apply writes_bind; [apply writes_handle_url|intros ?].
  apply writes_bind; [apply writes_handle_phone|intros ?].
  apply writes_bind; [apply writes_handle_email|intros ?].
  do 2 (apply writes_bind; [writes_auto|intros ?]).
  apply writes_bind_result; [writes_auto|].
  intros ? out out' (tz & Htz & -> & _)%read_field_returns.
  apply writes_bind_result; [writes_auto|].
  intros ? out1 out1' (t & Ht & -> & _)%read_field_returns.
  apply writes_bind; [|writes_auto].
  destruct (0 <? _)%nat; [|writes_auto].
  apply writes_forEach. intros ms x Hx. unfold push_time.
  destruct (isValid _) eqn:Hv; [writes_auto|].
  apply writes_bind; [|writes_auto]. apply writes_warn.
  exists x, (lit "time"). split; [|done]. right; right; right. eauto 10.
Qed.

Lemma writes_load_entries i entries vars :
  writes (λ line, ∃ k entry, entries !! k = Some entry ∧ reports (i + k) entry line)
    (load_entries i entries vars).
Proof.
  revert i vars. induction entries as [|entry rest IH]; intros i vars.
  - apply writes_ret.
  - cbn [load_entries]. apply writes_bind.
    + eapply writes_mono; [|apply writes_load_entry].
      intros line Hline. exists 0, entry. by rewrite Nat.add_0_r.
    + intros vars'. eapply writes_mono; [|apply IH].
      intros line (k & e & Hk & Hline). exists (S k), e.
      by rewrite Nat.add_succ_r.
Qed.

Lemma writes_read_query P location_search :
  writes P (read_query location_search).
Proof.
  unfold read_query. destruct (1 <? _)%nat; [|apply writes_ret].
  apply writes_forEach. intros query pair _. unfold read_pair.
  destruct (Js.split _ pair) as [|key [|value rest]]; try apply writes_throw.
  apply writes_bind; [|intros ?; apply writes_ret].
  apply writes_mapThrow. intros x. unfold decode.
  destruct (decodeURIComponent x); [apply writes_ret | apply writes_throw].
Qed.

(** C9, as the code has it.  Whether [load] returns or throws, every line
    on the console after it reports one field of one row of the feed that
    is not valid, in the form [Row n: “value” is not a valid kind.], the
    value standing between typographic double quotes and [n] being the
    index of the row plus 2. *)
Theorem warning_lines data location_search out result :
  load data location_search [] = (out, result) →
  Forall
    (λ line,
       ∃ i entry value kind,
         data !! i = Some entry
         ∧ malformed entry value kind
         ∧ line = lit "Row " ++ utf16 (pretty (i + 2)) ++ lit ": “" ++ value
                  ++ lit "” is not a valid " ++ kind ++ lit ".")
    out.
Proof.
  intros E.
  assert (Hw : writes (λ line, ∃ k entry,
                         data !! k = Some entry ∧ reports (0 + k) entry line)
                 (load data location_search)).
  { unfold load. apply writes_bind; [apply writes_load_entries|].
    intros vars. apply writes_bind; [apply writes_read_query|].
    intros query. apply writes_ret. }
  apply Hw in E as (w & -> & Hall). simpl.
  eapply Forall_impl; [exact Hall|].
  intros line (k & entry & Hk & value & kind & Hm & ->). by exists k, entry, value, kind.
Qed.

(** The console after [load] holds what the loop has written up to and
    including a row, followed by what it writes for the rows after it. *)
Lemma load_row_console pre entry post location_search out out' st :
  load (pre ++ entry :: post) location_search out = (out', inr st) →
  ∃ o1 v1 o2 v2 w,
    load_entries 0 pre no_locals out = (o1, inr v1)
    ∧ load_entry (length pre) entry v1 o1 = (o2, inr v2)
    ∧ out' = o2 ++ w.
Proof.
  intros (oa & va & query & Hl & Hq & _)%load_returns.
  rewrite load_entries_app in Hl.
  apply bind_returns in Hl as (v1 & o1 & Hpre & Hl).
  cbn [load_entries] in Hl.
  apply bind_returns in Hl as (v2 & o2 & Hentry & Hpost).
  apply writes_load_entries in Hpost as (w & -> & _).
  destruct (read_query_outcome location_search (o2 ++ w)) as (r & Hq' & _).
  rewrite Hq in Hq'. injection Hq' as -> _.
  by exists o1, v1, o2, v2, w.
Qed.
End warnings.

(** ** Buttons *)

Lemma filter_first {A : Type} (f : A → bool) (l : list A) :
  match List.filter f l with
  | x :: _ =>
      ∃ before after,
        l = before ++ x :: after ∧ f x = true
        ∧ Forall (λ y, f y = false) before
  | [] => Forall (λ y, f y = false) l
  end.
Proof.
  induction l as [|y l IH]; simpl; [constructor|].
  destruct (f y) eqn:Hy.
  - by exists [], l.
  - destruct (List.filter f l) as [|x xs].
    + by constructor.
    + destruct IH as (before & after & -> & Hx & Hb).
      exists (y :: before), after. split_and!; [done..|by constructor].
Qed.

(** No icon of one list is in the other. *)
Ltac icons_apart :=
  intros []; rewrite !elem_of_cons, !elem_of_nil; intuition discriminate.

Section buttons.
Context `{Config} `{Host}.

Lemma serves_spec service host :
  (0 <? length (List.filter (λ domain, Js.endsWith host domain)
                            (service_domains service)))%nat = true
  ↔ serves service host.
Proof.
  rewrite Nat.ltb_lt. unfold serves. split.
  - destruct (List.filter _ _) as [|d ds] eqn:E; simpl; [lia|]. intros _.
    assert (Hd : In d (List.filter (λ domain, Js.endsWith host domain)
                          (service_domains service))) by (rewrite E; by left).
    apply filter_In in Hd as [Hd [p Hp]%endsWith_spec].
    exists d, p. split; [by apply list_elem_of_In | done].
  - intros (d & p & Hd & Hp).
    assert (Hin : In d (List.filter (λ domain, Js.endsWith host domain)
                          (service_domains service))).
    { apply filter_In. split; [by apply list_elem_of_In|].
      apply endsWith_spec. eauto. }
    destruct (List.filter _ _); [done | simpl; lia].
Qed.

(** The first service in the order of the table whose domains the host
    name ends with, if there is one. *)
Lemma matching_services_first host :
  match matching_services host with
  | service :: _ =>
      ∃ before after,
        service_names = before ++ service :: after
        ∧ serves service host
        ∧ Forall (λ s, ¬ serves s host) before
  | [] => Forall (λ s, ¬ serves s host) service_names
  end.
Proof.
  unfold matching_services.
  pose proof (filter_first
    (λ service,
       (0 <? length (List.filter (λ domain, Js.endsWith host domain)
                                 (service_domains service)))%nat)
    service_names) as Hf.
  destruct (List.filter _ service_names) as [|service rest].
  - eapply Forall_impl; [exact Hf|]. intros s Hs Hserves.
    apply serves_spec in Hserves. simpl in Hs. congruence.
  - destruct Hf as (before & after & E & Hs & Hb).
    exists before, after. split_and!; [done | by apply serves_spec |].
    eapply Forall_impl; [exact Hb|]. intros s Hs' Hserves.
    apply serves_spec in Hserves. simpl in Hs'. congruence.
Qed.

Lemma handle_url_run i entry (m : Meeting.t) out u host :
  gsx_url entry = Some u →
  Js.truthy (Js.trim u) = true →
  URL_hostname (Js.trim u) = Some host →
  handle_url i entry m out =
    (out,
     inr (Meeting.push_button m
            match matching_services host with
            | first :: _ => url_button Icon.video first (Js.trim u)
            | [] =>
                url_button Icon.link (Js.replace (lit "www.") [] host)
                  (Js.trim u)
            end)).
Proof.
  intros Hu Ht Hh. unfold handle_url. rewrite Hu, bind_run. simpl.
  rewrite Ht, Hh. by destruct (matching_services host).
Qed.

Lemma handle_phone_run i entry (m : Meeting.t) out p :
  gsx_phone entry = Some p →
  Js.truthy (Js.trim p) = true →
  handle_phone i entry m out =
    let digits := Js.strip_non_digits (Js.trim p) in
    if (8 <? length digits)%nat then
      match gsx_accesscode entry with
      | Some code =>
          (out,
           inr (Meeting.push_button m
                  (phone_button
                     (if Js.truthy (Js.trim code)
                      then digits ++ lit ",," ++ Js.trim code else digits))))
      | None => (out, inl TypeError)
      end
    else (out ++ [warning i (Js.trim p) (lit "phone number")], inr m).
Proof.
  intros Hp Ht. unfold handle_phone. rewrite Hp, bind_run. simpl.
  rewrite Ht. destruct (8 <? _)%nat; [|done].
  rewrite bind_run. destruct (gsx_accesscode entry) as [code|]; [|done].
  simpl. by destruct (Js.trim code).
Qed.

Lemma buttons_with_push icons (m : Meeting.t) b :
  buttons_with icons (Meeting.push_button m b) =
    buttons_with icons m
    ++ (if bool_decide (Button.icon b ∈ icons) then [b] else []).
Proof.
  unfold buttons_with. simpl. rewrite List.filter_app. simpl.
  by destruct (bool_decide _).
Qed.

Lemma buttons_with_one_more icons icons' (m m' : Meeting.t) :
  one_more icons' m m' →
  (∀ x, x ∈ icons' → x ∉ icons) →
  buttons_with icons m' = buttons_with icons m.
Proof.
  intros [->|(b & -> & Hb)] Hdisj; [done|].
  rewrite buttons_with_push, bool_decide_false by auto.
  apply app_nil_r.
Qed.

(** The buttons of the records of a row are those that the three handlers
    push, one after the other, on a meeting without buttons. *)
Lemma load_row_buttons pre entry post location_search out out' st :
  load (pre ++ entry :: post) location_search out = (out', inr st) →
  ∃ n no u m1 m2 m3 o1 o2 o3 recs,
    handle_url (length pre) entry (new_meeting n no u) out = (o1, inr m1)
    ∧ handle_phone (length pre) entry m1 o1 = (o2, inr m2)
    ∧ handle_email (length pre) entry m2 o2 = (o3, inr m3)
    ∧ records_of_row pre entry post location_search out st recs
    ∧ Forall (λ r, Meeting.buttons r = Meeting.buttons m3) recs.
Proof.
  intros (o1 & st1 & o2 & st2 & o3 & vars & Hpre & Hpost & Hentry & Hst)%load_row.
  apply load_entry_returns in Hentry
    as (n & no & u & f & ty & tz & t & m1 & m2 & m3 & oa & ob & oc & m & _
        & _ & _ & _ & _ & _ & _ & Hm1 & Hm2 & Hm3 & -> & Hms & _).
  simpl in Hms. rewrite Hms in Hst.
  eexists n, no, u, m1, m2, m3, oa, ob, oc, _. split_and!; [done..| |].
  - unfold records_of_row. by exists o1, st1, o2, st2.
  - eapply Forall_impl; [apply row_records_same_but_time|].
    by intros r (_ & -> & _).
Qed.

(** C5.  A row with a phone value that is not empty once trimmed: when at
    most 8 digits remain of it, the handler pushes no button and writes
    exactly one warning, and no record of the row has a phone button; when
    more than 8 digits remain, the handler pushes exactly one button and
    writes nothing, and every record of the row has exactly one phone
    button, which dials the digits, followed by two commas and the access
    code when the trimmed access code is not empty. *)
Theorem phone_button_or_warning
    pre entry post location_search out out' st p :
  load (pre ++ entry :: post) location_search out = (out', inr st) →
  gsx_phone entry = Some p →
  Js.truthy (Js.trim p) = true →
  let digits := Js.strip_non_digits (Js.trim p) in
  let code := default [] (Js.trim <$> gsx_accesscode entry) in
  let target := if Js.truthy code then digits ++ lit ",," ++ code else digits in
  ∃ recs,
    records_of_row pre entry post location_search out st recs
    ∧ if (8 <? length digits)%nat then
        (∀ m o, handle_phone (length pre) entry m o =
                  (o, inr (Meeting.push_button m (phone_button target))))
        ∧ Forall (λ r, buttons_with [Icon.phone] r = [phone_button target]) recs
      else
        (∀ m o, handle_phone (length pre) entry m o =
                  (o ++ [warning (length pre) (Js.trim p) (lit "phone number")], inr m))
        ∧ Forall (λ r, buttons_with [Icon.phone] r = []) recs
        ∧ ∃ w1 w2,
            out' = w1 ++ warning (length pre) (Js.trim p) (lit "phone number") :: w2.
Proof.
  intros Hload. pose proof Hload as Hconsole. revert Hload.
  intros (n & no & u & m1 & m2 & m3 & o1 & o2 & o3 & recs & Hm1 & Hm2 & Hm3
          & Hrecs & Hbuttons)%load_row_buttons Hp Ht digits code target.
  exists recs. split; [done|].
  apply handle_url_returns in Hm1. apply handle_email_returns in Hm3.
  assert (Hurl : buttons_with [Icon.phone] m1 = []).
  { by rewrite (buttons_with_one_more _ _ _ _ Hm1) by icons_apart. }
  assert (Hmail : buttons_with [Icon.phone] m3 = buttons_with [Icon.phone] m2).
  { eapply buttons_with_one_more; [exact Hm3 | icons_apart]. }
  assert (Hrun := λ m o, handle_phone_run (length pre) entry m o p Hp Ht).
  cbv zeta in Hrun. fold digits in Hrun. rewrite Hrun in Hm2.
  destruct (8 <? length digits)%nat.
  - destruct (gsx_accesscode entry) as [ac|]; [|done].
    injection Hm2 as <- <-. split.
    + intros m o. by rewrite Hrun.
    + eapply Forall_impl; [exact Hbuttons|]. intros r Hr.
      transitivity (buttons_with [Icon.phone] m3);
        [unfold buttons_with; by rewrite Hr|].
      by rewrite Hmail, buttons_with_push, Hurl.
  - injection Hm2 as <- <-. split_and!.
    + intros m o. by rewrite Hrun.
    + eapply Forall_impl; [exact Hbuttons|]. intros r Hr.
      unfold buttons_with in *. by rewrite Hr, Hmail.
    + apply load_row_console in Hconsole
        as (c1 & v1 & c2 & v2 & w & _ & Hentry & ->).
      apply load_entry_returns in Hentry
        as (? & ? & ? & ? & ? & ? & ? & a1 & a2 & a3 & ca & cb & cc & ? & _
            & _ & _ & _ & _ & _ & _ & _ & Ha2 & Ha3 & _ & _ & _ & _ & ->).
      rewrite Hrun in Ha2. injection Ha2 as <- _.
      apply writes_handle_email in Ha3 as (we & -> & _).
      eexists ca, _. rewrite <- !app_assoc. simpl. reflexivity.
Qed.

(** C6, as the code has it.  A row with a URL that is not empty once
    trimmed and that parses: every record of the row has exactly one link or
    video button.  If the host name ends with a domain of some service, the
    first such service in the order of the table gives the label, and the
    icon is the video one.  Otherwise the icon is the link one and the label
    is the host name without its first occurrence of [www.], wherever that
    occurrence is. *)
Theorem url_button_label
    pre entry post location_search out out' st u host :
  load (pre ++ entry :: post) location_search out = (out', inr st) →
  gsx_url entry = Some u →
  Js.truthy (Js.trim u) = true →
  URL_hostname (Js.trim u) = Some host →
  ∃ recs icon label,
    records_of_row pre entry post location_search out st recs
    ∧ (∀ m o, handle_url (length pre) entry m o =
                (o, inr (Meeting.push_button m
                           (url_button icon label (Js.trim u)))))
    ∧ Forall (λ r, buttons_with [Icon.link; Icon.video] r =
                     [url_button icon label (Js.trim u)]) recs
    ∧ ((∃ before after,
          service_names = before ++ label :: after
          ∧ serves label host
          ∧ Forall (λ s, ¬ serves s host) before
          ∧ icon = Icon.video)
       ∨ (Forall (λ s, ¬ serves s host) service_names
          ∧ icon = Icon.link
          ∧ label = Js.replace (lit "www.") [] host
          ∧ (∀ rest, host = lit "www." ++ rest → label = rest)
          ∧ (∀ a b, first_occurrence (lit "www.") a b host → label = a ++ b)
          ∧ ((∀ a b, host ≠ a ++ lit "www." ++ b) → label = host))).
Proof.
  intros (n & no & u' & m1 & m2 & m3 & o1 & o2 & o3 & recs & Hm1 & Hm2 & Hm3
          & Hrecs & Hbuttons)%load_row_buttons Hu Ht Hh.
  assert (Hrun := λ m o, handle_url_run (length pre) entry m o u host Hu Ht Hh).
  rewrite Hrun in Hm1. injection Hm1 as <- <-.
  apply handle_phone_returns in Hm2. apply handle_email_returns in Hm3.
  pose proof (matching_services_first host) as Hfirst.
  set (b := match matching_services host with
            | first :: _ => url_button Icon.video first (Js.trim u)
            | [] => url_button Icon.link (Js.replace (lit "www.") [] host)
                      (Js.trim u)
            end) in *.
  assert (Hall : Forall (λ r, buttons_with [Icon.link; Icon.video] r =
                   if bool_decide (Button.icon b ∈ [Icon.link; Icon.video])
                   then [b] else []) recs).
  { eapply Forall_impl; [exact Hbuttons|]. intros r Hr.
    unfold buttons_with at 1. rewrite Hr.
    fold (buttons_with [Icon.link; Icon.video] m3).
    rewrite (buttons_with_one_more _ _ _ _ Hm3) by icons_apart.
    rewrite (buttons_with_one_more _ _ _ _ Hm2) by icons_apart.
    by rewrite buttons_with_push. }
  subst b. destruct (matching_services host) as [|first rest].
  - exists recs, Icon.link, (Js.replace (lit "www.") [] host).
    split_and!; [done..|]. right. split_and!; try done.
    + intros rest' ->. apply (replace_first_occurrence _ []); [done|].
      intros a' b' _. simpl. lia.
    + intros a b [E Hmin]. by apply replace_first_occurrence.
    + apply replace_absent.
  - destruct Hfirst as (before & after & E & Hs & Hb).
    exists recs, Icon.video, first. split_and!; [done..|]. left.
    by exists before, after.
Qed.
End buttons.

(** ** The query string *)

Lemma forEach_app {A S : Type} (f : S → A → M S) (l1 l2 : list A) s out :
  forEach f (l1 ++ l2) s out = (forEach f l1 s ≫= forEach f l2) out.
Proof.
  revert s out. induction l1 as [|x l1 IH]; intros s out; [done|].
  cbn [app forEach]. rewrite !bind_run.
  destruct (f s x out) as [o [e|s']]; [done|]. by rewrite IH, bind_run.
Qed.

Section totality.
Context `{Config} `{Host}.

(** One more pair at the end of a query string that parses sets one more
    property of the query object. *)
Lemma read_query_append location_search pair key value rest out query :
  1 < length location_search →
  read_query location_search out = (out, inr query) →
  all_chars (λ c, negb (N.eqb c (ch "&"))) pair = true →
  Js.split (ch "=") pair = key :: value :: rest →
  pair_parses pair = true →
  ∃ values,
    read_query (location_search ++ lit "&" ++ pair) out
    = (out, inr (<[key := values]> query)).
Proof.
  intros Hlen Hq Hpair Hsplit Hparses. unfold read_query in *.
  assert (Hlen' : (1 <? length location_search)%nat = true)
    by by apply Nat.ltb_lt.
  rewrite Hlen' in Hq.
  assert ((1 <? length (location_search ++ lit "&" ++ pair))%nat = true)
    as ->.
  { apply Nat.ltb_lt. rewrite length_app. lia. }
  assert (Js.substr1 (location_search ++ lit "&" ++ pair)
          = Js.substr1 location_search ++ (ch "&" :: pair)) as ->.
  { destruct location_search; [simpl in Hlen; lia | done]. }
  rewrite split_append, (split_without_separator _ pair Hpair).
  rewrite forEach_app, bind_run, Hq. cbn [forEach]. rewrite bind_run.
  rewrite read_pair_outcome, Hsplit.
  unfold pair_parses in Hparses. rewrite Hsplit in Hparses. rewrite Hparses.
  by eexists.
Qed.

(** A pair without equals sign does not parse: reading it throws a
    [TypeError]. *)
Lemma pair_without_equals query pair out :
  all_chars (λ c, negb (N.eqb c (ch "="))) pair = true →
  pair_parses pair = false
  ∧ read_pair query pair out = (out, inl TypeError).
Proof.
  intros Hpair. rewrite read_pair_outcome. unfold pair_parses.
  by rewrite (split_without_separator _ pair Hpair).
Qed.

(** C3, as the code has it.  Values that are not valid are never fatal:
    on a feed of readable rows and a query string that parses, [load]
    returns a state.  A row with a field missing is fatal for the whole
    run: [load] throws a [TypeError], and there is no state. *)
Theorem missing_field_aborts data location_search out :
  query_parses location_search = true →
  if forallb readable data
  then ∃ out' st, load data location_search out = (out', inr st)
  else ∃ out', load data location_search out = (out', inl TypeError).
Proof.
  intros Hq. pose proof (load_outcome data location_search out) as Hl.
  by rewrite Hq in Hl.
Qed.

(** C10, as the code has it.  On a feed of readable rows, [load] returns
    exactly when every pair of the query string holds an equals sign and
    every item of its value decodes; it throws otherwise, as for a pair
    without equals sign.  A pair with an empty value is read as the list of
    one empty item.  One more pair whose key is none of [days], [formats]
    and [types] leaves the returned state as it is. *)
Theorem query_string_pairs data location_search out :
  forallb readable data = true →
  (if query_parses location_search
   then ∃ out' st, load data location_search out = (out', inr st)
   else ∃ out' e, load data location_search out = (out', inl e))
  ∧ ∀ pair key value rest out' st,
      1 < length location_search →
      load data location_search out = (out', inr st) →
      all_chars (λ c, negb (N.eqb c (ch "&"))) pair = true →
      Js.split (ch "=") pair = key :: value :: rest →
      key ∉ [lit "days"; lit "formats"; lit "types"] →
      pair_parses pair = true →
      ∃ out'',
        load data (location_search ++ lit "&" ++ pair) out = (out'', inr st).
Proof.
  intros Hdata. split.
  - pose proof (load_outcome data location_search out) as Hl.
    by rewrite Hdata in Hl.
  - intros pair key value rest out' st Hlen Hload Hpair Hsplit Hkey Hparses.
    apply load_returns in Hload as (o & vars & query & Hl & Hq & ->).
    destruct (read_query_outcome location_search o) as (result & Hq' & _).
    rewrite Hq in Hq'. injection Hq' as <- <-.
    destruct (read_query_append _ _ _ _ _ _ _ Hlen Hq Hpair Hsplit Hparses)
      as [values Hq'].
    exists out'. apply load_returns. exists out', vars, (<[key := values]> query).
    split_and!; [done..|].
    unfold preselection. rewrite !lookup_insert_ne; [done|..];
      intros ->; apply Hkey; set_solver.
Qed.
End totality.

(** ** Vocabularies *)

Lemma includes_spec (a : list jstring) (x : jstring) :
  Js.includes a x = true ↔ x ∈ a.
Proof.
  unfold Js.includes. rewrite existsb_exists, list_elem_of_In. split.
  - by intros (y & Hy & ->%bool_decide_eq_true).
  - intros Hx. exists x. by rewrite bool_decide_eq_true.
Qed.

Lemma push_new_NoDup vocabulary token :
  NoDup vocabulary → NoDup (push_new vocabulary token).
Proof.
  intros Hv. unfold push_new.
  destruct (Js.includes vocabulary token) eqn:E; [done|].
  apply NoDup_app. split_and!; [done| |apply NoDup_singleton].
  intros x Hx ->%list_elem_of_singleton.
  apply includes_spec in Hx. congruence.
Qed.

Lemma elem_of_push_new vocabulary token x :
  x ∈ push_new vocabulary token ↔ x ∈ vocabulary ∨ x = token.
Proof.
  unfold push_new. destruct (Js.includes vocabulary token) eqn:E.
  - apply includes_spec in E. split; [by left|]. by intros [?| ->].
  - by rewrite elem_of_app, list_elem_of_singleton.
Qed.

Lemma fold_push_new_NoDup tokens vocabulary :
  NoDup vocabulary → NoDup (fold_left push_new tokens vocabulary).
Proof.
  revert vocabulary. induction tokens as [|t tokens IH]; intros v Hv; [done|].
  simpl. by apply IH, push_new_NoDup.
Qed.

Lemma elem_of_fold_push_new tokens vocabulary x :
  x ∈ fold_left push_new tokens vocabulary ↔ x ∈ vocabulary ∨ x ∈ tokens.
Proof.
  revert vocabulary. induction tokens as [|t tokens IH]; intros v; simpl.
  - rewrite elem_of_nil. tauto.
  - rewrite IH, elem_of_push_new, elem_of_cons. tauto.
Qed.

Lemma sort_NoDup (a : list jstring) : NoDup a → NoDup (Js.sort a).
Proof.
  intros Ha. unfold Js.sort. by rewrite merge_sort_Permutation.
Qed.

(** The order of the code units is total and transitive. *)
Lemma leb_total (a b : jstring) : Js.leb a b = true ∨ Js.leb b a = true.
Proof.
  revert b. induction a as [|x a IH]; intros [|y b]; simpl; auto.
  destruct (N.lt_trichotomy x y) as [Hlt|[->|Hlt]].
  - left. apply N.ltb_lt in Hlt. by rewrite Hlt.
  - rewrite N.ltb_irrefl, N.eqb_refl. simpl. apply IH.
  - right. apply N.ltb_lt in Hlt. by rewrite Hlt.
Qed.

Lemma leb_trans (a b c : jstring) :
  Js.leb a b = true → Js.leb b c = true → Js.leb a c = true.
Proof.
  revert b c. induction a as [|x a IH]; intros [|y b] [|z c]; simpl; try done.
  rewrite !orb_true_iff, !andb_true_iff, !N.ltb_lt, !N.eqb_eq.
  intros [Hxy|[-> Hab]] [Hyz|[-> Hbc]]; [left; lia | by left..|].
  right. split; [done|]. by apply (IH b).
Qed.

Lemma leb_antisym (a b : jstring) :
  Js.leb a b = true → Js.leb b a = true → a = b.
Proof.
  revert b. induction a as [|x a IH]; intros [|y b]; simpl; try done.
  rewrite !orb_true_iff, !andb_true_iff, !N.ltb_lt, !N.eqb_eq.
  intros [Hxy|[-> Hab]] [Hyx|[Hyx Hba]]; try lia. f_equal. by apply IH.
Qed.

#[local] Instance le_total : Total Js.le.
Proof. intros a b. apply leb_total. Qed.

#[local] Instance le_trans : Transitive Js.le.
Proof. intros a b c. apply leb_trans. Qed.

Lemma sort_sorted (a : list jstring) : StronglySorted Js.le (Js.sort a).
Proof. apply StronglySorted_merge_sort; apply _. Qed.

Lemma elem_of_sort (a : list jstring) x : x ∈ Js.sort a ↔ x ∈ a.
Proof. unfold Js.sort. by rewrite merge_sort_Permutation. Qed.

Lemma arrayToTagsArray_tags array values :
  Tag.tag <$> arrayToTagsArray array values = array.
Proof.
  unfold arrayToTagsArray.
  induction array as [|x array IH]; [done|]. simpl. f_equal. exact IH.
Qed.

Lemma arrayToTagsArray_vocabulary array values :
  NoDup array →
  vocabulary (arrayToTagsArray (Js.sort array) values) values.
Proof.
  intros Ha. unfold vocabulary. rewrite arrayToTagsArray_tags.
  split_and!; [by apply sort_NoDup | apply sort_sorted |].
  intros t (x & -> & _)%list_elem_of_fmap. simpl. apply includes_spec.
Qed.

Section vocabularies.
Context `{Config} `{Host}.

(** The tokens that the loop collects: no token twice, and exactly the
    format and type tokens of the entries walked so far. *)
Lemma load_entries_vocabularies i entries vars out out' vars' :
  load_entries i entries vars out = (out', inr vars') →
  (NoDup (formats vars) → NoDup (formats vars'))
  ∧ (NoDup (types vars) → NoDup (types vars'))
  ∧ (∀ x, x ∈ formats vars' ↔
          x ∈ formats vars
          ∨ ∃ entry f, entry ∈ entries ∧ gsx_formats entry = Some f
                       ∧ x ∈ stringToTrimmedArray f (ch ","))
  ∧ (∀ x, x ∈ types vars' ↔
          x ∈ types vars
          ∨ ∃ entry ty, entry ∈ entries ∧ gsx_types entry = Some ty
                        ∧ x ∈ stringToTrimmedArray ty (ch ",")).
Proof.
  revert i vars out. induction entries as [|entry rest IH]; intros i vars out.
  - intros [= <- <-]. split_and!; [done..| |].
    + intros x. split; [by left|]. intros [?|(? & ? & []%elem_of_nil & _)]. done.
    + intros x. split; [by left|]. intros [?|(? & ? & []%elem_of_nil & _)]. done.
  - cbn [load_entries]. intros (v & o & Hentry & Hrest)%bind_returns.
    apply IH in Hrest as (Hf & Ht & Hfx & Htx).
    apply load_entry_returns in Hentry
      as (n & no & u & f & ty & tz & t & m1 & m2 & m3 & oa & ob & oc & m & _
          & _ & _ & Hgf & Hgt & _ & _ & _ & _ & _ & _ & _ & Hvf & Hvt & _).
    split_and!.
    + intros Hnd. apply Hf. rewrite Hvf. by apply fold_push_new_NoDup.
    + intros Hnd. apply Ht. rewrite Hvt. by apply fold_push_new_NoDup.
    + intros x. rewrite Hfx, Hvf, elem_of_fold_push_new. split.
      * intros [[?|Hx]|(e & f' & He & Hf' & Hx)]; [by left|right..].
        -- exists entry, f. split_and!; [left|done..].
        -- exists e, f'. split_and!; [by right|done..].
      * intros [?|(e & f' & [->|He]%elem_of_cons & Hf' & Hx)].
        -- by left; left.
        -- left; right. congruence.
        -- right. by exists e, f'.
    + intros x. rewrite Htx, Hvt, elem_of_fold_push_new. split.
      * intros [[?|Hx]|(e & f' & He & Hf' & Hx)]; [by left|right..].
        -- exists entry, ty. split_and!; [left|done..].
        -- exists e, f'. split_and!; [by right|done..].
      * intros [?|(e & f' & [->|He]%elem_of_cons & Hf' & Hx)].
        -- by left; left.
        -- left; right. congruence.
        -- right. by exists e, f'.
Qed.

(** C4.  In the state that [load] returns, the [formats] and the [types]
    vocabularies hold no tag twice, they are sorted in ascending order of
    the bytes of the tags, and a tag is checked exactly when the query
    object lists it under the name of the vocabulary.  The tags are the
    format tokens, and the type tokens, of the rows of the feed. *)
Theorem vocabularies_sorted_checked data location_search out out' st :
  load data location_search out = (out', inr st) →
  ∃ query fs ts,
    read_query location_search out = (out, inr query)
    ∧ State.filters st !! (lit "formats") = Some fs
    ∧ State.filters st !! (lit "types") = Some ts
    ∧ vocabulary fs (preselection query (lit "formats"))
    ∧ vocabulary ts (preselection query (lit "types"))
    ∧ (∀ x, x ∈ Tag.tag <$> fs ↔
            ∃ entry f, entry ∈ data ∧ gsx_formats entry = Some f
                       ∧ x ∈ stringToTrimmedArray f (ch ","))
    ∧ (∀ x, x ∈ Tag.tag <$> ts ↔
            ∃ entry ty, entry ∈ data ∧ gsx_types entry = Some ty
                        ∧ x ∈ stringToTrimmedArray ty (ch ",")).
Proof.
  intros (o & vars & query & Hl & Hq & ->)%load_returns.
  apply load_entries_vocabularies in Hl as (Hf & Ht & Hfx & Htx).
  simpl in Hf, Ht, Hfx, Htx.
  destruct (read_query_outcome location_search out) as (r & Hq' & _).
  destruct (read_query_outcome location_search o) as (r' & Hq'' & _).
  rewrite Hq in Hq''. injection Hq'' as _ <-.
  assert (r = inr query) as ->.
  { pose proof (sim_read_query location_search o out) as Hs.
    rewrite Hq, Hq' in Hs. simpl in Hs. by destruct r as [e|q]; [|subst]. }
  exists query, (arrayToTagsArray (Js.sort (formats vars)) (preselection query (lit "formats"))),
    (arrayToTagsArray (Js.sort (types vars)) (preselection query (lit "types"))).
  split_and!; [done | done | done | | | |].
  - apply arrayToTagsArray_vocabulary, Hf, NoDup_nil_2.
  - apply arrayToTagsArray_vocabulary, Ht, NoDup_nil_2.
  - intros x. rewrite arrayToTagsArray_tags, elem_of_sort, Hfx, elem_of_nil.
    tauto.
  - intros x. rewrite arrayToTagsArray_tags, elem_of_sort, Htx, elem_of_nil.
    tauto.
Qed.
End vocabularies.

Section search.
Context `{Config} `{Host}.

(** The two readings of the search index agree on a name whose only white
    space, once in lower case, is the space character. *)
Lemma search_index_spec_agrees (name : jstring) :
  all_chars (λ c, negb (Js.is_white_space c) || N.eqb c (ch " "))
    (toLowerCase name) = true →
  search_index_spec name = search_index name.
Proof.
  intros Hname. unfold search_index_spec, search_index, collapse_spaces.
  by rewrite split_white_space_spaces.
Qed.

(** The search index is in lower case. *)
Lemma search_index_lower name :
  lowers_words → toLowerCase (search_index name) = search_index name.
Proof.
  intros (Hnil & Hidem & Hsplit). unfold search_index.
  destruct (split_collapse_spaces (toLowerCase name)) as [E|E];
    [by rewrite E|].
  rewrite <- (join_split (ch " ")
                (toLowerCase (collapse_spaces (toLowerCase name)))).
  rewrite Hsplit, E, Hsplit. unfold collapse_spaces. rewrite Hsplit.
  f_equal. induction (Js.split (ch " ") name) as [|q qs IH]; [done|].
  cbn [fmap list_fmap List.filter].
  destruct (Js.truthy (toLowerCase q)); [|exact IH].
  cbn [fmap list_fmap]. rewrite Hidem. f_equal. exact IH.
Qed.

(** C8, as the code has it.  The search string of every record of a row is
    the trimmed name in lower case, split on the space character, without
    its empty tokens, joined by single spaces.  Consequently no space in it
    follows a space, and it neither starts nor ends with a space; and it is
    its own lower case, for a lower-casing that leaves a text in lower case
    as it is and lowers the words between spaces one by one. *)
Theorem search_index_normalised
    pre entry post location_search out out' st :
  load (pre ++ entry :: post) location_search out = (out', inr st) →
  ∃ n recs,
    gsx_name entry = Some n
    ∧ records_of_row pre entry post location_search out st recs
    ∧ Forall
        (λ r, Meeting.name r = Js.trim n
              ∧ Meeting.search r =
                  Js.join (lit " ")
                    (List.filter Js.truthy
                       (Js.split (ch " ") (toLowerCase (Meeting.name r))))
              ∧ (∀ a b, Meeting.search r ≠ a ++ lit "  " ++ b)
              ∧ (∀ a, Meeting.search r ≠ lit " " ++ a)
              ∧ (∀ a, Meeting.search r ≠ a ++ lit " ")
              ∧ (lowers_words →
                 toLowerCase (Meeting.search r) = Meeting.search r))
        recs.
Proof.
  intros (n & f & ty & tz & t & m & Hn & _ & _ & _ & _ & Hname & Hsearch & _ & _ & Hrecs)
    %load_row_records.
  exists n, (row_records m (Js.trim tz) (stringToTrimmedArray t (ch "010"))).
  split_and!; try done.
  eapply Forall_impl; [apply row_records_same_but_time|].
  intros r (Hr & _ & _ & _ & Hs & _). rewrite Hs, Hr, Hsearch, Hname.
  split; [done|]. split; [done|].
  destruct (collapse_spaces_shape (toLowerCase (Js.trim n))) as (H2 & Hl & Ht).
  split_and!; [exact H2 | exact Hl | exact Ht |].
  apply search_index_lower.
Qed.
End search.

(** ** The loader on sample feeds

    Each general theorem above is applied to a feed of sample rows, and each
    statement of the specification that the code does not meet is refuted
    on one. *)

Section sample_rows.
#[local] Existing Instances Sample.config Sample.moment_type Sample.host.

(** C1 fails as stated: the only time expression of this row does not
    parse, and no record is produced for it. *)
Lemma unparsed_times_no_record :
  moments (lit "Europe/Rome") (stringToTrimmedArray (lit "ogni tanto") (ch "010")) = []
  ∧ ∃ out st, Sample.run [Sample.unparsed] [] = (out, inr st)
              ∧ State.meetings st = [].
Proof.
  split; [vm_compute; reflexivity|].
  destruct (Sample.run _ _) as [out [e|st]] eqn:E; evaluated E.
  eexists _, _. split; reflexivity.
Qed.

(** A row without times gets its one record. *)
Lemma row_without_times_is_ongoing_witness :
  ∃ out st, Sample.run [Sample.ongoing] [] = (out, inr st)
    ∧ ∃ recs,
        records_of_row [] Sample.ongoing [] [] [] st recs
        ∧ ∃ m, recs = [m] ∧ Meeting.time m = None.
Proof.
  destruct (Sample.run [Sample.ongoing] []) as [out [e|st]] eqn:E.
  - exfalso. vm_compute in E. discriminate E.
  - exists out, st. split; [reflexivity|].
    exact (@row_without_times_is_ongoing Sample.config Sample.moment_type
             Sample.host [] Sample.ongoing [] [] [] out st
             (lit "Europe/Rome") [] E eq_refl eq_refl).
Defined.

(** C2 fails as stated: this row lists the same valid expression twice and
    gets two records with the same time. *)
Lemma repeated_time_repeated_record :
  ∃ out st, Sample.run [Sample.repeated] [] = (out, inr st)
    ∧ length (moments (lit "Europe/Rome")
                (stringToTrimmedArray
                   (lit "lunedì 7:00 pm" ++ Sample.newline ++ lit "lunedì 7:00 pm")
                   (ch "010"))) = 2
    ∧ length (State.meetings st) = 2
    ∧ ¬ NoDup (Meeting.time <$> State.meetings st).
Proof.
  destruct (Sample.run _ _) as [out [e|st]] eqn:E; evaluated E.
  eexists _, _. split; [reflexivity|]. split_and!; [by vm_compute..|].
  intros Hnd. vm_compute in Hnd. apply NoDup_cons in Hnd as [Hn _].
  apply Hn. left.
Qed.

(** A row with two distinct valid times gets its two records. *)
Lemma row_with_times_expands_witness :
  ∃ out st, Sample.run [Sample.weekly] [] = (out, inr st)
    ∧ ∃ m recs,
        records_of_row [] Sample.weekly [] [] [] st recs
        ∧ length recs = 2
        ∧ Forall (same_but_time m) recs
        ∧ Meeting.time <$> recs =
            Some <$> moments (lit "Europe/Rome")
                       [lit "lunedì 7:00 pm"; lit "giovedì 9:30 am"].
Proof.
  destruct (Sample.run [Sample.weekly] []) as [out [e|st]] eqn:E.
  - exfalso. vm_compute in E. discriminate E.
  - exists out, st. split; [reflexivity|].
    refine (@row_with_times_expands Sample.config Sample.moment_type
              Sample.host [] Sample.weekly [] [] [] out st
              (lit "Europe/Rome")
              (lit "lunedì 7:00 pm" ++ Sample.newline ++ lit "giovedì 9:30 am")
              E eq_refl eq_refl _).
    vm_compute. lia.
Defined.

(** C7 fails as stated: the token [online] is a format and a type of this
    row, and the tags of its record list it twice. *)
Lemma shared_token_tagged_twice :
  ∃ out st m, Sample.run [Sample.twice_tagged] [] = (out, inr st)
    ∧ State.meetings st = [m]
    ∧ Meeting.tags m = [lit "online"; lit "aperta"; lit "online"]
    ∧ ¬ NoDup (Meeting.tags m).
Proof.
  destruct (Sample.run _ _) as [out [e|st]] eqn:E; evaluated E.
  eexists _, _, _. split; [reflexivity|]. split; [reflexivity|].
  split; [reflexivity|]. simpl.
  intros Hnd. apply NoDup_cons in Hnd as [Hn _]. apply Hn. set_solver.
Qed.

(** The tags of the same row, as the two lists of tokens one after the
    other. *)
Lemma row_tags_concatenate_witness :
  ∃ out st, Sample.run [Sample.twice_tagged] [] = (out, inr st)
    ∧ ∃ f ty recs,
        gsx_formats Sample.twice_tagged = Some f
        ∧ gsx_types Sample.twice_tagged = Some ty
        ∧ records_of_row [] Sample.twice_tagged [] [] [] st recs
        ∧ Forall
            (λ r, Meeting.tags r =
                    stringToTrimmedArray f (ch ",") ++ stringToTrimmedArray ty (ch ",")
                  ∧ ∀ x, x ∈ Meeting.tags r ↔
                         x ∈ stringToTrimmedArray f (ch ",")
                         ∨ x ∈ stringToTrimmedArray ty (ch ","))
            recs.
Proof.
  destruct (Sample.run [Sample.twice_tagged] []) as [out [e|st]] eqn:E.
  - exfalso. vm_compute in E. discriminate E.
  - exists out, st. split; [reflexivity|].
    exact (@row_tags_concatenate Sample.config Sample.moment_type Sample.host
             [] Sample.twice_tagged [] [] [] out st E).
Defined.

(** C8 fails as stated: the tab inside this name is white space, yet the
    search string is not split at it. *)
Lemma tab_in_name_not_split :
  ∃ out st m, Sample.run [Sample.tabbed] [] = (out, inr st)
    ∧ State.meetings st = [m]
    ∧ Meeting.search m = lit "gruppo" ++ Sample.tab ++ lit "aurora"
    ∧ search_index_spec (Meeting.name m) = lit "gruppo aurora"
    ∧ Meeting.search m ≠ search_index_spec (Meeting.name m).
Proof.
  destruct (Sample.run _ _) as [out [e|st]] eqn:E; evaluated E.
  eexists _, _, _. split; [reflexivity|]. split; [reflexivity|].
  split_and!; by vm_compute.
Qed.

(** The case table of the samples lowers words one by one. *)
Lemma sample_lowers_words : lowers_words.
Proof.
  assert (Hunit : ∀ c, Sample.lower_unit (Sample.lower_unit c)
                       = Sample.lower_unit c).
  { intros c. unfold Sample.lower_unit.
    destruct ((65 <=? c) && (c <=? 90))%N eqn:E; [|by rewrite E].
    apply andb_true_iff in E as [?%N.leb_le ?%N.leb_le].
    assert ((c + 32 <=? 90)%N = false) as -> by (apply N.leb_gt; lia).
    by rewrite andb_false_r. }
  assert (Hspace : ∀ c, (Sample.lower_unit c =? ch " ")%N = (c =? ch " ")%N).
  { intros c. unfold Sample.lower_unit.
    destruct ((65 <=? c) && (c <=? 90))%N eqn:E; [|done].
    apply andb_true_iff in E as [?%N.leb_le ?%N.leb_le].
    transitivity false; [apply N.eqb_neq | symmetry; apply N.eqb_neq]; lia. }
  split_and!; [done| |]; intros s; cbn; unfold Sample.lower.
  - rewrite <- list_fmap_compose. apply list_fmap_ext. intros _ c _. apply Hunit.
  - induction s as [|c s IH]; [done|]. cbn [fmap list_fmap Js.split].
    rewrite Hspace. fold (fmap Sample.lower_unit s). rewrite IH.
    destruct (c =? ch " ")%N; [done|].
    by destruct (Js.split (ch " ") s).
Qed.

(** The search string of the same row, split on spaces only. *)
Lemma search_index_normalised_witness :
  ∃ out st, Sample.run [Sample.tabbed] [] = (out, inr st)
    ∧ ∃ n recs,
        gsx_name Sample.tabbed = Some n
        ∧ records_of_row [] Sample.tabbed [] [] [] st recs
        ∧ Forall
            (λ r, Meeting.name r = Js.trim n
                  ∧ Meeting.search r =
                      Js.join (lit " ")
                        (List.filter Js.truthy
                           (Js.split (ch " ") (toLowerCase (Meeting.name r))))
                  ∧ (∀ a b, Meeting.search r ≠ a ++ lit "  " ++ b)
                  ∧ (∀ a, Meeting.search r ≠ lit " " ++ a)
                  ∧ (∀ a, Meeting.search r ≠ a ++ lit " ")
                  ∧ toLowerCase (Meeting.search r) = Meeting.search r)
            recs.
Proof.
  destruct (Sample.run [Sample.tabbed] []) as [out [e|st]] eqn:E.
  - exfalso. vm_compute in E. discriminate E.
  - exists out, st. split; [reflexivity|].
    destruct (@search_index_normalised Sample.config Sample.moment_type
                Sample.host [] Sample.tabbed [] [] [] out st E)
      as (n & recs & Hn & Hrecs & Hall).
    exists n, recs. split_and!; [exact Hn | exact Hrecs |].
    eapply Forall_impl; [exact Hall|].
    intros r (Hname & Hsearch & Hdouble & Hleading & Htrailing & Hlower).
    split_and!; [done..|]. exact (Hlower sample_lowers_words).
Defined.

(** Replaces a closed term of a hypothesis by its value. *)
Ltac value_in t H :=
  let v := eval vm_compute in t in
  replace t with v in H by (vm_compute; reflexivity).

(** Ten digits and the access code 9876: one button that dials
    [5551234567,,9876]. *)
Lemma phone_button_or_warning_witness :
  ∃ out st, Sample.run [Sample.with_phone] [] = (out, inr st)
    ∧ ∃ recs,
        records_of_row [] Sample.with_phone [] [] [] st recs
        ∧ (∀ m o, handle_phone 0 Sample.with_phone m o =
                    (o, inr (Meeting.push_button m
                               (phone_button (lit "5551234567,,9876")))))
        ∧ Forall (λ r, buttons_with [Icon.phone] r =
                         [phone_button (lit "5551234567,,9876")]) recs.
Proof.
  destruct (Sample.run [Sample.with_phone] []) as [out [e|st]] eqn:E.
  - exfalso. vm_compute in E. discriminate E.
  - exists out, st. split; [reflexivity|].
    pose proof (@phone_button_or_warning Sample.config Sample.moment_type
                  Sample.host [] Sample.with_phone [] [] [] out st
                  (lit "555-123-4567") E eq_refl eq_refl) as Hthm.
    cbv zeta in Hthm.
    match type of Hthm with
    | context [if ?c then _ else _] =>
        match c with (_ <? _)%nat => value_in c Hthm end
    end.
    match type of Hthm with
    | context [phone_button ?t] => value_in t Hthm
    end.
    exact Hthm.
Defined.

(** Seven digits: a warning and no button. *)
Example short_phone_warns :
  ∃ out st m, Sample.run [Sample.short_phone] [] = (out, inr st)
    ∧ out = [warning 0 (lit "555-1234") (lit "phone number")]
    ∧ State.meetings st = [m]
    ∧ Meeting.buttons m = [].
Proof.
  destruct (Sample.run _ _) as [out [e|st]] eqn:E; evaluated E.
  eexists _, _, _. split; [reflexivity|]. split_and!; by vm_compute.
Qed.

(** C6: the code departs from the specification on this row.  The host
    name of its link holds [www.] after its first label, no service matches
    it, and the label of the button lacks that interior [www.], which the
    specification keeps. *)
Lemma interior_www_removed :
  ∃ out st m b, Sample.run [Sample.interior_www] [] = (out, inr st)
    ∧ State.meetings st = [m]
    ∧ Meeting.buttons m = [b]
    ∧ URL_hostname (lit "https://meet.www.example.org/x") = Some (lit "meet.www.example.org")
    ∧ matching_services (lit "meet.www.example.org") = []
    ∧ Button.icon b = Icon.link
    ∧ Button.text b = lit "meet.example.org"
    ∧ strip_leading_www (lit "meet.www.example.org") = lit "meet.www.example.org"
    ∧ Button.text b ≠ strip_leading_www (lit "meet.www.example.org").
Proof.
  destruct (Sample.run _ _) as [out [e|st]] eqn:E; evaluated E.
  eexists _, _, _, _. split; [reflexivity|]. split; [reflexivity|].
  split; [reflexivity|]. split_and!; by vm_compute.
Qed.

(** A link to a site that is no video service, with a leading [www.]. *)
Lemma url_button_label_witness :
  ∃ out st, Sample.run [Sample.with_link] [] = (out, inr st)
    ∧ ∃ recs icon label,
        records_of_row [] Sample.with_link [] [] [] st recs
        ∧ (∀ m o, handle_url 0 Sample.with_link m o =
                    (o, inr (Meeting.push_button m
                               (url_button icon label
                                  (lit "https://www.example.org/riunione")))))
        ∧ Forall (λ r, buttons_with [Icon.link; Icon.video] r =
                         [url_button icon label
                            (lit "https://www.example.org/riunione")]) recs
        ∧ ((∃ before after,
              service_names = before ++ label :: after
              ∧ serves label (lit "www.example.org")
              ∧ Forall (λ s, ¬ serves s (lit "www.example.org")) before
              ∧ icon = Icon.video)
           ∨ (Forall (λ s, ¬ serves s (lit "www.example.org")) service_names
              ∧ icon = Icon.link
              ∧ label = lit "example.org"
              ∧ (∀ rest, lit "www.example.org" = lit "www." ++ rest → label = rest)
              ∧ (∀ a b, first_occurrence (lit "www.") a b (lit "www.example.org") →
                        label = a ++ b)
              ∧ ((∀ a b, lit "www.example.org" ≠ a ++ lit "www." ++ b) →
                 label = lit "www.example.org"))).
Proof.
  destruct (Sample.run [Sample.with_link] []) as [out [e|st]] eqn:E.
  - exfalso. vm_compute in E. discriminate E.
  - exists out, st. split; [reflexivity|].
    pose proof (@url_button_label Sample.config Sample.moment_type
                  Sample.host [] Sample.with_link [] [] [] out st
                  (lit "https://www.example.org/riunione") (lit "www.example.org")
                  E eq_refl eq_refl eq_refl) as Hthm.
    match type of Hthm with
    | context [Js.trim ?t] => value_in (Js.trim t) Hthm
    end.
    match type of Hthm with
    | context [Js.replace ?a ?b ?c] => value_in (Js.replace a b c) Hthm
    end.
    exact Hthm.
Defined.

(** A link to a video service gets the name of the service. *)
Example video_link_labelled :
  ∃ out st m b, Sample.run [Sample.with_video] [] = (out, inr st)
    ∧ State.meetings st = [m]
    ∧ Meeting.buttons m = [b]
    ∧ Button.icon b = Icon.video
    ∧ Button.text b = lit "Zoom".
Proof.
  destruct (Sample.run _ _) as [out [e|st]] eqn:E; evaluated E.
  eexists _, _, _, _. split; [reflexivity|]. split; [reflexivity|].
  split; [reflexivity|]. split_and!; by vm_compute.
Qed.

(** C9 fails as stated: the line written for this row holds the value
    between typographic quotes, and no row number, value and kind give it
    the form with straight quotes. *)
Lemma warning_quotes_are_typographic :
  ∃ out st, Sample.run [Sample.short_phone] [] = (out, inr st)
    ∧ out = [lit "Row 2: “555-1234” is not a valid phone number."]
    ∧ ∀ n value kind,
        lit "Row 2: “555-1234” is not a valid phone number."
        ≠ warning_spec n value kind.
Proof.
  destruct (Sample.run _ _) as [out [e|st]] eqn:E; evaluated E.
  eexists _, _. split; [reflexivity|]. split; [by vm_compute|].
  intros n value kind Hline. unfold warning_spec in Hline.
  cbn [app] in Hline.
  injection Hline as Hline. apply (f_equal skip_digits) in Hline.
  rewrite skip_digits_append in Hline by apply pretty_nat_digits.
  vm_compute in Hline. discriminate Hline.
Qed.

(** A value with a line break in it is written as it is, so that the
    warning spreads over two lines of the console. *)
Example warning_over_two_lines :
  ∃ out st line, Sample.run [Sample.broken_phone] [] = (out, inr st)
    ∧ out = [line]
    ∧ line = warning 0 (lit "555" ++ Sample.newline ++ lit "1234") (lit "phone number")
    ∧ length (Js.split (ch "010") line) = 2.
Proof.
  destruct (Sample.run _ _) as [out [e|st]] eqn:E; evaluated E.
  eexists _, _, _. split; [reflexivity|]. split; [reflexivity|].
  split; by vm_compute.
Qed.

(** The two lines written for a feed of three rows. *)
Lemma warning_lines_witness :
  ∃ out result,
    Sample.run [Sample.ongoing; Sample.short_phone; Sample.unparsed] []
    = (out, result)
    ∧ out = [lit "Row 3: “555-1234” is not a valid phone number.";
             lit "Row 4: “ogni tanto” is not a valid time."]
    ∧ Forall
        (λ line,
           ∃ i entry value kind,
             [Sample.ongoing; Sample.short_phone; Sample.unparsed] !! i
             = Some entry
             ∧ malformed entry value kind
             ∧ line = lit "Row " ++ utf16 (pretty (i + 2)) ++ lit ": “" ++ value
                      ++ lit "” is not a valid " ++ kind ++ lit ".")
        out.
Proof.
  destruct (Sample.run _ _) as [out result] eqn:E.
  exists out, result. split; [reflexivity|]. split.
  - vm_compute in E. by injection E as <- _.
  - exact (@warning_lines Sample.config Sample.moment_type Sample.host
             _ _ out result E).
Defined.

(** C3 fails as stated: the second row of this feed has no notes field,
    and [load] throws instead of returning a state without that row. *)
Lemma missing_field_no_state :
  ∃ out,
    Sample.run [Sample.ongoing; Sample.without_notes; Sample.weekly] []
    = (out, inl TypeError).
Proof.
  destruct (Sample.run _ _) as [out result] eqn:E. exists out.
  vm_compute in E. by injection E as _ <-.
Qed.

(** A feed of readable rows, two of them with values that are not valid. *)
Lemma missing_field_aborts_witness :
  query_parses [] = true
  ∧ ∃ out' st,
      load [Sample.ongoing; Sample.short_phone; Sample.unparsed] [] []
      = (out', inr st).
Proof.
  split; [by vm_compute|].
  pose proof (@missing_field_aborts Sample.config Sample.moment_type Sample.host
                [Sample.ongoing; Sample.short_phone; Sample.unparsed]
                [] [] ltac:(by vm_compute)) as Hthm.
  value_in (forallb readable
              [Sample.ongoing; Sample.short_phone; Sample.unparsed]) Hthm.
  exact Hthm.
Defined.

(** C10 fails as stated: the only pair of this query string holds no equals
    sign, and [load] throws. *)
Lemma pair_without_equals_throws :
  query_parses (lit "?foo") = false
  ∧ Sample.run [Sample.ongoing] (lit "?foo") = ([], inl TypeError).
Proof. split; by vm_compute. Qed.

(** A query string that parses, and the same with a pair [foo=bar] more. *)
Lemma query_string_pairs_witness :
  ∃ out' st,
    Sample.run [Sample.ongoing] (lit "?formats=aperta") = (out', inr st)
    ∧ (∃ out'',
         load [Sample.ongoing] (lit "?formats=aperta" ++ lit "&" ++ lit "foo=bar") []
         = (out'', inr st))
    ∧ ∀ pair key value rest out1 st1,
        1 < length (lit "?formats=aperta") →
        load [Sample.ongoing] (lit "?formats=aperta") [] = (out1, inr st1) →
        all_chars (λ c, negb (N.eqb c (ch "&"))) pair = true →
        Js.split (ch "=") pair = key :: value :: rest →
        key ∉ [lit "days"; lit "formats"; lit "types"] →
        pair_parses pair = true →
        ∃ out'',
          load [Sample.ongoing] (lit "?formats=aperta" ++ lit "&" ++ pair) []
          = (out'', inr st1).
Proof.
  destruct (Sample.run [Sample.ongoing] (lit "?formats=aperta"))
    as [out' [e|st]] eqn:E.
  - exfalso. vm_compute in E. discriminate E.
  - exists out', st. split; [reflexivity|].
    destruct (@query_string_pairs Sample.config Sample.moment_type Sample.host
                [Sample.ongoing] (lit "?formats=aperta") [] ltac:(by vm_compute))
      as [_ Hthm].
    split; [|exact Hthm].
    apply (Hthm (lit "foo=bar") (lit "foo") (lit "bar") [] out' st).
    + vm_compute. lia.
    + exact E.
    + by vm_compute.
    + by vm_compute.
    + rewrite !elem_of_cons, elem_of_nil. intuition discriminate.
    + by vm_compute.
Defined.

(** A pair with an empty value is read: no tag is checked. *)
Example empty_value_is_read :
  ∃ out st, Sample.run [Sample.ongoing] (lit "?formats=") = (out, inr st)
    ∧ State.filters st !! (lit "formats")
      = Some [{| Tag.tag := lit "aperta"; Tag.checked := false |}].
Proof.
  destruct (Sample.run _ _) as [out [e|st]] eqn:E; evaluated E.
  eexists _, _. split; [reflexivity|]. by vm_compute.
Qed.

(** The formats [bar], [baz], [foo] under the query string
    [?formats=foo,bar]. *)
Lemma vocabularies_sorted_checked_witness :
  ∃ out' st,
    Sample.run [Sample.foo_baz; Sample.bar_foo] (lit "?formats=foo,bar")
    = (out', inr st)
    ∧ State.filters st !! (lit "formats")
      = Some [{| Tag.tag := lit "bar"; Tag.checked := true |};
              {| Tag.tag := lit "baz"; Tag.checked := false |};
              {| Tag.tag := lit "foo"; Tag.checked := true |}]
    ∧ ∃ query fs ts,
        read_query (lit "?formats=foo,bar") [] = ([], inr query)
        ∧ State.filters st !! (lit "formats") = Some fs
        ∧ State.filters st !! (lit "types") = Some ts
        ∧ vocabulary fs (preselection query (lit "formats"))
        ∧ vocabulary ts (preselection query (lit "types"))
        ∧ (∀ x, x ∈ Tag.tag <$> fs ↔
                ∃ entry f, entry ∈ [Sample.foo_baz; Sample.bar_foo]
                           ∧ gsx_formats entry = Some f
                           ∧ x ∈ stringToTrimmedArray f (ch ","))
        ∧ (∀ x, x ∈ Tag.tag <$> ts ↔
                ∃ entry ty, entry ∈ [Sample.foo_baz; Sample.bar_foo]
                            ∧ gsx_types entry = Some ty
                            ∧ x ∈ stringToTrimmedArray ty (ch ",")).
Proof.
  destruct (Sample.run [Sample.foo_baz; Sample.bar_foo] (lit "?formats=foo,bar"))
    as [out' [e|st]] eqn:E.
  - exfalso. vm_compute in E. discriminate E.
  - exists out', st. split; [reflexivity|]. split.
    + vm_compute in E. injection E as _ <-. by vm_compute.
    + exact (@vocabularies_sorted_checked Sample.config Sample.moment_type
               Sample.host _ _ [] out' st E).
Defined.

End sample_rows.

(** * Further properties *)

(** ** Trimming, splitting and joining *)

Section tokens.

Lemma trimStart_head s :
  Js.trimStart s = []
  ∨ ∃ c r, Js.trimStart s = (c :: r) ∧ Js.is_white_space c = false.
Proof.
  induction s as [|c s IH]; simpl; [by left|].
  destruct (Js.is_white_space c) eqn:E; [done|]. right. by exists c, s.
Qed.

Lemma trimEnd_head c s :
  Js.is_white_space c = false → ∃ r, Js.trimEnd (c :: s) = c :: r.
Proof.
  intros Hc. simpl. destruct (Js.trimEnd s); rewrite ?Hc; eauto.
Qed.

Lemma trimEnd_last s r c :
  Js.trimEnd s = r ++ [c] → Js.is_white_space c = false.
Proof.
  revert r. induction s as [|x s IH]; intros r; simpl.
  - by destruct r.
  - destruct (Js.trimEnd s) as [|y t] eqn:E.
    + destruct (Js.is_white_space x) eqn:Hx; [by destruct r|].
      destruct r as [|z [|? ?]]; simpl; intros [= ]; by subst.
    + destruct r as [|z r]; simpl; [by intros [= ]|].
      intros [= -> Hr]. by apply (IH r).
Qed.

Lemma trimmed_trim s : trimmed (Js.trim s).
Proof.
  unfold Js.trim. split.
  - intros c r E. destruct (trimStart_head s) as [Hs|(d & t & Hs & Hd)];
      rewrite Hs in E; [done|].
    destruct (trimEnd_head d t Hd) as [r' Hr]. rewrite Hr in E.
    by injection E as -> _.
  - intros r c E. by apply trimEnd_last in E.
Qed.

Lemma trimEnd_fixed t :
  (∀ r c, t = r ++ [c] → Js.is_white_space c = false) →
  Js.trimEnd t = t.
Proof.
  induction t as [|x t IH]; intros Hlast; simpl; [done|].
  rewrite IH.
  - destruct t; [|done]. by rewrite (Hlast [] x).
  - intros r c ->. by apply (Hlast (x :: r) c).
Qed.

Lemma trim_fixed t : trimmed t → Js.trim t = t.
Proof.
  intros [Hfirst Hlast]. unfold Js.trim.
  assert (Js.trimStart t = t) as ->; [|by apply trimEnd_fixed].
  destruct t as [|c t]; simpl; [done|]. by rewrite (Hfirst c t).
Qed.

Lemma trimStart_empty s :
  Js.trimStart s = [] ↔ all_chars Js.is_white_space s = true.
Proof.
  induction s as [|c s IH]; simpl; [done|].
  destruct (Js.is_white_space c); simpl; [done|]. split; discriminate.
Qed.

Lemma trim_empty s :
  Js.trim s = [] ↔ all_chars Js.is_white_space s = true.
Proof.
  rewrite <- trimStart_empty. unfold Js.trim. split; [|by intros ->].
  destruct (trimStart_head s) as [Hs|(d & t & Hs & Hd)]; [done|].
  rewrite Hs. destruct (trimEnd_head d t Hd) as [r ->]. discriminate.
Qed.

Lemma all_chars_trim P s :
  all_chars P s = true → all_chars P (Js.trim s) = true.
Proof.
  intros Hs. unfold Js.trim.
  assert (Hstart : all_chars P (Js.trimStart s) = true).
  { induction s as [|c s IH]; simpl in *; [done|].
    apply andb_true_iff in Hs as [Hc Hs].
    destruct (Js.is_white_space c); [by apply IH|]. simpl. by rewrite Hc. }
  clear Hs. induction (Js.trimStart s) as [|c t IH]; simpl in *; [done|].
  apply andb_true_iff in Hstart as [Hc Ht]. specialize (IH Ht).
  destruct (Js.trimEnd t); simpl in *.
  - destruct (Js.is_white_space c); simpl; [done|]. by rewrite Hc.
  - by rewrite Hc.
Qed.

Lemma split_pieces Q c s :
  Forall (λ t, all_chars Q t = true) (Js.split c s)
  ↔ all_chars (λ x, Q x || N.eqb x c) s = true.
Proof.
  induction s as [|x s IH]; simpl.
  - split; [done|]. by repeat constructor.
  - pose proof (split_not_nil c s) as Hne.
    destruct (N.eqb x c) eqn:E.
    + rewrite orb_true_r. simpl. rewrite <- IH. split.
      * by inversion 1.
      * by constructor.
    + rewrite orb_false_r. destruct (Js.split c s) as [|t ts]; [done|].
      rewrite andb_true_iff, <- IH. split.
      * inversion 1 as [|? ? Hxt Hts]; subst. simpl in Hxt.
        apply andb_true_iff in Hxt as [Hx Ht]. split; [done|].
        by constructor.
      * intros [Hx Hall]. inversion Hall; subst. constructor; [|done].
        simpl. by rewrite Hx.
Qed.

Lemma filter_truthy_nil (l : list jstring) :
  List.filter Js.truthy l = [] ↔ Forall (λ t, t = []) l.
Proof.
  induction l as [|t l IH]; simpl; [by split|].
  destruct t; simpl.
  - rewrite IH. split; [by constructor | by inversion 1].
  - split; [done | by inversion 1].
Qed.

Lemma stringToTrimmedArray_Forall str sep :
  Forall (λ t, Js.truthy t = true ∧ trimmed t
               ∧ all_chars (λ x, negb (N.eqb x sep)) t = true)
    (stringToTrimmedArray str sep).
Proof.
  unfold stringToTrimmedArray.
  pose proof (split_no_sep sep str) as Hsep.
  induction Hsep as [|p ps Hp Hps IH]; simpl; [constructor|].
  destruct (Js.truthy (Js.trim p)) eqn:Ht; [|done].
  constructor; [|done]. split_and!; [done | apply trimmed_trim |].
  by apply all_chars_trim.
Qed.

(** X1.  Every token that [stringToTrimmedArray] returns is not empty, has
    no white space at either end and does not hold the separator. *)
Theorem stringToTrimmedArray_tokens str sep :
  Forall
    (λ t, t ≠ []
          ∧ (∀ c r, t = (c :: r) → Js.is_white_space c = false)
          ∧ (∀ r c, t = r ++ [c] →
                    Js.is_white_space c = false)
          ∧ all_chars (λ x, negb (N.eqb x sep)) t = true)
    (stringToTrimmedArray str sep).
Proof.
  eapply Forall_impl; [apply stringToTrimmedArray_Forall|].
  intros t (Ht & [Hfirst Hlast] & Hsep). split_and!; try done.
  by apply truthy_spec.
Qed.

(** X2.  [stringToTrimmedArray] returns no token exactly when the string
    holds nothing but white space and separators; the empty string is such
    a string. *)
Theorem stringToTrimmedArray_nil str sep :
  stringToTrimmedArray str sep = []
  ↔ all_chars (λ x, Js.is_white_space x || N.eqb x sep) str = true.
Proof.
  unfold stringToTrimmedArray.
  rewrite filter_truthy_nil, Forall_fmap, <- split_pieces.
  apply Forall_iff. intros t. simpl. apply trim_empty.
Qed.

(** X3.  Joining the tokens with the separator and splitting again gives
    the same tokens: [stringToTrimmedArray] is a normal form. *)
Theorem stringToTrimmedArray_join str sep :
  stringToTrimmedArray
    (Js.join [sep] (stringToTrimmedArray str sep)) sep
  = stringToTrimmedArray str sep.
Proof.
  pose proof (stringToTrimmedArray_Forall str sep) as Hall.
  destruct (stringToTrimmedArray str sep) as [|t l] eqn:E; [done|].
  unfold stringToTrimmedArray at 1. rewrite split_join.
  - assert (Js.trim <$> t :: l = t :: l) as ->.
    { clear E. induction Hall as [|u us (_ & Hu & _) Hus IH]; [done|].
      simpl. rewrite trim_fixed by done. f_equal. exact IH. }
    apply filter_truthy_id. eapply Forall_impl; [exact Hall|]. by intros ? [? ?].
  - done.
  - eapply Forall_impl; [exact Hall|]. by intros ? (? & ? & ?).
Qed.

End tokens.

Section index.
Context `{Host}.

(** X4.  The search index is a fixed point of the collapsing of spaces:
    splitting it on the space character, dropping the empty pieces and
    joining the rest with single spaces gives it back.  It is a fixed
    point of the whole computation as well, for a lower-casing that leaves
    a text in lower case as it is and lowers the words between spaces one
    by one. *)
Theorem search_index_idempotent name :
  collapse_spaces (search_index name) = search_index name
  ∧ (lowers_words → search_index (search_index name) = search_index name).
Proof.
  split; [apply collapse_spaces_idempotent|].
  intros Hlaws. unfold search_index at 1.
  rewrite (search_index_lower name Hlaws). apply collapse_spaces_idempotent.
Qed.
End index.

(** ** The email pattern *)

Section email.

Lemma matches_seq_inv r1 r2 s :
  regex_matches (Regex.Seq r1 r2) s →
  ∃ s1 s2, s = s1 ++ s2 ∧ regex_matches r1 s1 ∧ regex_matches r2 s2.
Proof. inversion 1; subst. eauto. Qed.

Lemma matches_alt_inv r1 r2 s :
  regex_matches (Regex.Alt r1 r2) s → regex_matches r1 s ∨ regex_matches r2 s.
Proof. inversion 1; subst; eauto. Qed.

Lemma matches_class_inv p s :
  regex_matches (Regex.Class p) s → ∃ c, s = [c] ∧ p c = true.
Proof. inversion 1; subst. eauto. Qed.

Lemma matches_chr_inv c s :
  regex_matches (Regex.chr c) s → s = [c].
Proof.
  intros (x & -> & Hx)%matches_class_inv. by apply N.eqb_eq in Hx as ->.
Qed.

Lemma append_empty (a b : jstring) :
  a ++ b = [] → a = [] ∧ b = [].
Proof. by destruct a. Qed.

Lemma nullable_spec r :
  Regex.nullable r = true ↔ regex_matches r [].
Proof.
  split.
  - induction r; simpl; try done.
    + constructor.
    + intros [H1 H2]%andb_true_iff.
      apply (matches_seq r1 r2 [] []); auto.
    + intros [H1|H2]%orb_true_iff;
        [apply matches_alt_l | apply matches_alt_r]; auto.
    + constructor.
  - intros Hm. remember [] as s eqn:Hs.
    induction Hm; simpl; try done.
    + apply append_empty in Hs as [E1 E2]. by rewrite IHHm1, IHHm2.
    + by rewrite IHHm.
    + rewrite IHHm by done. apply orb_true_r.
Qed.

Lemma matches_seq_smart r1 r2 s :
  regex_matches (Regex.seq r1 r2) s ↔ regex_matches (Regex.Seq r1 r2) s.
Proof.
  destruct r1; simpl; try done.
  - split; [inversion 1|]. intros (s1 & s2 & _ & H1 & _)%matches_seq_inv.
    inversion H1.
  - split.
    + intros Hm. apply (matches_seq Regex.Eps r2 [] s); [constructor|done].
    + intros (s1 & s2 & -> & H1 & H2)%matches_seq_inv. by inversion H1; subst.
Qed.

Lemma matches_alt_smart r1 r2 s :
  regex_matches (Regex.alt r1 r2) s ↔ regex_matches (Regex.Alt r1 r2) s.
Proof.
  assert (Hfail : ∀ t, ¬ regex_matches Regex.Fail t) by (intros t; inversion 1).
  destruct r1, r2; simpl; try done;
    (split; [intros Hm; first [by apply matches_alt_l | by apply matches_alt_r]
            | intros [Hm|Hm]%matches_alt_inv; by try apply Hfail in Hm]).
Qed.

Lemma matches_star_cons_inv r c s :
  regex_matches (Regex.Star r) (c :: s) →
  ∃ s1 s2, s = s1 ++ s2 ∧ regex_matches r (c :: s1)
           ∧ regex_matches (Regex.Star r) s2.
Proof.
  intros Hm. remember (Regex.Star r) as r' eqn:Hr.
  remember (c :: s) as s' eqn:Hs.
  induction Hm; try done. injection Hr as ->.
  destruct s1 as [|x s1]; simpl in Hs.
  - by apply IHHm2.
  - injection Hs as -> <-. by exists s1, s2.
Qed.

Lemma deriv_spec c r s :
  regex_matches (Regex.deriv c r) s ↔ regex_matches r (c :: s).
Proof.
  revert s. induction r as [| |p|r1 IH1 r2 IH2|r1 IH1 r2 IH2|r IH]; intros s; simpl.
  - split; inversion 1.
  - split; inversion 1.
  - destruct (p c) eqn:Hp; split.
    + inversion 1; subst. by constructor.
    + inversion 1; subst. constructor.
    + inversion 1.
    + inversion 1; subst. congruence.
  - assert (Hhead : regex_matches (Regex.seq (Regex.deriv c r1) r2) s
                    → regex_matches (Regex.Seq r1 r2) (c :: s)).
    { intros (s1 & s2 & -> & H1 & H2)%matches_seq_smart%matches_seq_inv.
      apply IH1 in H1. by apply (matches_seq r1 r2 (c :: s1) s2). }
    assert (Hinv : regex_matches (Regex.Seq r1 r2) (c :: s)
                   → regex_matches (Regex.seq (Regex.deriv c r1) r2) s
                     ∨ (regex_matches r1 []
                        ∧ regex_matches (Regex.deriv c r2) s)).
    { intros (s1 & s2 & E & H1 & H2)%matches_seq_inv.
      destruct s1 as [|x s1]; simpl in E.
      - right. subst. split; [done|]. by apply IH2.
      - injection E as <- ->. left. apply matches_seq_smart.
        apply matches_seq; [by apply IH1 | done]. }
    destruct (Regex.nullable r1) eqn:Hn.
    + rewrite matches_alt_smart. split.
      * intros [Hm|Hm]%matches_alt_inv; [by apply Hhead|].
        apply IH2 in Hm. apply nullable_spec in Hn.
        by apply (matches_seq r1 r2 [] (c :: s)).
      * intros [Hm|[_ Hm]]%Hinv; [by apply matches_alt_l | by apply matches_alt_r].
    + split; [done|]. intros [Hm|[Hm _]]%Hinv; [done|].
      apply nullable_spec in Hm. congruence.
  - rewrite matches_alt_smart. split.
    + intros [Hm|Hm]%matches_alt_inv;
        [apply matches_alt_l, IH1 | apply matches_alt_r, IH2]; done.
    + intros [Hm|Hm]%matches_alt_inv;
        [apply matches_alt_l, IH1 | apply matches_alt_r, IH2]; done.
  - rewrite matches_seq_smart. split.
    + intros (s1 & s2 & -> & H1 & H2)%matches_seq_inv. apply IH in H1.
      by apply (matches_star_cons r (c :: s1) s2).
    + intros (s1 & s2 & -> & H1 & H2)%matches_star_cons_inv.
      apply matches_seq; [by apply IH | done].
Qed.

(** The test by derivatives decides the language of the expression. *)
Lemma test_spec r s : Regex.test r s = true ↔ regex_matches r s.
Proof.
  revert r. induction s as [|c s IH]; intros r; simpl.
  - apply nullable_spec.
  - by rewrite IH, deriv_spec.
Qed.

Lemma all_chars_mono (P Q : N → bool) s :
  (∀ c, P c = true → Q c = true) →
  all_chars P s = true → all_chars Q s = true.
Proof.
  intros HPQ. induction s as [|c s IH]; simpl; [done|].
  intros [Hc Hs]%andb_true_iff. by rewrite (HPQ c Hc), IH.
Qed.

(** A string of the language holds only characters that a class of the
    expression accepts. *)
Lemma matches_chars r s :
  regex_matches r s → all_chars (regex_chars r) s = true.
Proof.
  induction 1 as [|p c Hc|r1 r2 s1 s2 _ IH1 _ IH2|r1 r2 s _ IH|r1 r2 s _ IH|
                  |r s1 s2 _ IH1 _ IH2]; try done.
  - simpl. by rewrite Hc.
  - rewrite all_chars_append. apply andb_true_iff. split.
    + eapply all_chars_mono; [|exact IH1]. intros c Hc. simpl. by rewrite Hc.
    + eapply all_chars_mono; [|exact IH2]. intros c Hc. simpl.
      rewrite Hc. apply orb_true_r.
  - eapply all_chars_mono; [|exact IH]. intros c Hc. simpl. by rewrite Hc.
  - eapply all_chars_mono; [|exact IH]. intros c Hc. simpl.
    rewrite Hc. apply orb_true_r.
  - rewrite all_chars_append. apply andb_true_iff. split.
    + eapply all_chars_mono; [|exact IH1]. by intros c Hc.
    + exact IH2.
Qed.

(** A sequence ends as its second part ends. *)
Lemma matches_seq_suffix r1 r2 suffix s :
  (∀ t, regex_matches r2 t → ∃ t', t = t' ++ suffix) →
  regex_matches (Regex.Seq r1 r2) s → ∃ s', s = s' ++ suffix.
Proof.
  intros Hr2 (x & y & -> & _ & (t' & ->)%Hr2)%matches_seq_inv.
  exists (x ++ t'). by rewrite <- app_assoc.
Qed.

Lemma matches_plus_not_empty r s :
  ¬ regex_matches r [] →
  regex_matches (Regex.plus r) s → s ≠ [].
Proof.
  intros Hr (s1 & s2 & -> & H1 & _)%matches_seq_inv [-> _]%append_empty. done.
Qed.

Lemma matches_class_not_empty p : ¬ regex_matches (Regex.Class p) [].
Proof. by intros (c & ? & _)%matches_class_inv. Qed.

(** A repetition of pieces that end with a dot is empty or ends with a
    dot. *)
Lemma matches_star_dotted r s :
  regex_matches (Regex.Star (Regex.Seq r (Regex.chr (ch ".")))) s →
  s = [] ∨ ∃ s', s = s' ++ lit ".".
Proof.
  intros Hm. remember (Regex.Star (Regex.Seq r (Regex.chr (ch ".")))) as r' eqn:Hr.
  induction Hm; try done; [by left|]. injection Hr as ->. right.
  apply matches_seq_inv in Hm1 as (a & b & -> & _ & ->%matches_chr_inv).
  destruct (IHHm2 eq_refl) as [->|[s' ->]].
  - exists a. by rewrite app_nil_r.
  - exists (a ++ lit "." ++ s'). by rewrite <- !app_assoc.
Qed.

Lemma length_two_or_more r s :
  ¬ regex_matches r [] →
  regex_matches (Regex.rep_2_ r) s → 2 ≤ length s.
Proof.
  intros Hr (a & b & -> & Ha & (c & d & -> & Hc & _)%matches_seq_inv)%matches_seq_inv.
  rewrite !length_app. destruct a; [done|]. destruct c; [done|]. simpl. lia.
Qed.

(** X5.  [validateEmail] accepts only strings made of a local part, an at
    sign and a domain.  The local part is not empty: it is a non-empty
    text between double quotes, or it is made of dots and of characters
    other than white space, the at sign and the punctuation that the
    pattern excludes.  The domain is a text between square brackets, or it
    ends with a dot and at least two ASCII letters, after a non-empty text
    of letters, digits, hyphens and dots. *)
Theorem validateEmail_shape email :
  validateEmail email = true →
  ∃ local domain,
    email = local ++ lit "@" ++ domain
    ∧ local ≠ []
    ∧ ((∃ q, q ≠ []
             ∧ local = (EmailPattern.dquote :: q)
                       ++ [EmailPattern.dquote])
       ∨ all_chars (λ c, EmailPattern.atom_char c || N.eqb c (ch ".")) local
         = true)
    ∧ ((∃ body, domain = lit "[" ++ body ++ lit "]")
       ∨ ∃ labels tld,
           domain = labels ++ lit "." ++ tld
           ∧ labels ≠ []
           ∧ all_chars (λ c, EmailPattern.label_char c || N.eqb c (ch ".")) labels
             = true
           ∧ 2 ≤ length tld
           ∧ all_chars Js.is_alpha tld = true).
Proof.
  unfold validateEmail. rewrite test_spec. unfold EmailPattern.pattern.
  intros (local & rest & -> & Hlocal
          & (at_ & domain & -> & ->%matches_chr_inv & Hdomain)%matches_seq_inv)
    %matches_seq_inv.
  exists local, domain. split_and!; [done|..].
  - apply matches_alt_inv in Hlocal as [Hl|Hl].
    + apply matches_seq_inv in Hl as (a & b & -> & Ha & _).
      apply matches_plus_not_empty in Ha; [|apply matches_class_not_empty].
      by destruct a.
    + apply matches_seq_inv in Hl as (a & b & -> & ->%matches_chr_inv & _).
      done.
  - apply matches_alt_inv in Hlocal as [Hl|Hl].
    + right. apply matches_chars in Hl.
      eapply all_chars_mono; [|exact Hl]. intros c.
      cbv [regex_chars Regex.plus Regex.chr]. rewrite (N.eqb_sym (ch ".") c).
      by destruct (EmailPattern.atom_char c), (N.eqb c (ch ".")).
    + left.
      apply matches_seq_inv in Hl
        as (a & b & -> & ->%matches_chr_inv
            & (q & e & -> & Hq & ->%matches_chr_inv)%matches_seq_inv).
      exists q. split; [|done].
      eapply matches_plus_not_empty; [apply matches_class_not_empty | exact Hq].
  - apply matches_alt_inv in Hdomain as [Hd|Hd].
    + left. apply matches_seq_inv in Hd as (a & b & -> & ->%matches_chr_inv & Hb).
      assert (∃ body, b = body ++ lit "]") as [body ->]; [|by exists body].
      unfold EmailPattern.octet in Hb.
      repeat (apply (matches_seq_suffix _ _ (lit "]")) in Hb; [done|];
              clear b Hb; intros b Hb).
      apply matches_chr_inv in Hb as ->. by exists [].
    + right. apply matches_seq_inv in Hd as (a & tld & -> & Ha & Htld).
      assert (Hchars := matches_chars _ _ Ha).
      apply matches_seq_inv in Ha as (a1 & a2 & -> & Ha1 & Ha2).
      apply matches_seq_inv in Ha1 as (l1 & dot & -> & Hl1 & ->%matches_chr_inv).
      apply matches_plus_not_empty in Hl1; [|apply matches_class_not_empty].
      assert (Htld2 := length_two_or_more _ _ (matches_class_not_empty _) Htld).
      apply matches_chars in Htld.
      assert (Halpha : all_chars Js.is_alpha tld = true).
      { eapply all_chars_mono; [|exact Htld]. intros c.
        cbv [regex_chars Regex.rep_2_]. by destruct (Js.is_alpha c). }
      assert (Hlab : ∀ x, all_chars
                (regex_chars
                   (Regex.plus (Regex.Seq (Regex.plus (Regex.Class EmailPattern.label_char))
                                  (Regex.chr (ch "."))))) x = true →
                all_chars (λ c, EmailPattern.label_char c || N.eqb c (ch ".")) x
                = true).
      { intros x. apply all_chars_mono. intros c.
        cbv [regex_chars Regex.plus Regex.chr]. rewrite (N.eqb_sym (ch ".") c).
        by destruct (EmailPattern.label_char c), (N.eqb c (ch ".")). }
      apply Hlab in Hchars.
      apply matches_star_dotted in Ha2 as [->|[s' ->]].
      * exists l1, tld. clear Hlab. rewrite app_nil_r in *.
        rewrite all_chars_append in Hchars.
        apply andb_true_iff in Hchars as [Hchars _].
        split_and!; try done. by rewrite <- app_assoc.
      * exists (l1 ++ lit "." ++ s'), tld.
        split_and!; try done.
        -- by rewrite <- !app_assoc.
        -- by destruct l1.
        -- clear Hlab. rewrite !all_chars_append in Hchars.
           apply andb_true_iff in Hchars
             as [[Hc1 Hdot]%andb_true_iff [Hc2 _]%andb_true_iff].
           by rewrite !all_chars_append, Hc1, Hdot, Hc2.
Qed.

End email.

(** ** Contact buttons *)

Section contact.
Context `{Config} `{Host}.

Lemma handle_url_fail_run i entry m out u :
  gsx_url entry = Some u →
  Js.truthy (Js.trim u) = true →
  URL_hostname (Js.trim u) = None →
  handle_url i entry m out = (out ++ [warning i (Js.trim u) (lit "URL")], inr m).
Proof.
  intros Hu Ht Hh. unfold handle_url. rewrite Hu, bind_run. simpl.
  by rewrite Ht, Hh.
Qed.

Lemma handle_email_run i entry m out e :
  gsx_email entry = Some e →
  Js.truthy (Js.trim e) = true →
  handle_email i entry m out =
    if validateEmail (Js.trim e)
    then (out, inr (Meeting.push_button m (email_button (Js.trim e))))
    else (out ++ [warning i (Js.trim e) (lit "email address")], inr m).
Proof.
  intros He Ht. unfold handle_email. rewrite He, bind_run. simpl.
  rewrite Ht. by destruct (validateEmail _).
Qed.

Lemma handle_url_empty_run i entry m out u :
  gsx_url entry = Some u → Js.truthy (Js.trim u) = false →
  handle_url i entry m out = (out, inr m).
Proof.
  intros Hu Ht. unfold handle_url. rewrite Hu, bind_run. simpl. by rewrite Ht.
Qed.

Lemma handle_phone_empty_run i entry m out p :
  gsx_phone entry = Some p → Js.truthy (Js.trim p) = false →
  handle_phone i entry m out = (out, inr m).
Proof.
  intros Hp Ht. unfold handle_phone. rewrite Hp, bind_run. simpl. by rewrite Ht.
Qed.

Lemma handle_email_empty_run i entry m out e :
  gsx_email entry = Some e → Js.truthy (Js.trim e) = false →
  handle_email i entry m out = (out, inr m).
Proof.
  intros He Ht. unfold handle_email. rewrite He, bind_run. simpl. by rewrite Ht.
Qed.

(** The consoles that the three handlers and the loop over the times see
    and leave, for one row of a feed on which [load] returns. *)
Lemma load_row_trace pre entry post location_search out out' st :
  load (pre ++ entry :: post) location_search out = (out', inr st) →
  ∃ n no u tz t m1 m2 m3 c1 ca cb cc w,
    gsx_timezone entry = Some tz ∧ gsx_times entry = Some t
    ∧ handle_url (length pre) entry (new_meeting n no u) c1 = (ca, inr m1)
    ∧ handle_phone (length pre) entry m1 ca = (cb, inr m2)
    ∧ handle_email (length pre) entry m2 cb = (cc, inr m3)
    ∧ out' = cc ++ ((λ x, warning (length pre) x (lit "time"))
                      <$> invalid_times (Js.trim tz)
                            (stringToTrimmedArray t (ch "010"))) ++ w.
Proof.
  intros (c1 & v1 & c2 & v2 & w & _ & Hentry & ->)%load_row_console.
  apply load_entry_returns in Hentry
    as (n & no & u & f & ty & tz & t & m1 & m2 & m3 & ca & cb & cc & m & _
        & _ & _ & _ & _ & Htz & Ht & Hm1 & Hm2 & Hm3 & _ & _ & _ & _ & ->).
  exists n, no, u, tz, t, m1, m2, m3, c1, ca, cb, cc, w.
  split_and!; try done. by rewrite app_assoc.
Qed.

Lemma one_more_buttons icons (m m' : Meeting.t) :
  one_more icons m m' →
  ∃ bs, Meeting.buttons m' = Meeting.buttons m ++ bs
        ∧ length bs ≤ 1
        ∧ Forall (λ b, Button.icon b ∈ icons) bs.
Proof.
  intros [->|(b & -> & Hb)].
  - exists []. rewrite app_nil_r. split_and!; [done | simpl; lia | constructor].
  - exists [b]. split_and!; [done | simpl; lia | by repeat constructor].
Qed.

(** X6.  A row with an email value that is not empty once trimmed: when
    [validateEmail] accepts it, the handler pushes one button that opens
    [mailto:] followed by the address and writes nothing, and every record
    of the row has exactly that email button; when it does not, the handler
    pushes no button and writes one warning, which is on the console after
    [load], and no record of the row has an email button. *)
Theorem email_button_or_warning
    pre entry post location_search out out' st e :
  load (pre ++ entry :: post) location_search out = (out', inr st) →
  gsx_email entry = Some e →
  Js.truthy (Js.trim e) = true →
  ∃ recs,
    records_of_row pre entry post location_search out st recs
    ∧ if validateEmail (Js.trim e) then
        (∀ m o, handle_email (length pre) entry m o =
                  (o, inr (Meeting.push_button m (email_button (Js.trim e)))))
        ∧ Forall (λ r, buttons_with [Icon.email] r = [email_button (Js.trim e)])
            recs
      else
        (∀ m o, handle_email (length pre) entry m o =
                  (o ++ [warning (length pre) (Js.trim e) (lit "email address")],
                   inr m))
        ∧ Forall (λ r, buttons_with [Icon.email] r = []) recs
        ∧ warning (length pre) (Js.trim e) (lit "email address") ∈ out'.
Proof.
  intros Hload He Ht.
  assert (Hrun := λ m o, handle_email_run (length pre) entry m o e He Ht).
  pose proof Hload as Htrace.
  apply load_row_buttons in Hload
    as (n & no & u & m1 & m2 & m3 & o1 & o2 & o3 & recs & Hm1 & Hm2 & Hm3
        & Hrecs & Hbuttons).
  exists recs. split; [done|].
  apply handle_url_returns in Hm1. apply handle_phone_returns in Hm2.
  assert (Hnone : buttons_with [Icon.email] m2 = []).
  { rewrite (buttons_with_one_more _ _ _ _ Hm2) by icons_apart.
    by rewrite (buttons_with_one_more _ _ _ _ Hm1) by icons_apart. }
  rewrite Hrun in Hm3. destruct (validateEmail (Js.trim e)).
  - injection Hm3 as _ <-. split; [done|].
    eapply Forall_impl; [exact Hbuttons|]. intros r Hr.
    unfold buttons_with at 1. rewrite Hr.
    fold (buttons_with [Icon.email]
            (Meeting.push_button m2 (email_button (Js.trim e)))).
    by rewrite buttons_with_push, Hnone.
  - injection Hm3 as _ <-. split_and!; [done| |].
    + eapply Forall_impl; [exact Hbuttons|]. intros r Hr.
      unfold buttons_with in *. by rewrite Hr.
    + apply load_row_trace in Htrace
        as (? & ? & ? & tz & t & a1 & a2 & a3 & c1 & ca & cb & cc & w & _ & _
            & _ & _ & Ha3 & ->).
      rewrite Hrun in Ha3. injection Ha3 as <- _. rewrite !elem_of_app, ?elem_of_cons; auto 10.
Qed.

(** X7.  A row with a URL that is not empty once trimmed and that the URL
    parser rejects: the handler pushes no button and writes one warning,
    which is on the console after [load], and no record of the row has a
    link or video button. *)
Theorem url_not_parsed_warns
    pre entry post location_search out out' st u :
  load (pre ++ entry :: post) location_search out = (out', inr st) →
  gsx_url entry = Some u →
  Js.truthy (Js.trim u) = true →
  URL_hostname (Js.trim u) = None →
  ∃ recs,
    records_of_row pre entry post location_search out st recs
    ∧ (∀ m o, handle_url (length pre) entry m o =
                (o ++ [warning (length pre) (Js.trim u) (lit "URL")], inr m))
    ∧ Forall (λ r, buttons_with [Icon.link; Icon.video] r = []) recs
    ∧ warning (length pre) (Js.trim u) (lit "URL") ∈ out'.
Proof.
  intros Hload Hu Ht Hh.
  assert (Hrun := λ m o, handle_url_fail_run (length pre) entry m o u Hu Ht Hh).
  pose proof Hload as Htrace.
  apply load_row_buttons in Hload
    as (n & no & u' & m1 & m2 & m3 & o1 & o2 & o3 & recs & Hm1 & Hm2 & Hm3
        & Hrecs & Hbuttons).
  exists recs. split_and!; [done..| |].
  - rewrite Hrun in Hm1. injection Hm1 as _ <-.
    apply handle_phone_returns in Hm2. apply handle_email_returns in Hm3.
    eapply Forall_impl; [exact Hbuttons|]. intros r Hr.
    unfold buttons_with at 1. rewrite Hr.
    fold (buttons_with [Icon.link; Icon.video] m3).
    rewrite (buttons_with_one_more _ _ _ _ Hm3) by icons_apart.
    by rewrite (buttons_with_one_more _ _ _ _ Hm2) by icons_apart.
  - apply load_row_trace in Htrace
      as (? & ? & ? & tz & t & a1 & a2 & a3 & c1 & ca & cb & cc & w & _ & _
          & Ha1 & Ha2 & Ha3 & ->).
    rewrite Hrun in Ha1. injection Ha1 as <- _.
    apply writes_handle_phone in Ha2 as (wp & -> & _).
    apply writes_handle_email in Ha3 as (we & -> & _).
    rewrite !elem_of_app, ?elem_of_cons; auto 10.
Qed.

(** X8.  The buttons of every record come in the order link or video,
    phone, email, with at most one of each: at most three buttons. *)
Theorem buttons_in_order pre entry post location_search out out' st :
  load (pre ++ entry :: post) location_search out = (out', inr st) →
  ∃ recs,
    records_of_row pre entry post location_search out st recs
    ∧ Forall
        (λ r, ∃ bu bp be,
           Meeting.buttons r = bu ++ bp ++ be
           ∧ length bu ≤ 1 ∧ length bp ≤ 1 ∧ length be ≤ 1
           ∧ Forall (λ b, Button.icon b ∈ [Icon.link; Icon.video]) bu
           ∧ Forall (λ b, Button.icon b = Icon.phone) bp
           ∧ Forall (λ b, Button.icon b = Icon.email) be
           ∧ length (Meeting.buttons r) ≤ 3)
        recs.
Proof.
  intros (n & no & u & m1 & m2 & m3 & o1 & o2 & o3 & recs & Hm1 & Hm2 & Hm3
          & Hrecs & Hbuttons)%load_row_buttons.
  exists recs. split; [done|].
  apply handle_url_returns, one_more_buttons in Hm1 as (bu & Eu & Hlu & Hu).
  apply handle_phone_returns, one_more_buttons in Hm2 as (bp & Ep & Hlp & Hp).
  apply handle_email_returns, one_more_buttons in Hm3 as (be & Ee & Hle & He).
  eapply Forall_impl; [exact Hbuttons|]. intros r ->.
  exists bu, bp, be. rewrite Ee, Ep, Eu. simpl.
  split_and!; [by rewrite app_assoc | done.. | | |].
  - eapply Forall_impl; [exact Hp|]. by intros b ->%list_elem_of_singleton.
  - eapply Forall_impl; [exact He|]. by intros b ->%list_elem_of_singleton.
  - rewrite !length_app. lia.
Qed.

(** X9.  A row whose URL, phone and email values are empty once trimmed:
    the three handlers push nothing and write nothing, and no record of the
    row has a button. *)
Theorem blank_contacts_no_button
    pre entry post location_search out out' st u p e :
  load (pre ++ entry :: post) location_search out = (out', inr st) →
  gsx_url entry = Some u → Js.trim u = [] →
  gsx_phone entry = Some p → Js.trim p = [] →
  gsx_email entry = Some e → Js.trim e = [] →
  ∃ recs,
    records_of_row pre entry post location_search out st recs
    ∧ (∀ m o, handle_url (length pre) entry m o = (o, inr m)
              ∧ handle_phone (length pre) entry m o = (o, inr m)
              ∧ handle_email (length pre) entry m o = (o, inr m))
    ∧ Forall (λ r, Meeting.buttons r = []) recs.
Proof.
  intros Hload Hu Hut Hp Hpt He Het.
  assert (Hrun : ∀ m o, handle_url (length pre) entry m o = (o, inr m)
                        ∧ handle_phone (length pre) entry m o = (o, inr m)
                        ∧ handle_email (length pre) entry m o = (o, inr m)).
  { intros m o. split_and!.
    - apply (handle_url_empty_run _ _ _ _ u Hu). by rewrite Hut.
    - apply (handle_phone_empty_run _ _ _ _ p Hp). by rewrite Hpt.
    - apply (handle_email_empty_run _ _ _ _ e He). by rewrite Het. }
  apply load_row_buttons in Hload
    as (n & no & u' & m1 & m2 & m3 & o1 & o2 & o3 & recs & Hm1 & Hm2 & Hm3
        & Hrecs & Hbuttons).
  exists recs. split_and!; [done..|].
  destruct (Hrun (new_meeting n no u') out) as (Eu & _ & _).
  rewrite Eu in Hm1. injection Hm1 as _ <-.
  destruct (Hrun (new_meeting n no u') o1) as (_ & Ep & _).
  rewrite Ep in Hm2. injection Hm2 as _ <-.
  destruct (Hrun (new_meeting n no u') o2) as (_ & _ & Ee).
  rewrite Ee in Hm3. injection Hm3 as _ <-.
  exact Hbuttons.
Qed.

(** X10.  On a feed on which [load] returns, every field that is not valid
    is reported: the warning for it, with the index of its row, is on the
    console. *)
Theorem malformed_is_reported
    data location_search out out' st i entry value kind :
  load data location_search out = (out', inr st) →
  data !! i = Some entry →
  malformed entry value kind →
  warning i value kind ∈ out'.
Proof.
  intros Hload Hi Hbad.
  rewrite <- (take_drop_middle data i entry Hi) in Hload.
  assert (Hlen : length (take i data) = i).
  { apply length_take_le. apply lookup_lt_Some in Hi. lia. }
  apply load_row_trace in Hload
    as (n & no & u0 & tz & t & m1 & m2 & m3 & c1 & ca & cb & cc & w & Htz
        & Ht & Hm1 & Hm2 & Hm3 & ->).
  rewrite Hlen in *.
  destruct Hbad as [(-> & u & Hu & -> & Htr & Hh)
                   |[(-> & p & Hp & -> & Htr & Hd)
                   |[(-> & e & He & -> & Htr & Hv)
                   |(-> & tz' & t' & Htz' & Ht' & Hin & Hv)]]].
  - rewrite (handle_url_fail_run _ _ _ _ u Hu Htr Hh) in Hm1.
    injection Hm1 as <- _.
    apply writes_handle_phone in Hm2 as (wp & -> & _).
    apply writes_handle_email in Hm3 as (we & -> & _). rewrite !elem_of_app, ?elem_of_cons; auto 10.
  - rewrite (handle_phone_run _ _ _ _ p Hp Htr) in Hm2. cbv zeta in Hm2.
    apply Nat.ltb_ge in Hd. rewrite Hd in Hm2. injection Hm2 as <- _.
    apply writes_handle_email in Hm3 as (we & -> & _). rewrite !elem_of_app, ?elem_of_cons; auto 10.
  - rewrite (handle_email_run _ _ _ _ e He Htr), Hv in Hm3.
    injection Hm3 as <- _. rewrite !elem_of_app, ?elem_of_cons; auto 10.
  - rewrite Htz in Htz'. rewrite Ht in Ht'.
    injection Htz' as <-. injection Ht' as <-.
    assert (warning i value (lit "time")
            ∈ (λ x, warning i x (lit "time"))
                <$> invalid_times (Js.trim tz) (stringToTrimmedArray t (ch "010"))).
    { apply list_elem_of_fmap. exists value. split; [done|].
      unfold invalid_times. apply list_elem_of_In, filter_In.
      split; [by apply list_elem_of_In|]. by rewrite Hv. }
    rewrite !elem_of_app. auto.
Qed.
End contact.

(** ** Addresses that [validateEmail] accepts *)

Section accepted.

Lemma matches_star_class p s :
  all_chars p s = true → regex_matches (Regex.Star (Regex.Class p)) s.
Proof.
  induction s as [|c s IH]; simpl; [constructor|].
  intros [Hc Hs]%andb_true_iff.
  change (c :: s) with ([c] ++ s).
  constructor; [by constructor | auto].
Qed.

Lemma matches_plus_class p s :
  s ≠ [] → all_chars p s = true →
  regex_matches (Regex.plus (Regex.Class p)) s.
Proof.
  destruct s as [|c s]; [done|]. simpl. intros _ [Hc Hs]%andb_true_iff.
  change (c :: s) with ([c] ++ s).
  constructor; [by constructor | by apply matches_star_class].
Qed.

Lemma matches_chr c : regex_matches (Regex.chr c) [c].
Proof. constructor. apply N.eqb_refl. Qed.

Lemma matches_label l :
  l ≠ [] → all_chars EmailPattern.label_char l = true →
  regex_matches
    (Regex.Seq (Regex.plus (Regex.Class EmailPattern.label_char))
               (Regex.chr (ch ".")))
    (l ++ lit ".").
Proof.
  intros Hl Hc. constructor; [by apply matches_plus_class | apply matches_chr].
Qed.

Lemma matches_labels labels :
  Forall (λ l, l ≠ []
               ∧ all_chars EmailPattern.label_char l = true) labels →
  regex_matches
    (Regex.Star (Regex.Seq (Regex.plus (Regex.Class EmailPattern.label_char))
                           (Regex.chr (ch "."))))
    (dotted labels).
Proof.
  induction 1 as [|l labels [Hl Hc] _ IH]; [constructor|].
  cbn [dotted fold_right]. rewrite app_assoc.
  constructor; [by apply matches_label | done].
Qed.

Lemma matches_rep_2 p s :
  2 ≤ length s → all_chars p s = true →
  regex_matches (Regex.rep_2_ (Regex.Class p)) s.
Proof.
  destruct s as [|a [|b s]]; simpl; [lia..|].
  intros _ [Ha [Hb Hs]%andb_true_iff]%andb_true_iff.
  change ((a :: (b :: s)))
    with ([a] ++ [b] ++ s).
  constructor; [by constructor|].
  constructor; [by constructor | by apply matches_star_class].
Qed.

Lemma matches_after_dots atoms :
  Forall (λ a, a ≠ []
               ∧ all_chars (λ c, is_ascii c && EmailPattern.atom_char c) a
                 = true) atoms →
  regex_matches
    (Regex.Star (Regex.Seq (Regex.chr (ch "."))
                           (Regex.plus (Regex.Class EmailPattern.atom_char))))
    (after_dots atoms).
Proof.
  induction 1 as [|a atoms [Ha Hc] _ IH]; [constructor|].
  cbn [after_dots fold_right]. rewrite app_assoc.
  constructor; [|done]. constructor; [apply matches_chr|].
  apply matches_plus_class; [done|].
  eapply all_chars_mono; [|exact Hc]. by intros c [_ ?]%andb_true_iff.
Qed.

(** X11.  [validateEmail] accepts every address whose local part is one or
    more atoms separated by dots, each a non-empty text of ASCII characters
    other than white space, the at sign and the punctuation that the
    pattern excludes, and whose domain is one or more labels of letters,
    digits and hyphens, each followed by a dot, and then two or more ASCII
    letters. *)
Theorem validateEmail_accepts atom atoms label labels tld :
  Forall (λ a, a ≠ []
               ∧ all_chars (λ c, is_ascii c && EmailPattern.atom_char c) a
                 = true)
    (atom :: atoms) →
  Forall (λ l, l ≠ []
               ∧ all_chars EmailPattern.label_char l = true)
    (label :: labels) →
  2 ≤ length tld →
  all_chars Js.is_alpha tld = true →
  validateEmail ((atom ++ after_dots atoms)
                 ++ lit "@" ++ dotted (label :: labels) ++ tld) = true.
Proof.
  intros [[Hatom Hc] Hatoms]%Forall_cons Hlabels Hlen Htld. apply test_spec.
  constructor.
  - apply matches_alt_l. constructor; [|by apply matches_after_dots].
    apply matches_plus_class; [done|].
    eapply all_chars_mono; [|exact Hc]. by intros c [_ ?]%andb_true_iff.
  - constructor; [apply matches_chr|].
    apply matches_alt_r. constructor; [|by apply matches_rep_2].
    apply Forall_cons in Hlabels as [[Hl Hlc] Hrest].
    cbn [dotted fold_right]. rewrite app_assoc.
    constructor; [by apply matches_label | by apply matches_labels].
Qed.
End accepted.

(** ** The query string and the filters *)

Section query.
Context `{Config} `{Host}.

Lemma filters_lookup (d f t : list Tag.t) k :
  (<[lit "days" := d]> (<[lit "formats" := f]> (<[lit "types" := t]> ∅))
     : gmap jstring (list Tag.t)) !! k
  = if decide (lit "days" = k) then Some d
    else if decide (lit "formats" = k) then Some f
    else if decide (lit "types" = k) then Some t else None.
Proof. by rewrite !lookup_insert, lookup_empty. Qed.

Lemma forEach_read_pair_error pairs query out :
  ∃ result,
    forEach read_pair pairs query out = (out, result)
    ∧ match first_error pairs with
      | Some e => result = inl e
      | None => ∃ query', result = inr query'
      end.
Proof.
  revert query. induction pairs as [|p pairs IH]; intros query.
  - eexists. split; [done|]. simpl. eauto.
  - cbn [forEach first_error]. rewrite bind_run, read_pair_outcome.
    unfold pair_error.
    destruct (Js.split (ch "=") p) as [|key [|value rest]]; [by eexists..|].
    destruct (forallb _ (Js.split (ch ",") value)); [apply IH | by eexists].
Qed.

Lemma read_query_error location_search out :
  ∃ result,
    read_query location_search out = (out, result)
    ∧ match query_error location_search with
      | Some e => result = inl e
      | None => ∃ query, result = inr query
      end.
Proof.
  unfold read_query, query_error. destruct (1 <? _)%nat.
  - apply forEach_read_pair_error.
  - eexists. split; [done|]. eauto.
Qed.

Lemma read_query_console location_search out out' result :
  read_query location_search out = (out', result) → out' = out.
Proof.
  intros Hq. destruct (read_query_error location_search out) as (r & Hr & _).
  rewrite Hq in Hr. by injection Hr as -> _.
Qed.

Lemma read_query_short location_search out :
  length location_search ≤ 1 →
  read_query location_search out = (out, inr ∅).
Proof.
  intros Hlen. unfold read_query.
  by assert ((1 <? length location_search)%nat = false) as ->
    by by apply Nat.ltb_ge.
Qed.

Lemma recheck_arrayToTagsArray array values values' :
  recheck values' (arrayToTagsArray array values)
  = arrayToTagsArray array values'.
Proof.
  unfold recheck, arrayToTagsArray. rewrite <- list_fmap_compose.
  by apply list_fmap_ext.
Qed.

(** X12.  The state that [load] returns has the three categories [days],
    [formats] and [types] and no other.  The tags of [days] are the days of
    the configuration in their order there, each checked exactly when the
    query string preselects it; the other fields are the page size of the
    configuration, no search terms, not loading, and the guessed zone. *)
Theorem days_follow_configuration data location_search out out' st :
  load data location_search out = (out', inr st) →
  dom (State.filters st) = {[lit "days"; lit "formats"; lit "types"]}
  ∧ (∃ query ds,
       read_query location_search out' = (out', inr query)
       ∧ State.filters st !! (lit "days") = Some ds
       ∧ Tag.tag <$> ds = days
       ∧ ∀ t, t ∈ ds →
              (Tag.checked t = true ↔ Tag.tag t ∈ preselection query (lit "days")))
  ∧ State.limit st = meetingsPerPage
  ∧ State.loading st = false
  ∧ State.search st = []
  ∧ State.timezone st = moment_tz_guess.
Proof.
  intros (o & vars & query & _ & Hq & ->)%load_returns.
  cbn [State.filters State.limit State.loading State.search State.timezone].
  pose proof (read_query_console _ _ _ _ Hq) as ->.
  split_and!; [by rewrite !dom_insert_L, dom_empty_L, (right_id_L ∅ (∪))
              | | done..].
  exists query, (arrayToTagsArray days (preselection query (lit "days"))).
  split_and!; [done | by rewrite lookup_insert_eq
              | apply arrayToTagsArray_tags |].
  intros t (tag & -> & _)%list_elem_of_fmap. cbn. apply includes_spec.
Qed.

(** X13.  With a query string of at most one character, on a feed of
    readable rows, [load] returns and no tag of any category is checked. *)
Theorem short_query_checks_nothing data location_search out :
  length location_search ≤ 1 →
  forallb readable data = true →
  ∃ out' st,
    load data location_search out = (out', inr st)
    ∧ ∀ k ts t, State.filters st !! k = Some ts → t ∈ ts →
                Tag.checked t = false.
Proof.
  intros Hlen Hdata.
  pose proof (load_entries_outcome 0 data no_locals out) as Hl.
  rewrite Hdata in Hl. destruct Hl as (o & vars & Hl).
  exists o. eexists. split.
  - apply load_returns. exists o, vars, ∅.
    split_and!; [done | by apply read_query_short | reflexivity].
  - cbn. intros k ts t. rewrite filters_lookup. unfold preselection.
    rewrite lookup_empty. cbn.
    assert (∀ array, t ∈ arrayToTagsArray array [] → Tag.checked t = false)
      as Hnone by by intros array (tag & -> & _)%list_elem_of_fmap.
    repeat case_decide; intros [= <-]; apply Hnone.
Qed.

(** X14.  On a feed of readable rows the query string alone decides
    whether [load] throws, and what: a [TypeError] when the first pair that
    fails holds no equals sign, a [URIError] when an item of its value does
    not decode.  The console is then as it is for an empty query string:
    the rows are walked, and their warnings written, before the query
    string is read. *)
Theorem query_error_thrown data location_search out :
  forallb readable data = true →
  ∃ out' st0,
    load data [] out = (out', inr st0)
    ∧ match query_error location_search with
      | Some e => load data location_search out = (out', inl e)
      | None => ∃ st, load data location_search out = (out', inr st)
      end.
Proof.
  intros Hdata.
  pose proof (load_entries_outcome 0 data no_locals out) as Hl.
  rewrite Hdata in Hl. destruct Hl as (o & vars & Hl).
  exists o. eexists. split.
  - apply load_returns. exists o, vars, ∅.
    split_and!; [done | by apply read_query_short; simpl; lia | reflexivity].
  - destruct (read_query_error location_search o) as (result & Hq & Hr).
    destruct (query_error location_search) as [e|].
    + subst result. unfold load. fold no_locals.
      by rewrite bind_run, Hl, bind_run, Hq.
    + destruct Hr as [query ->]. eexists. apply load_returns.
      exists o, vars, query. split_and!; [done..|reflexivity].
Qed.

(** X15.  The query string changes the checks of the tags and nothing
    else: for two query strings on which [load] returns, the console, the
    records and the tags of every category are the same. *)
Theorem query_only_checks data q1 q2 out out1 out2 st1 st2 :
  load data q1 out = (out1, inr st1) →
  load data q2 out = (out2, inr st2) →
  out2 = out1
  ∧ State.meetings st2 = State.meetings st1
  ∧ ∀ k, fmap Tag.tag <$> State.filters st2 !! k
         = fmap Tag.tag <$> State.filters st1 !! k.
Proof.
  intros (o1 & v1 & query1 & Hl1 & Hq1 & ->)%load_returns
         (o2 & v2 & query2 & Hl2 & Hq2 & ->)%load_returns.
  rewrite Hl1 in Hl2. injection Hl2 as <- <-.
  apply read_query_console in Hq1 as ->.
  apply read_query_console in Hq2 as ->.
  split_and!; [done..|]. intros k. cbn. rewrite !filters_lookup.
  repeat case_decide; cbn; by rewrite ?arrayToTagsArray_tags.
Qed.

(** X16.  The last pair of a category wins.  One more pair
    [key=value] at the end of a query string of two characters or more,
    for one of the three categories and with a value whose items decode,
    leaves the console and the records as they are and replaces the checks
    of that category: a tag of it is checked exactly when it is one of the
    decoded items, whatever the pairs before held for the key. *)
Theorem last_pair_wins data location_search key value out out' st :
  load data location_search out = (out', inr st) →
  1 < length location_search →
  key ∈ [lit "days"; lit "formats"; lit "types"] →
  all_chars (λ c, negb (N.eqb c (ch "&")) && negb (N.eqb c (ch "="))) value
    = true →
  Forall (λ item, is_Some (decodeURIComponent item)) (Js.split (ch ",") value) →
  ∃ st' ts,
    load data (location_search ++ lit "&" ++ key ++ lit "=" ++ value) out
      = (out', inr st')
    ∧ State.meetings st' = State.meetings st
    ∧ State.filters st !! key = Some ts
    ∧ State.filters st' = <[key := recheck (decoded value) ts]> (State.filters st).
Proof.
  intros (o & vars & query & Hl & Hq & ->)%load_returns Hlen Hkey Hvalue Hitems.
  pose proof (read_query_console _ _ _ _ Hq) as ->.
  assert (Hamp : all_chars (λ c, negb (N.eqb c (ch "&"))) value = true).
  { eapply all_chars_mono; [|exact Hvalue]. by intros c [? _]%andb_true_iff. }
  assert (Heq : all_chars (λ c, negb (N.eqb c (ch "="))) value = true).
  { eapply all_chars_mono; [|exact Hvalue]. by intros c [_ ?]%andb_true_iff. }
  assert (Hdecodes :
            forallb (λ item, bool_decide (is_Some (decodeURIComponent item)))
              (Js.split (ch ",") value) = true).
  { apply forallb_forall. intros item Hin%list_elem_of_In.
    apply bool_decide_eq_true. by eapply Forall_forall in Hitems. }
  assert (Hkey' : all_chars (λ c, negb (N.eqb c (ch "&"))) key = true
                  ∧ all_chars (λ c, negb (N.eqb c (ch "="))) key = true).
  { rewrite !elem_of_cons, elem_of_nil in Hkey.
    destruct Hkey as [->|[->|[->|[]]]]; by vm_compute. }
  destruct Hkey' as [Hkamp Hkeq].
  assert (Hsplit : Js.split (ch "=") (key ++ lit "=" ++ value) = [key; value]).
  { change (key ++ lit "=" ++ value) with (key ++ (ch "=" :: value)).
    by rewrite split_append, !split_without_separator. }
  assert (Hq' : read_query (location_search ++ lit "&" ++ key ++ lit "=" ++ value) o
                = (o, inr (<[key := decoded value]> query))).
  { unfold read_query in *.
    assert ((1 <? length location_search)%nat = true) as Hlen'
      by by apply Nat.ltb_lt.
    rewrite Hlen' in Hq.
    assert ((1 <? length
                    (location_search ++ lit "&" ++ key ++ lit "=" ++ value))%nat
            = true) as ->.
    { apply Nat.ltb_lt. rewrite length_app. lia. }
    assert (Js.substr1 (location_search ++ lit "&" ++ key ++ lit "=" ++ value)
            = Js.substr1 location_search
                ++ (ch "&" :: (key ++ lit "=" ++ value))) as ->.
    { destruct location_search; [simpl in Hlen; lia | done]. }
    rewrite split_append, (split_without_separator _ (key ++ lit "=" ++ value)).
    - rewrite forEach_app, bind_run, Hq. cbn [forEach]. rewrite bind_run.
      by rewrite read_pair_outcome, Hsplit, Hdecodes.
    - change (key ++ lit "=" ++ value) with (key ++ (ch "=" :: value)).
      rewrite all_chars_append, Hkamp. simpl. exact Hamp. }
  rewrite !elem_of_cons, elem_of_nil in Hkey.
  destruct Hkey as [->|[->|[->|[]]]].
  all: eexists; eexists; split_and!;
    [ eapply (proj2 (load_returns _ _ _ _ _)); eexists o, vars, _;
      split_and!; [exact Hl | exact Hq' | reflexivity]
    | done
    | cbn [State.filters]; rewrite filters_lookup;
      repeat case_decide; simplify_eq; reflexivity
    | cbn [State.filters]; apply map_eq; intros k;
      unfold preselection; rewrite !lookup_insert, !lookup_empty;
      repeat case_decide; subst; try done;
      by rewrite recheck_arrayToTagsArray ].
Qed.
End query.

(** ** The records of a feed *)

Section count.
Context `{Config} `{Host}.

Lemma length_row_records entry m tz t :
  gsx_timezone entry = Some tz → gsx_times entry = Some t →
  length (row_records m (Js.trim tz) (stringToTrimmedArray t (ch "010")))
  = record_count entry.
Proof.
  intros Htz Ht. unfold row_records, record_count. rewrite Htz, Ht.
  destruct (stringToTrimmedArray t (ch "010")) as [|x l]; [done|].
  cbn [length Nat.ltb Nat.leb]. by rewrite length_fmap.
Qed.

Lemma load_entries_count i entries vars out out' vars' :
  load_entries i entries vars out = (out', inr vars') →
  length (meetings vars')
  = length (meetings vars) + sum_list (record_count <$> entries).
Proof.
  revert i vars out. induction entries as [|entry rest IH]; intros i vars out.
  - intros [= _ <-]. simpl. lia.
  - cbn [load_entries]. intros (v & o & Hentry & Hrest)%bind_returns.
    apply IH in Hrest. rewrite Hrest.
    apply load_entry_returns in Hentry
      as (n & no & u & f & ty & tz & t & m1 & m2 & m3 & o1 & o2 & o3 & m & _
          & _ & _ & _ & _ & Htz & Ht & _ & _ & _ & _ & -> & _).
    rewrite length_app, (length_row_records entry m tz t Htz Ht).
    cbn [fmap list_fmap sum_list]. simpl. lia.
Qed.

(** X17.  The number of records is the sum over the rows of the feed: one
    for a row without time expressions, and for any other row the number
    of its time expressions that parse, none when none does. *)
Theorem records_counted data location_search out out' st :
  load data location_search out = (out', inr st) →
  length (State.meetings st) = sum_list (record_count <$> data).
Proof.
  intros (o & vars & query & Hl & _ & ->)%load_returns. cbn.
  by apply load_entries_count in Hl.
Qed.

(** X18.  The loop stops at the first row with a field missing: whatever
    rows follow it and whatever the query string, [load] throws the same
    [TypeError] and leaves the same console. *)
Theorem unreadable_row_stops pre bad out :
  readable bad = false →
  ∃ out', ∀ post location_search,
    load (pre ++ bad :: post) location_search out = (out', inl TypeError).
Proof.
  intros Hbad.
  pose proof (load_entries_outcome 0 pre no_locals out) as Hpre.
  destruct (forallb readable pre).
  - destruct Hpre as (o & v & Hpre).
    pose proof (load_entry_outcome (length pre) bad v o) as Hentry.
    rewrite Hbad in Hentry. destruct Hentry as [o' Hentry].
    exists o'. intros post location_search. unfold load. fold no_locals.
    rewrite bind_run, load_entries_app, bind_run, Hpre. cbn [load_entries].
    by rewrite bind_run, Nat.add_0_l, Hentry.
  - destruct Hpre as [o' Hpre].
    exists o'. intros post location_search. unfold load. fold no_locals.
    by rewrite bind_run, load_entries_app, bind_run, Hpre.
Qed.

Lemma one_more_fields icons (m m' : Meeting.t) :
  one_more icons m m' →
  Meeting.name m' = Meeting.name m
  ∧ Meeting.notes m' = Meeting.notes m
  ∧ Meeting.updated m' = Meeting.updated m.
Proof. by intros [->|(b & -> & _)]. Qed.

(** X19.  Every record of a row carries the notes of the row as its
    non-empty trimmed lines, and the text of the [updated] field as it is
    in the feed, not trimmed. *)
Theorem record_notes_and_updated pre entry post location_search out out' st :
  load (pre ++ entry :: post) location_search out = (out', inr st) →
  ∃ no u recs,
    gsx_notes entry = Some no ∧ updated entry = Some u
    ∧ records_of_row pre entry post location_search out st recs
    ∧ Forall (λ r, Meeting.notes r = stringToTrimmedArray no (ch "010")
                   ∧ Meeting.updated r = u) recs.
Proof.
  intros (o1 & st1 & o2 & st2 & o3 & vars & Hpre & Hpost & Hentry & Hst)%load_row.
  apply load_entry_returns in Hentry
    as (n & no & u & f & ty & tz & t & m1 & m2 & m3 & c1 & c2 & c3 & m & _
        & Hno & Hu & _ & _ & _ & _ & Hm1 & Hm2 & Hm3 & -> & Hrecs & _).
  exists no, u, (row_records
                   (Meeting.set_search
                      (Meeting.set_tags m3
                         (stringToTrimmedArray f (ch ",")
                            ++ stringToTrimmedArray ty (ch ",")))
                      (search_index (Js.trim n)))
                   (Js.trim tz) (stringToTrimmedArray t (ch "010"))).
  split_and!; [done..| |].
  - exists o1, st1, o2, st2. split_and!; [done..|]. by rewrite Hst, Hrecs.
  - apply handle_url_returns, one_more_fields in Hm1 as (_ & Hn1 & Hu1).
    apply handle_phone_returns, one_more_fields in Hm2 as (_ & Hn2 & Hu2).
    apply handle_email_returns, one_more_fields in Hm3 as (_ & Hn3 & Hu3).
    eapply Forall_impl; [apply row_records_same_but_time|].
    intros r (_ & _ & -> & -> & _). cbn.
    by rewrite Hn3, Hn2, Hn1, Hu3, Hu2, Hu1.
Qed.
End count.

(** ** The console, line by line *)

Section console.
Context `{Config} `{Host}.

Lemma handle_url_console i entry m out out' m' :
  handle_url i entry m out = (out', inr m') →
  out' = out ++ match gsx_url entry with
                | Some u =>
                    if Js.truthy (Js.trim u)
                       && bool_decide (URL_hostname (Js.trim u) = None)
                    then [warning i (Js.trim u) (lit "URL")] else []
                | None => []
                end.
Proof.
  unfold handle_url. rewrite bind_run.
  destruct (gsx_url entry) as [u|]; [|done]. simpl.
  destruct (Js.truthy (Js.trim u)); simpl.
  - destruct (URL_hostname (Js.trim u)) as [h|]; simpl.
    + destruct (matching_services h); intros [= <- _]; by rewrite app_nil_r.
    + by intros [= <- _].
  - intros [= <- _]. by rewrite app_nil_r.
Qed.

Lemma handle_phone_console i entry m out out' m' :
  handle_phone i entry m out = (out', inr m') →
  out' = out ++ match gsx_phone entry with
                | Some p =>
                    if Js.truthy (Js.trim p)
                       && (length (Js.strip_non_digits (Js.trim p))
                           <=? 8)%nat
                    then [warning i (Js.trim p) (lit "phone number")] else []
                | None => []
                end.
Proof.
  unfold handle_phone. rewrite bind_run.
  destruct (gsx_phone entry) as [p|]; [|done]. simpl.
  destruct (Js.truthy (Js.trim p)); simpl.
  - rewrite Nat.leb_antisym. destruct (8 <? _)%nat; simpl.
    + rewrite bind_run. destruct (gsx_accesscode entry); [|done]. simpl.
      intros [= <- _]. by rewrite app_nil_r.
    + by intros [= <- _].
  - intros [= <- _]. by rewrite app_nil_r.
Qed.

Lemma handle_email_console i entry m out out' m' :
  handle_email i entry m out = (out', inr m') →
  out' = out ++ match gsx_email entry with
                | Some e =>
                    if Js.truthy (Js.trim e)
                       && negb (validateEmail (Js.trim e))
                    then [warning i (Js.trim e) (lit "email address")] else []
                | None => []
                end.
Proof.
  unfold handle_email. rewrite bind_run.
  destruct (gsx_email entry) as [e|]; [|done]. simpl.
  destruct (Js.truthy (Js.trim e)); simpl.
  - destruct (validateEmail (Js.trim e)); simpl; intros [= <- _];
      by rewrite ?app_nil_r.
  - intros [= <- _]. by rewrite app_nil_r.
Qed.

Lemma load_entry_console i entry vars out out' vars' :
  load_entry i entry vars out = (out', inr vars') →
  out' = out ++ row_warnings i entry.
Proof.
  intros (n & no & u & f & ty & tz & t & m1 & m2 & m3 & o1 & o2 & o3 & m & _
          & _ & _ & _ & _ & Htz & Ht & Hm1 & Hm2 & Hm3 & _ & _ & _ & _ & ->)
         %load_entry_returns.
  apply handle_url_console in Hm1 as ->.
  apply handle_phone_console in Hm2 as ->.
  apply handle_email_console in Hm3 as ->.
  unfold row_warnings. rewrite Htz, Ht. by rewrite <- !app_assoc.
Qed.

Lemma load_entries_console i entries vars out out' vars' :
  load_entries i entries vars out = (out', inr vars') →
  out' = out ++ concat (imap (λ j, row_warnings (i + j)) entries).
Proof.
  revert i vars out. induction entries as [|entry rest IH]; intros i vars out.
  - intros [= <- _]. by rewrite app_nil_r.
  - cbn [load_entries]. intros (v & o & Hentry & Hrest)%bind_returns.
    apply load_entry_console in Hentry as ->. apply IH in Hrest as ->.
    rewrite imap_cons, Nat.add_0_r. cbn [concat]. rewrite <- app_assoc.
    do 3 f_equal. apply imap_ext. intros j x _. simpl. f_equal. lia.
Qed.

(** X20.  The console after [load] is the console before it followed by
    the warnings of the rows in the order of the feed, and for each row in
    the order URL, phone number, email address, time expressions: no other
    line is written, and none is left out. *)
Theorem console_in_feed_order data location_search out out' st :
  load data location_search out = (out', inr st) →
  out' = out ++ concat (imap row_warnings data).
Proof.
  intros (o & vars & query & Hl & Hq & _)%load_returns.
  apply read_query_console in Hq as ->.
  by apply load_entries_console in Hl.
Qed.
End console.

(** ** Tokens of a text in two parts *)

(** X21.  The tokens of two texts joined by the separator are the tokens
    of the first followed by the tokens of the second. *)
Theorem stringToTrimmedArray_append a b sep :
  stringToTrimmedArray (a ++ (sep :: b)) sep
  = stringToTrimmedArray a sep ++ stringToTrimmedArray b sep.
Proof.
  unfold stringToTrimmedArray.
  by rewrite split_append, fmap_app, List.filter_app.
Qed.

(** ** The further properties on sample rows *)

Section further_samples.
#[local] Existing Instances Sample.config Sample.moment_type Sample.host.

Ltac value_in t H :=
  let v := eval vm_compute in t in
  replace t with v in H by (vm_compute; reflexivity).

(** An address that [validateEmail] accepts: one email button. *)
Lemma email_button_or_warning_witness :
  ∃ out st, Sample.run [Sample.with_email] [] = (out, inr st)
    ∧ ∃ recs,
        records_of_row [] Sample.with_email [] [] [] st recs
        ∧ (∀ m o, handle_email 0 Sample.with_email m o =
                    (o, inr (Meeting.push_button m
                               (email_button (lit "info@example.org")))))
        ∧ Forall (λ r, buttons_with [Icon.email] r =
                         [email_button (lit "info@example.org")]) recs.
Proof.
  destruct (Sample.run [Sample.with_email] []) as [out [e|st]] eqn:E.
  - exfalso. vm_compute in E. discriminate E.
  - exists out, st. split; [reflexivity|].
    pose proof (@email_button_or_warning Sample.config Sample.moment_type
                  Sample.host [] Sample.with_email [] [] [] out st
                  (lit "info@example.org") E eq_refl eq_refl) as Hthm.
    value_in (validateEmail (Js.trim (lit "info@example.org"))) Hthm.
    value_in (Js.trim (lit "info@example.org")) Hthm.
    exact Hthm.
Defined.

(** A text that is no address: a warning and no email button. *)
Example bad_email_warns :
  ∃ out st m, Sample.run [Sample.bad_email] [] = (out, inr st)
    ∧ out = [warning 0 (lit "info at example") (lit "email address")]
    ∧ State.meetings st = [m]
    ∧ Meeting.buttons m = [].
Proof.
  destruct (Sample.run _ _) as [out [e|st]] eqn:E; evaluated E.
  eexists _, _, _. split; [reflexivity|]. split_and!; by vm_compute.
Qed.

(** A URL value that is no URL: a warning and no link or video button. *)
Lemma url_not_parsed_warns_witness :
  ∃ out st, Sample.run [Sample.bad_link] [] = (out, inr st)
    ∧ ∃ recs,
        records_of_row [] Sample.bad_link [] [] [] st recs
        ∧ (∀ m o, handle_url 0 Sample.bad_link m o =
                    (o ++ [warning 0 (lit "chiedere al gruppo") (lit "URL")], inr m))
        ∧ Forall (λ r, buttons_with [Icon.link; Icon.video] r = []) recs
        ∧ warning 0 (lit "chiedere al gruppo") (lit "URL") ∈ out.
Proof.
  destruct (Sample.run [Sample.bad_link] []) as [out [e|st]] eqn:E.
  - exfalso. vm_compute in E. discriminate E.
  - exists out, st. split; [reflexivity|].
    pose proof (@url_not_parsed_warns Sample.config Sample.moment_type
                  Sample.host [] Sample.bad_link [] [] [] out st
                  (lit "chiedere al gruppo") E eq_refl eq_refl eq_refl) as Hthm.
    value_in (Js.trim (lit "chiedere al gruppo")) Hthm.
    exact Hthm.
Defined.

(** A row with a link to a video service, a phone number and an email
    address: three buttons, in that order. *)
Lemma buttons_in_order_witness :
  ∃ out st, Sample.run [Sample.with_contacts] [] = (out, inr st)
    ∧ ∃ recs,
        records_of_row [] Sample.with_contacts [] [] [] st recs
        ∧ Forall
            (λ r, ∃ bu bp be,
               Meeting.buttons r = bu ++ bp ++ be
               ∧ length bu ≤ 1 ∧ length bp ≤ 1 ∧ length be ≤ 1
               ∧ Forall (λ b, Button.icon b ∈ [Icon.link; Icon.video]) bu
               ∧ Forall (λ b, Button.icon b = Icon.phone) bp
               ∧ Forall (λ b, Button.icon b = Icon.email) be
               ∧ length (Meeting.buttons r) ≤ 3)
            recs.
Proof.
  destruct (Sample.run [Sample.with_contacts] [])
    as [out [e|st]] eqn:E.
  - exfalso. vm_compute in E. discriminate E.
  - exists out, st. split; [reflexivity|].
    exact (@buttons_in_order Sample.config Sample.moment_type Sample.host
             [] Sample.with_contacts [] [] [] out st E).
Defined.

Example with_contacts_buttons :
  ∃ out st m, Sample.run [Sample.with_contacts] [] = (out, inr st)
    ∧ State.meetings st = [m]
    ∧ Button.icon <$> Meeting.buttons m = [Icon.video; Icon.phone; Icon.email].
Proof.
  destruct (Sample.run _ _) as [out [e|st]] eqn:E; evaluated E.
  eexists _, _, _. split; [reflexivity|]. split_and!; by vm_compute.
Qed.

(** A row with empty contact fields: no button. *)
Lemma blank_contacts_no_button_witness :
  ∃ out st, Sample.run [Sample.ongoing] [] = (out, inr st)
    ∧ ∃ recs,
        records_of_row [] Sample.ongoing [] [] [] st recs
        ∧ (∀ m o, handle_url 0 Sample.ongoing m o = (o, inr m)
                  ∧ handle_phone 0 Sample.ongoing m o = (o, inr m)
                  ∧ handle_email 0 Sample.ongoing m o = (o, inr m))
        ∧ Forall (λ r, Meeting.buttons r = []) recs.
Proof.
  destruct (Sample.run [Sample.ongoing] []) as [out [e|st]] eqn:E.
  - exfalso. vm_compute in E. discriminate E.
  - exists out, st. split; [reflexivity|].
    exact (@blank_contacts_no_button Sample.config Sample.moment_type
             Sample.host [] Sample.ongoing [] [] [] out st
             [] [] []
             E eq_refl eq_refl eq_refl eq_refl eq_refl eq_refl).
Defined.

(** A field that is not valid is on the console. *)
Lemma malformed_is_reported_witness :
  ∃ out st, Sample.run [Sample.short_phone] [] = (out, inr st)
    ∧ warning 0 (lit "555-1234") (lit "phone number") ∈ out.
Proof.
  destruct (Sample.run [Sample.short_phone] []) as [out [e|st]] eqn:E.
  - exfalso. vm_compute in E. discriminate E.
  - exists out, st. split; [reflexivity|].
    apply (@malformed_is_reported Sample.config Sample.moment_type
             Sample.host [Sample.short_phone] [] [] out st 0
             Sample.short_phone (lit "555-1234") (lit "phone number") E eq_refl).
    right. left. split; [reflexivity|]. exists (lit "555-1234").
    split_and!; [reflexivity.. | vm_compute; lia].
Defined.

(** The shape of an accepted address. *)
Lemma validateEmail_shape_witness :
  validateEmail (lit "info@example.org") = true
  ∧ ∃ local domain,
      lit "info@example.org" = local ++ lit "@" ++ domain
      ∧ local ≠ []
      ∧ ((∃ q, q ≠ []
               ∧ local = (EmailPattern.dquote :: q)
                         ++ [EmailPattern.dquote])
         ∨ all_chars (λ c, EmailPattern.atom_char c || N.eqb c (ch ".")) local
           = true)
      ∧ ((∃ body, domain = lit "[" ++ body ++ lit "]")
         ∨ ∃ labels tld,
             domain = labels ++ lit "." ++ tld
             ∧ labels ≠ []
             ∧ all_chars (λ c, EmailPattern.label_char c || N.eqb c (ch "."))
                 labels = true
             ∧ 2 ≤ length tld
             ∧ all_chars Js.is_alpha tld = true).
Proof.
  split; [vm_compute; reflexivity|].
  apply (validateEmail_shape (lit "info@example.org")). vm_compute. reflexivity.
Defined.

(** An address with two atoms, and two labels before its last one. *)
Lemma validateEmail_accepts_witness :
  validateEmail ((lit "mario" ++ after_dots [lit "rossi"])
                 ++ lit "@" ++ dotted [lit "posta"; lit "example"] ++ lit "org")
  = true.
Proof.
  apply (validateEmail_accepts (lit "mario") [lit "rossi"] (lit "posta") [lit "example"] (lit "org")).
  - repeat constructor; first [discriminate | vm_compute; reflexivity].
  - repeat constructor; first [discriminate | vm_compute; reflexivity].
  - simpl. lia.
  - vm_compute. reflexivity.
Defined.

Example accepted_address :
  ((lit "mario" ++ after_dots [lit "rossi"])
   ++ lit "@" ++ dotted [lit "posta"; lit "example"] ++ lit "org")
  = lit "mario.rossi@posta.example.org".
Proof. reflexivity. Qed.

(** The days of the sample configuration, one of them preselected. *)
Lemma days_follow_configuration_witness :
  ∃ out st, Sample.run [Sample.weekly] (lit "?days=sabato") = (out, inr st)
    ∧ dom (State.filters st) = {[lit "days"; lit "formats"; lit "types"]}
    ∧ (∃ query ds,
         read_query (lit "?days=sabato") out = (out, inr query)
         ∧ State.filters st !! (lit "days") = Some ds
         ∧ Tag.tag <$> ds = Sample.weekdays
         ∧ ∀ t, t ∈ ds →
                (Tag.checked t = true
                 ↔ Tag.tag t ∈ preselection query (lit "days")))
    ∧ State.limit st = 10%Z
    ∧ State.loading st = false
    ∧ State.search st = []
    ∧ State.timezone st = lit "Europe/Rome".
Proof.
  destruct (Sample.run [Sample.weekly] (lit "?days=sabato")) as [out [e|st]] eqn:E.
  - exfalso. vm_compute in E. discriminate E.
  - exists out, st. split; [reflexivity|].
    exact (@days_follow_configuration Sample.config Sample.moment_type
             Sample.host [Sample.weekly] (lit "?days=sabato") [] out st E).
Defined.

Example saturday_is_checked :
  ∃ out st ds, Sample.run [Sample.weekly] (lit "?days=sabato") = (out, inr st)
    ∧ State.filters st !! (lit "days") = Some ds
    ∧ Tag.tag <$> List.filter Tag.checked ds = [lit "sabato"].
Proof.
  destruct (Sample.run _ _) as [out [e|st]] eqn:E; evaluated E.
  eexists _, _, _. split; [reflexivity|]. split_and!; by vm_compute.
Qed.

(** A query string of the question mark alone. *)
Lemma short_query_checks_nothing_witness :
  ∃ out st,
    Sample.run [Sample.weekly] (lit "?") = (out, inr st)
    ∧ ∀ k ts t, State.filters st !! k = Some ts → t ∈ ts →
                Tag.checked t = false.
Proof.
  apply (@short_query_checks_nothing Sample.config Sample.moment_type
           Sample.host [Sample.weekly] (lit "?") []).
  - simpl. lia.
  - vm_compute. reflexivity.
Defined.

(** An escape that does not decode: a [URIError], after the warning of
    the row. *)
Lemma query_error_thrown_witness :
  ∃ out st0,
    Sample.run [Sample.short_phone] [] = (out, inr st0)
    ∧ Sample.run [Sample.short_phone] (lit "?days=%zz") = (out, inl URIError).
Proof.
  pose proof (@query_error_thrown Sample.config Sample.moment_type
                Sample.host [Sample.short_phone] (lit "?days=%zz") []
                ltac:(vm_compute; reflexivity)) as Hthm.
  value_in (query_error (lit "?days=%zz")) Hthm.
  exact Hthm.
Defined.

Example uri_error_after_warning :
  Sample.run [Sample.short_phone] (lit "?days=%zz")
  = ([warning 0 (lit "555-1234") (lit "phone number")], inl URIError).
Proof. vm_compute. reflexivity. Qed.

(** The same feed under two query strings. *)
Lemma query_only_checks_witness :
  ∃ out1 st1 out2 st2,
    Sample.run [Sample.weekly] [] = (out1, inr st1)
    ∧ Sample.run [Sample.weekly] (lit "?days=sabato") = (out2, inr st2)
    ∧ out2 = out1
    ∧ State.meetings st2 = State.meetings st1
    ∧ ∀ k, fmap Tag.tag <$> State.filters st2 !! k
           = fmap Tag.tag <$> State.filters st1 !! k.
Proof.
  destruct (Sample.run [Sample.weekly] []) as [out1 [e|st1]] eqn:E1.
  { exfalso. vm_compute in E1. discriminate E1. }
  destruct (Sample.run [Sample.weekly] (lit "?days=sabato"))
    as [out2 [e|st2]] eqn:E2.
  { exfalso. vm_compute in E2. discriminate E2. }
  exists out1, st1, out2, st2. split; [reflexivity|]. split; [reflexivity|].
  exact (@query_only_checks Sample.config Sample.moment_type Sample.host
           [Sample.weekly] [] (lit "?days=sabato") [] out1 out2 st1 st2
           E1 E2).
Defined.

(** A second pair for the days, after one that preselects Saturday. *)
Lemma last_pair_wins_witness :
  ∃ out st, Sample.run [Sample.ongoing] (lit "?days=sabato") = (out, inr st)
    ∧ ∃ st' ts,
        Sample.run [Sample.ongoing] (lit "?days=sabato&days=domenica")
          = (out, inr st')
        ∧ State.meetings st' = State.meetings st
        ∧ State.filters st !! (lit "days") = Some ts
        ∧ State.filters st'
          = <[lit "days" := recheck [lit "domenica"] ts]> (State.filters st).
Proof.
  destruct (Sample.run [Sample.ongoing] (lit "?days=sabato"))
    as [out [e|st]] eqn:E.
  - exfalso. vm_compute in E. discriminate E.
  - exists out, st. split; [reflexivity|].
    pose proof (@last_pair_wins Sample.config Sample.moment_type Sample.host
                  [Sample.ongoing] (lit "?days=sabato") (lit "days") (lit "domenica") [] out st
                  E) as Hthm.
    value_in (decoded (lit "domenica")) Hthm.
    apply Hthm.
    + simpl. lia.
    + repeat constructor.
    + vm_compute. reflexivity.
    + change (Js.split (ch ",") (lit "domenica")) with [lit "domenica"].
      repeat constructor. exists (lit "domenica"). vm_compute. reflexivity.
Defined.

Example sunday_replaces_saturday :
  ∃ out st ds,
    Sample.run [Sample.ongoing] (lit "?days=sabato&days=domenica") = (out, inr st)
    ∧ State.filters st !! (lit "days") = Some ds
    ∧ Tag.tag <$> List.filter Tag.checked ds = [lit "domenica"].
Proof.
  destruct (Sample.run _ _) as [out [e|st]] eqn:E; evaluated E.
  eexists _, _, _. split; [reflexivity|]. split_and!; by vm_compute.
Qed.

(** Two records for the two times of the first row, none for the
    expression that does not parse, one for the row without times. *)
Lemma records_counted_witness :
  ∃ out st,
    Sample.run [Sample.weekly; Sample.unparsed; Sample.ongoing] []
      = (out, inr st)
    ∧ length (State.meetings st) = 3.
Proof.
  destruct (Sample.run [Sample.weekly; Sample.unparsed; Sample.ongoing]
              []) as [out [e|st]] eqn:E.
  - exfalso. vm_compute in E. discriminate E.
  - exists out, st. split; [reflexivity|].
    pose proof (@records_counted Sample.config Sample.moment_type Sample.host
                  [Sample.weekly; Sample.unparsed; Sample.ongoing]
                  [] [] out st E) as Hthm.
    value_in (sum_list (record_count
                          <$> [Sample.weekly; Sample.unparsed; Sample.ongoing]))
      Hthm.
    exact Hthm.
Defined.

(** A row without its notes field, after a row with a warning. *)
Lemma unreadable_row_stops_witness :
  ∃ out, ∀ post location_search,
    Sample.run ([Sample.short_phone] ++ Sample.without_notes :: post)
      location_search
    = (out, inl TypeError).
Proof.
  apply (@unreadable_row_stops Sample.config Sample.moment_type Sample.host
           [Sample.short_phone] Sample.without_notes []).
  vm_compute. reflexivity.
Defined.

(** The notes and the [updated] text of a record. *)
Lemma record_notes_and_updated_witness :
  ∃ out st, Sample.run [Sample.with_notes] [] = (out, inr st)
    ∧ ∃ no u recs,
        gsx_notes Sample.with_notes = Some no
        ∧ updated Sample.with_notes = Some u
        ∧ records_of_row [] Sample.with_notes [] [] [] st recs
        ∧ Forall (λ r, Meeting.notes r = stringToTrimmedArray no (ch "010")
                       ∧ Meeting.updated r = u) recs.
Proof.
  destruct (Sample.run [Sample.with_notes] []) as [out [e|st]] eqn:E.
  - exfalso. vm_compute in E. discriminate E.
  - exists out, st. split; [reflexivity|].
    exact (@record_notes_and_updated Sample.config Sample.moment_type
             Sample.host [] Sample.with_notes [] [] [] out st E).
Defined.

Example with_notes_record :
  ∃ out st m, Sample.run [Sample.with_notes] [] = (out, inr st)
    ∧ State.meetings st = [m]
    ∧ Meeting.notes m = [lit "Ingresso dal cortile"; lit "Citofono 3"]
    ∧ Meeting.updated m = lit " 2020-04-01 ".
Proof.
  destruct (Sample.run _ _) as [out [e|st]] eqn:E; evaluated E.
  eexists _, _, _. split; [reflexivity|]. split_and!; by vm_compute.
Qed.

(** Three rows with one warning each. *)
Lemma console_in_feed_order_witness :
  ∃ out st,
    Sample.run [Sample.short_phone; Sample.bad_email; Sample.unparsed]
      [] = (out, inr st)
    ∧ out = [] ++ [warning 0 (lit "555-1234") (lit "phone number");
                   warning 1 (lit "info at example") (lit "email address");
                   warning 2 (lit "ogni tanto") (lit "time")].
Proof.
  destruct (Sample.run [Sample.short_phone; Sample.bad_email; Sample.unparsed]
              []) as [out [e|st]] eqn:E.
  - exfalso. vm_compute in E. discriminate E.
  - exists out, st. split; [reflexivity|].
    pose proof (@console_in_feed_order Sample.config Sample.moment_type
                  Sample.host
                  [Sample.short_phone; Sample.bad_email; Sample.unparsed]
                  [] [] out st E) as Hthm.
    replace (concat (imap row_warnings
                       [Sample.short_phone; Sample.bad_email; Sample.unparsed]))
      with [warning 0 (lit "555-1234") (lit "phone number");
            warning 1 (lit "info at example") (lit "email address");
            warning 2 (lit "ogni tanto") (lit "time")] in Hthm
      by (vm_compute; reflexivity).
    exact Hthm.
Defined.
(** The search index of a name with two spaces in a row. *)
Lemma search_index_idempotent_witness :
  search_index (search_index (lit "Gruppo  Aurora"))
  = search_index (lit "Gruppo  Aurora").
Proof.
  exact (proj2 (search_index_idempotent (lit "Gruppo  Aurora"))
           sample_lowers_words).
Defined.

(** Cells of white space other than the ASCII blanks are empty once
    trimmed: no button, no warning, one record without a time, and the
    format that a no-break space follows is the format [foo]. *)
Example blank_cells_are_empty :
  ∃ st m formats,
    Sample.run [Sample.blank_cells] [] = ([], inr st)
    ∧ State.meetings st = [m]
    ∧ Meeting.buttons m = []
    ∧ Meeting.tags m = [lit "foo"; lit "foo"; lit "online"]
    ∧ Meeting.time m = None
    ∧ State.filters st !! lit "formats" = Some formats
    ∧ Tag.tag <$> formats = [lit "foo"].
Proof.
  destruct (Sample.run _ _) as [out [e|st]] eqn:E; evaluated E.
  eexists _, _, _. split; [reflexivity|]. split_and!; by vm_compute.
Qed.

(** Values are reported as trimmed, a no-break space inside an address
    makes it no address, and the time is parsed in the trimmed zone. *)
Example padded_cells_are_trimmed :
  ∃ out st m time,
    Sample.run [Sample.padded_cells] [] = (out, inr st)
    ∧ out = [warning 0 (lit "555-1234") (lit "phone number");
             warning 0 (lit "a" ++ Sample.nbsp ++ lit "b@c.de")
               (lit "email address")]
    ∧ State.meetings st = [m]
    ∧ Meeting.time m = Some time
    ∧ Sample.zone time = lit "Europe/Rome".
Proof.
  destruct (Sample.run _ _) as [out [e|st]] eqn:E; evaluated E.
  eexists _, _, _, _. split; [reflexivity|]. split_and!; by vm_compute.
Qed.
End further_samples.
